(** * gdbmi: the GDB/MI output tokenizer and recursive-descent parser

    A shallow embedding of [gdbmi.py] ([decode_string], [mi_scanner],
    [MIParser], [parse]) and the properties of its documented behaviour.

    Conventions of the embedding.
    - The input text is a [string]: a Python 3 [str] whose code points are
      below 256.  In that range the class of decimal digits is the ASCII
      digits.
    - A decoded C string is a list of code points ([list N]), since the
      escape decoder can produce code points above 255.
    - A scanner token, a pair (kind, value) in the source, is a constructor of
      [token]; the text of a punctuation token is fixed by its rule and is
      recovered by [token_text].
    - Exceptions are values of [exn]; every function that can raise returns a
      [res].  [OutOfFuel] is not a Python exception: it marks the exhaustion
      of the recursion budget of the embedding and is shown never to escape
      [MIParser_parse].
    - The Unicode character name database behind the \N{...} escape is a
      parameter, [unicode_names].
    - A [while] loop that appends to a list is [while_append]; the loop of
      [Scanner.scan] is [scan], with the length of the text as its budget.
    - The recursion limit of the interpreter and its limit on the digits of
      [int] are not modelled. *)

From Stdlib Require Import String Ascii List ZArith NArith Bool Arith Lia.
Import ListNotations.

Set Warnings "-register-all".

Open Scope string_scope.

(** ** Characters and text *)

Definition LF : ascii := "010"%char.
Definition DQUOTE : ascii := "034"%char.
Definition BACKSLASH : ascii := "092"%char.

Definition nl : string := String LF "".
Definition dq : string := String DQUOTE "".
Definition bs : string := String BACKSLASH "".

Definition code (c : ascii) : N := N_of_ascii c.

Definition in_range (lo hi : N) (c : ascii) : bool :=
  ((lo <=? code c) && (code c <=? hi))%N.

(** [\d] on code points below 256. *)
Definition is_digit (c : ascii) : bool := in_range 48 57 c.

(** [[a-zA-Z_]] *)
Definition is_ident_start (c : ascii) : bool :=
  in_range 97 122 c || in_range 65 90 c || Ascii.eqb c "_".

(** [[a-zA-Z0-9_-]] *)
Definition is_ident_char (c : ascii) : bool :=
  in_range 97 122 c || in_range 65 90 c || in_range 48 57 c
  || Ascii.eqb c "_" || Ascii.eqb c "-".

(** The code points of a text. *)
Fixpoint codepoints (s : string) : list N :=
  match s with
  | "" => []
  | String c s' => code c :: codepoints s'
  end.

(** ** Exceptions *)

Inductive kind : Type :=
| TOKEN | NL | PROMPT | STRING | LBRACKET | RBRACKET | LBRACE | RBRACE
| COMMA | CARET | ASTERISK | PLUS | EQUALS | TILDE | AT | AMPERSAND | CSTRING.

Definition kind_eq_dec (a b : kind) : {a = b} + {a <> b}.
Proof. decide equality. Defined.

Definition kind_eqb (a b : kind) : bool :=
  if kind_eq_dec a b then true else false.

(** The argument of [MIParser.error]: the three messages the parser builds. *)
Inductive syntax_error : Type :=
| ExpectedGot (expected : kind) (got : option kind)
    (* "expected %s, got %s" % (expected, self._token[0]) *)
| ExpectedMarker (got : option kind)
    (* "expected out-of-band record marker, got '%s'" % marker *)
| ExpectedValue.
    (* "expected list, tuple or C string" *)

Inductive exn : Type :=
| AssertionError                      (* assert not remainder *)
| SyntaxError (what : syntax_error)   (* MIParser.error *)
| StopIteration                       (* next() on an exhausted iterator *)
| UnicodeDecodeError                  (* the unicode_escape codec *)
| OutOfFuel.

Inductive res (A : Type) : Type :=
| Ok (a : A)
| Raise (e : exn).
Arguments Ok {A} a.
Arguments Raise {A} e.

Definition res_bind {A B} (r : res A) (k : A -> res B) : res B :=
  match r with
  | Ok a => k a
  | Raise e => Raise e
  end.

Definition res_map {A B} (f : A -> B) (r : res A) : res B :=
  res_bind r (fun a => Ok (f a)).

(** ** Tokens *)

Inductive token : Type :=
| TTOKEN (n : Z)
| TNL
| TPROMPT
| TSTRING (t : string)
| TLBRACKET | TRBRACKET | TLBRACE | TRBRACE
| TCOMMA | TCARET | TASTERISK | TPLUS | TEQUALS | TTILDE | TAT | TAMPERSAND
| TCSTRING (decoded : list N).

(** First component of a token. *)
Definition kind_of (t : token) : kind :=
  match t with
  | TTOKEN _ => TOKEN | TNL => NL | TPROMPT => PROMPT | TSTRING _ => STRING
  | TLBRACKET => LBRACKET | TRBRACKET => RBRACKET
  | TLBRACE => LBRACE | TRBRACE => RBRACE
  | TCOMMA => COMMA | TCARET => CARET | TASTERISK => ASTERISK
  | TPLUS => PLUS | TEQUALS => EQUALS | TTILDE => TILDE | TAT => AT
  | TAMPERSAND => AMPERSAND | TCSTRING _ => CSTRING
  end.

(** Second component of a token whose value is the matched text. *)
Definition token_text (t : token) : string :=
  match t with
  | TSTRING s => s
  | TNL => nl | TPROMPT => "(gdb)"
  | TLBRACKET => "[" | TRBRACKET => "]" | TLBRACE => "{" | TRBRACE => "}"
  | TCOMMA => "," | TCARET => "^" | TASTERISK => "*" | TPLUS => "+"
  | TEQUALS => "=" | TTILDE => "~" | TAT => "@" | TAMPERSAND => "&"
  | TTOKEN _ | TCSTRING _ => ""
  end.

(** Second component of a TOKEN token. *)
Definition token_int (t : token) : Z :=
  match t with TTOKEN n => n | _ => 0%Z end.

(** Second component of a CSTRING token. *)
Definition token_decoded (t : token) : list N :=
  match t with TCSTRING u => u | _ => [] end.

(** ** decode_string

    [str(getdecoder("unicode_escape")(string)[0])]: the codec takes the UTF-8
    encoding of the text and decodes backslash escapes, every other byte
    standing for the code point of the same value. *)

Definition utf8_encode_char (c : ascii) : string :=
  if (code c <? 128)%N then String c ""
  else String (ascii_of_N (192 + code c / 64))
         (String (ascii_of_N (128 + code c mod 64)) "").

Fixpoint utf8_encode (s : string) : string :=
  match s with
  | "" => ""
  | String c s' => utf8_encode_char c ++ utf8_encode s'
  end.

Definition octal_value (c : ascii) : option N :=
  if in_range 48 55 c then Some (code c - 48)%N else None.

Definition hex_value (c : ascii) : option N :=
  if in_range 48 57 c then Some (code c - 48)%N
  else if in_range 97 102 c then Some (code c - 87)%N
  else if in_range 65 70 c then Some (code c - 55)%N
  else None.

(** Value of a run of hexadecimal digits, [None] if one is not a digit. *)
Fixpoint hex_digits (acc : N) (ds : list ascii) : option N :=
  match ds with
  | [] => Some acc
  | d :: ds' =>
      match hex_value d with
      | Some v => hex_digits (16 * acc + v)%N ds'
      | None => None
      end
  end.

(** The one-character escapes. *)
Definition simple_escape (c : ascii) : option N :=
  if Ascii.eqb c BACKSLASH then Some 92%N
  else if Ascii.eqb c "'" then Some 39%N
  else if Ascii.eqb c DQUOTE then Some 34%N
  else if Ascii.eqb c "a" then Some 7%N
  else if Ascii.eqb c "b" then Some 8%N
  else if Ascii.eqb c "f" then Some 12%N
  else if Ascii.eqb c "t" then Some 9%N
  else if Ascii.eqb c "n" then Some 10%N
  else if Ascii.eqb c "r" then Some 13%N
  else if Ascii.eqb c "v" then Some 11%N
  else None.

Definition MAX_UNICODE : N := 1114111.

(** The decoder returns [None] where the codec raises [UnicodeDecodeError]. *)
Definition emit (cp : N) (r : option (list N)) : option (list N) :=
  option_map (cons cp) r.

Definition hex_escape (ds : list ascii) (r : option (list N))
  : option (list N) :=
  match hex_digits 0 ds with
  | Some cp =>
      if (cp <=? MAX_UNICODE)%N then emit cp r else None
  | None => None
  end.

Section Decode.

(** The Unicode character name database consulted by the \N{...} escape. *)
Variable unicode_names : string -> option N.

Fixpoint unicode_escape_decode (s : string) : option (list N) :=
  match s with
  | "" => Some []
  | String c s1 =>
      if negb (Ascii.eqb c BACKSLASH) then
        emit (code c) (unicode_escape_decode s1)
      else
        match s1 with
        | "" => None
        | String e s2 =>
            match simple_escape e, octal_value e with
            | Some cp, _ => emit cp (unicode_escape_decode s2)
            | None, Some o1 =>
                match s2 with
                | "" => Some [o1]
                | String c2 s3 =>
                    match octal_value c2 with
                    | None => emit o1 (unicode_escape_decode s2)
                    | Some o2 =>
                        match s3 with
                        | "" => Some [8 * o1 + o2]%N
                        | String c3 s4 =>
                            match octal_value c3 with
                            | None =>
                                emit (8 * o1 + o2)%N
                                     (unicode_escape_decode s3)
                            | Some o3 =>
                                emit (64 * o1 + 8 * o2 + o3)%N
                                     (unicode_escape_decode s4)
                            end
                        end
                    end
                end
            | None, None =>
                if Ascii.eqb e LF then unicode_escape_decode s2
                else if Ascii.eqb e "x" then
                  match s2 with
                  | String h1 (String h2 s4) =>
                      hex_escape [h1; h2] (unicode_escape_decode s4)
                  | _ => None
                  end
                else if Ascii.eqb e "u" then
                  match s2 with
                  | String h1 (String h2 (String h3 (String h4 s6))) =>
                      hex_escape [h1; h2; h3; h4] (unicode_escape_decode s6)
                  | _ => None
                  end
                else if Ascii.eqb e "U" then
                  match s2 with
                  | String h1 (String h2 (String h3 (String h4
                      (String h5 (String h6 (String h7 (String h8 s10)))))))
                    =>
                      hex_escape [h1; h2; h3; h4; h5; h6; h7; h8]
                                 (unicode_escape_decode s10)
                  | _ => None
                  end
                else if Ascii.eqb e "N" then
                  match s2 with
                  | String b s3 =>
                      if Ascii.eqb b "{" then
                        (fix closing (t : string) (name : string)
                           : option (list N) :=
                           match t with
                           | "" => None
                           | String a t' =>
                               if Ascii.eqb a "}" then
                                 match name, unicode_names name with
                                 | String _ _, Some cp =>
                                     emit cp (unicode_escape_decode t')
                                 | _, _ => None
                                 end
                               else closing t' (name ++ String a "")
                           end) s3 ""
                      else None
                  | "" => None
                  end
                else
                  emit 92%N (emit (code e) (unicode_escape_decode s2))
            end
        end
  end.

Definition decode_string (string : string) : res (list N) :=
  match unicode_escape_decode (utf8_encode string) with
  | Some decoded => Ok decoded
  | None => Raise UnicodeDecodeError
  end.

End Decode.

(** ** mi_scanner

    [re.Scanner] tries the rules of its lexicon in order at the current
    position and takes the first one that matches; it stops at the first
    position where none does (or where the match is empty) and returns the
    tokens so far with the unscanned remainder. *)

(** Longest prefix of characters satisfying [p], and what follows it. *)
Fixpoint span (p : ascii -> bool) (s : string) : string * string :=
  match s with
  | "" => ("", "")
  | String c s' =>
      if p c then let (m, r) := span p s' in (String c m, r)
      else ("", s)
  end.

(** A pattern applied at the start of a text: the matched text and the rest. *)
Definition pattern := string -> option (string * string).

(** [\d+] *)
Definition re_digits : pattern := fun text =>
  match span is_digit text with
  | ("", _) => None
  | (m, r) => Some (m, r)
  end.

(** A literal text. *)
Fixpoint re_literal (lit : string) : pattern := fun text =>
  match lit, text with
  | "", _ => Some ("", text)
  | String a lit', String c text' =>
      if Ascii.eqb a c then
        match re_literal lit' text' with
        | Some (m, r) => Some (String c m, r)
        | None => None
        end
      else None
  | String _ _, "" => None
  end.

(** [[a-zA-Z_][a-zA-Z0-9_-]*] *)
Definition re_identifier : pattern := fun text =>
  match text with
  | String c text' =>
      if is_ident_start c then
        let (m, r) := span is_ident_char text' in Some (String c m, r)
      else None
  | "" => None
  end.

(** The body and closing quote of a C string: a run of characters other than
    quote and backslash, or of a backslash with any character but newline. *)
Fixpoint re_cstring_body (text : string) : option (string * string) :=
  match text with
  | "" => None
  | String c text' =>
      if Ascii.eqb c DQUOTE then Some (String c "", text')
      else if Ascii.eqb c BACKSLASH then
        match text' with
        | "" => None
        | String d text'' =>
            if Ascii.eqb d LF then None
            else
              match re_cstring_body text'' with
              | Some (m, r) => Some (String c (String d m), r)
              | None => None
              end
        end
      else
        match re_cstring_body text' with
        | Some (m, r) => Some (String c m, r)
        | None => None
        end
  end.

(** A double-quoted string with backslash-escaped pairs. *)
Definition re_cstring : pattern := fun text =>
  match text with
  | String c text' =>
      if Ascii.eqb c DQUOTE then
        match re_cstring_body text' with
        | Some (m, r) => Some (String c m, r)
        | None => None
        end
      else None
  | "" => None
  end.

(** [int(t)] on a run of decimal digits. *)
Definition int (t : string) : Z :=
  fold_left (fun acc d => (10 * acc + Z.of_N (d - 48))%Z) (codepoints t) 0%Z.

(** [t[1:-1]] *)
Definition strip_ends (t : string) : string :=
  match t with
  | "" => ""
  | String _ t' => substring 0 (String.length t' - 1) t'
  end.

Section Scanner.

Variable unicode_names : string -> option N.

Definition action := string -> res token.

(** The action of the last rule:
    [("CSTRING", decode_string(t[1:-1]))]. *)
Definition cstring_token : action := fun t =>
  res_map TCSTRING (decode_string unicode_names (strip_ends t)).

Definition lexicon : list (pattern * action) :=
  [ (re_digits, fun t => Ok (TTOKEN (int t)));
    (re_literal nl, fun t => Ok TNL);
    (re_literal "(gdb)", fun t => Ok TPROMPT);
    (re_identifier, fun t => Ok (TSTRING t));
    (re_literal "[", fun t => Ok TLBRACKET);
    (re_literal "]", fun t => Ok TRBRACKET);
    (re_literal "{", fun t => Ok TLBRACE);
    (re_literal "}", fun t => Ok TRBRACE);
    (re_literal ",", fun t => Ok TCOMMA);
    (re_literal "^", fun t => Ok TCARET);
    (re_literal "*", fun t => Ok TASTERISK);
    (re_literal "+", fun t => Ok TPLUS);
    (re_literal "=", fun t => Ok TEQUALS);
    (re_literal "~", fun t => Ok TTILDE);
    (re_literal "@", fun t => Ok TAT);
    (re_literal "&", fun t => Ok TAMPERSAND);
    (re_cstring, cstring_token)
  ].

(** The first rule of the lexicon that matches at the start of [text]. *)
Fixpoint first_match (rules : list (pattern * action)) (text : string)
  : option (action * string * string) :=
  match rules with
  | [] => None
  | (p, act) :: rules' =>
      match p text with
      | Some (m, r) => Some (act, m, r)
      | None => first_match rules' text
      end
  end.

(** [Scanner.scan]: the loop runs at most once per character, since an
    empty match ends it; with a budget of the length of the text the scan is
    never cut short ([scan_remainder], [scan_enough]). *)
Fixpoint scan (fuel : nat) (text : string) : res (list token * string) :=
  match fuel with
  | O => Ok ([], text)
  | S fuel' =>
      match first_match lexicon text with
      | None => Ok ([], text)
      | Some (act, "", _) => Ok ([], text)
      | Some (act, m, rest) =>
          res_bind (act m) (fun tok =>
          res_bind (scan fuel' rest) (fun '(toks, remainder) =>
          Ok (tok :: toks, remainder)))
      end
  end.

Definition mi_scanner_scan (text : string) : res (list token * string) :=
  scan (String.length text) text.

End Scanner.

(** ** MIParser *)

(** The parser object: the current token and the iterator over the rest.
    [None] as current token stands for the pair (None, None) that [_advance]
    installs once the iterator is exhausted. *)
Record parser : Type := Parser {
  _token : option token;
  _tokens : list token
}.

(** A method of the parser: it reads and updates the object, and returns a
    value or raises. *)
Definition M (A : Type) : Type := parser -> res (A * parser).

Definition ret {A} (a : A) : M A := fun self => Ok (a, self).

Definition bind {A B} (m : M A) (k : A -> M B) : M B := fun self =>
  match m self with
  | Ok (a, self') => k a self'
  | Raise e => Raise e
  end.

Definition error {A} (what : syntax_error) : M A :=
  fun _ => Raise (SyntaxError what).

Definition out_of_fuel {A} : M A := fun _ => Raise OutOfFuel.

Notation "x <- m ;; k" := (bind m (fun x => k))
  (at level 61, m at next level, right associativity).
Notation "m ;;; k" := (bind m (fun _ => k))
  (at level 61, right associativity).

(** [while cond: acc.append(body)], at most [fuel] tests of the condition. *)
Fixpoint while_append {A} (fuel : nat) (cond : M bool) (body : M A)
    (acc : list A) : M (list A) :=
  match fuel with
  | O => out_of_fuel
  | S fuel' =>
      continue <- cond ;;
      if continue : bool then
        x <- body ;;
        while_append fuel' cond body (acc ++ [x])%list
      else ret acc
  end.

(** *** The parsed document *)

(** Values: a decoded C string, a list, or the one-entry dictionary
    [{result_name: value}] that [_result] builds for a named result. *)
Inductive pyobj : Type :=
| PStr (decoded : list N)
| PList (items : list pyobj)
| PDict (result_name : string) (value : pyobj).

(** Out-of-band records: the 4-tuple of [_async_output] and the 2-tuple of
    [_stream_output]. *)
Inductive oob_record : Type :=
| AsyncRecord (token : option Z) (sigil : string) (async_class : string)
    (results : list pyobj)
| StreamRecord (sigil : string) (text : list N).

(** The 3-tuple of [_result_record]. *)
Definition result_record : Type :=
  (option Z * string * option (list pyobj))%type.

Definition document : Type := (list oob_record * option result_record)%type.

(** *** Token access *)

Definition _advance : M (option token) := fun self =>
  let old_token := _token self in
  let self' :=
    match _tokens self with
    | t :: rest => Parser (Some t) rest
    | [] => Parser None []
    end in
  Ok (old_token, self').

Definition _lookahead : M (option token) := fun self => Ok (_token self, self).

(** [self._lookahead()[0]] *)
Definition _lookahead_kind : M (option kind) :=
  la <- _lookahead ;; ret (option_map kind_of la).

Definition _check (expected : kind) : M bool :=
  k <- _lookahead_kind ;;
  ret (match k with Some k' => kind_eqb k' expected | None => false end).

(** The token, or [None] for the [False] of the source. *)
Definition _accept (expected : kind) : M (option token) :=
  ok <- _check expected ;;
  if ok : bool then _advance else ret None.

Definition _expect (expected : kind) : M token :=
  token <- _accept expected ;;
  match token with
  | Some t => ret t
  | None => got <- _lookahead_kind ;; error (ExpectedGot expected got)
  end.

Definition _string : M string :=
  t <- _expect STRING ;; ret (token_text t).

Definition _cstring : M (list N) :=
  t <- _expect CSTRING ;; ret (token_decoded t).

Definition _token_maybe : M (option Z) :=
  token <- _accept TOKEN ;;
  ret (option_map token_int token).

Definition _async_class : M string := _string.
Definition _result_class : M string := _string.

(** *** Grammar rules

    The mutually recursive rules take a recursion budget that decreases at
    every call; [self.pedantic], assigned once by [MIParser.parse] and only
    read afterwards, is a parameter of the section. *)

Section Grammar.

Variable pedantic : bool.

Fixpoint _value (fuel : nat) : M pyobj :=
  match fuel with
  | O => out_of_fuel
  | S fuel =>
      marker <- _lookahead_kind ;;
      match marker with
      | Some LBRACKET => items <- _list fuel ;; ret (PList items)
      | Some CSTRING => s <- _cstring ;; ret (PStr s)
      | Some LBRACE => items <- _tuple fuel ;; ret (PList items)
      | _ => error ExpectedValue
      end
  end

with _list (fuel : nat) : M (list pyobj) :=
  match fuel with
  | O => out_of_fuel
  | S fuel =>
      _expect LBRACKET ;;;
      closed <- _accept RBRACKET ;;
      match closed with
      | Some _ => ret []
      | None =>
          named <- _check STRING ;;
          if named : bool then _list_results fuel
          else _list_values fuel
      end
  end

with _list_values (fuel : nat) : M (list pyobj) :=
  match fuel with
  | O => out_of_fuel
  | S fuel =>
      first <- _value fuel ;;
      values <- while_append fuel (_check COMMA)
                  (_expect COMMA ;;; _value fuel) [first] ;;
      _expect RBRACKET ;;;
      ret values
  end

with _list_results (fuel : nat) : M (list pyobj) :=
  match fuel with
  | O => out_of_fuel
  | S fuel =>
      first <- _result fuel ;;
      others <- _comma_prefixed_results fuel RBRACKET ;;
      ret ([first] ++ others)%list
  end

with _tuple (fuel : nat) : M (list pyobj) :=
  match fuel with
  | O => out_of_fuel
  | S fuel =>
      _expect LBRACE ;;;
      closed <- _accept RBRACE ;;
      match closed with
      | Some _ => ret []
      | None =>
          first <- _result fuel ;;
          others <- _comma_prefixed_results fuel RBRACE ;;
          ret ([first] ++ others)%list
      end
  end

with _result (fuel : nat) : M pyobj :=
  match fuel with
  | O => out_of_fuel
  | S fuel =>
      result_name <- _string ;;
      _expect EQUALS ;;;
      value <- _value fuel ;;
      ret (PDict result_name value)
  end

with _comma_prefixed_results (fuel : nat) (closer : kind) : M (list pyobj) :=
  match fuel with
  | O => out_of_fuel
  | S fuel =>
      results <- while_append fuel (_check COMMA)
                   (_expect COMMA ;;; _result fuel) [] ;;
      _expect closer ;;;
      ret results
  end.

Definition _async_output (fuel : nat) (prefix : kind) : M oob_record :=
  token <- _token_maybe ;;
  sigil <- _expect prefix ;;
  async_class <- _async_class ;;
  results <- _comma_prefixed_results fuel NL ;;
  ret (AsyncRecord token (token_text sigil) async_class results).

Definition _stream_output (prefix : kind) : M oob_record :=
  sigil <- _expect prefix ;;
  text <- _cstring ;;
  (if negb pedantic then _accept NL ;;; ret tt else ret tt) ;;;
  ret (StreamRecord (token_text sigil) text).

Definition _exec_async_output fuel := _async_output fuel ASTERISK.
Definition _status_async_output fuel := _async_output fuel PLUS.
Definition _notify_async_output fuel := _async_output fuel EQUALS.
Definition _console_stream_output := _stream_output TILDE.
Definition _target_stream_output := _stream_output AT.
Definition _log_stream_output := _stream_output AMPERSAND.

Definition _out_of_band_record (fuel : nat) : M oob_record :=
  marker <- _lookahead_kind ;;
  match marker with
  | Some ASTERISK => _exec_async_output fuel
  | Some PLUS => _status_async_output fuel
  | Some EQUALS => _notify_async_output fuel
  | Some TILDE => _console_stream_output
  | Some AT => _target_stream_output
  | Some AMPERSAND => _log_stream_output
  | _ => error (ExpectedMarker marker)
  end.

Definition _result_record (fuel : nat) : M result_record :=
  token <- _token_maybe ;;
  _expect CARET ;;;
  result_class <- _result_class ;;
  has_results <- _check COMMA ;;
  results <- (if has_results : bool
              then rs <- _comma_prefixed_results fuel NL ;; ret (Some rs)
              else ret None) ;;
  _expect NL ;;;
  ret (token, result_class, results).

(** [not (self._check("CARET") or self._check("PROMPT"))] *)
Definition neither_caret_nor_prompt : M bool :=
  caret <- _check CARET ;;
  if caret : bool then ret false
  else prompt <- _check PROMPT ;; ret (negb prompt).

(** [not self._check("PROMPT")] *)
Definition not_prompt : M bool :=
  prompt <- _check PROMPT ;; ret (negb prompt).

Definition _output (fuel : nat) : M document :=
  oob_records <- while_append fuel neither_caret_nor_prompt
                   (_out_of_band_record fuel) [] ;;
  caret <- _check CARET ;;
  result_record <- (if caret : bool
                    then r <- _result_record fuel ;; ret (Some r)
                    else ret None) ;;
  oob_records <- (if negb pedantic
                  then while_append fuel not_prompt
                         (_out_of_band_record fuel) oob_records
                  else ret oob_records) ;;
  _expect PROMPT ;;;
  _expect NL ;;;
  ret (oob_records, result_record).

End Grammar.

(** Recursion budget for a token sequence: no rule needs more than three
    calls for each token it consumes. *)
Definition budget (tokens : list token) : nat := 3 * length tokens + 4.

(** [MIParser().parse(tokens, pedantic)] *)
Definition MIParser_parse (tokens : list token) (pedantic : bool)
  : res document :=
  match tokens with
  | [] => Raise StopIteration
  | t :: rest =>
      match _output pedantic (budget tokens) (Parser (Some t) rest) with
      | Ok (doc, _) => Ok doc
      | Raise e => Raise e
      end
  end.

(** [parse(text, pedantic=False)] *)
Definition parse (unicode_names : string -> option N) (text : string)
    (pedantic : bool) : res document :=
  match mi_scanner_scan unicode_names text with
  | Raise e => Raise e
  | Ok (tokens, remainder) =>
      match remainder with
      | "" => MIParser_parse tokens pedantic
      | String _ _ => Raise AssertionError
      end
  end.

Open Scope list_scope.

(** ** Rendering a document back to tokens

    The document does not record the newline tokens, nor whether a list was
    written with brackets or with braces: [canon] forgets both on the token
    side, and [render] writes every list with brackets. *)

Definition canon (t : token) : list token :=
  match t with
  | TNL => []
  | TLBRACE => [TLBRACKET]
  | TRBRACE => [TRBRACKET]
  | _ => [t]
  end.

Definition canon_all (ts : list token) : list token := flat_map canon ts.

Fixpoint render (v : pyobj) : list token :=
  match v with
  | PStr s => [TCSTRING s]
  | PDict result_name value => TSTRING result_name :: TEQUALS :: render value
  | PList items =>
      TLBRACKET ::
      match items with
      | [] => []
      | x :: rest => render x ++ flat_map (fun r => TCOMMA :: render r) rest
      end ++ [TRBRACKET]
  end.

(** A run of [, result] groups. *)
Definition comma_prefixed (rs : list pyobj) : list token :=
  flat_map (fun r => TCOMMA :: render r) rs.

(** The items of a list, separated by commas. *)
Definition render_items (items : list pyobj) : list token :=
  match items with
  | [] => []
  | x :: rest => render x ++ comma_prefixed rest
  end.

Definition render_token_maybe (id : option Z) : list token :=
  match id with
  | Some n => [TTOKEN n]
  | None => []
  end.

(** The sigil token with a given text. *)
Definition sigil_token (sigil : string) : token :=
  if String.eqb sigil "*" then TASTERISK
  else if String.eqb sigil "+" then TPLUS
  else if String.eqb sigil "=" then TEQUALS
  else if String.eqb sigil "~" then TTILDE
  else if String.eqb sigil "@" then TAT
  else if String.eqb sigil "&" then TAMPERSAND
  else TSTRING sigil.

Definition render_oob (r : oob_record) : list token :=
  match r with
  | AsyncRecord id sigil async_class results =>
      render_token_maybe id ++
      sigil_token sigil :: TSTRING async_class :: comma_prefixed results
  | StreamRecord sigil text => [sigil_token sigil; TCSTRING text]
  end.

Definition render_oobs (rs : list oob_record) : list token :=
  flat_map render_oob rs.

Definition render_result_record (r : result_record) : list token :=
  match r with
  | (id, result_class, results) =>
      render_token_maybe id ++
      TCARET :: TSTRING result_class ::
      match results with
      | Some rs => comma_prefixed rs
      | None => []
      end
  end.

Definition render_result (r : option result_record) : list token :=
  match r with
  | Some r' => render_result_record r'
  | None => []
  end.

(** What a terminator of [_comma_prefixed_results] leaves after [canon]. *)
Definition canon_closer (closer : kind) : list token :=
  match closer with
  | RBRACKET | RBRACE => [TRBRACKET]
  | _ => []
  end.

Definition is_closer (closer : kind) : bool :=
  match closer with
  | NL | RBRACKET | RBRACE => true
  | _ => false
  end.

(** ** Reasoning about parser methods *)

(** The tokens not yet consumed, the current one first. *)
Definition stream (self : parser) : list token :=
  match _token self with
  | Some t => t :: _tokens self
  | None => []
  end.

Definition size (self : parser) : nat := length (stream self).

(** [self._token[0]] *)
Definition peek (self : parser) : option kind := option_map kind_of (_token self).

Definition at_kind (expected : kind) (self : parser) : bool :=
  match peek self with
  | Some k => kind_eqb k expected
  | None => false
  end.

(** From [self] to [self'] the parser consumed tokens that read [out] once
    newlines and the kind of bracket are forgotten. *)
Definition consumed (self self' : parser) (out : list token) : Prop :=
  exists c, stream self = c ++ stream self' /\ canon_all c = out.

(** Outcome of running a method: [Q] on a returned value and the updated
    parser, [E] on the message of a syntax error, [F] when the recursion
    budget ran out; no other exception. *)
Definition wpg {A} (F : Prop) (m : M A) (Q : A -> parser -> Prop)
    (E : syntax_error -> Prop) (self : parser) : Prop :=
  match m self with
  | Ok (a, self') => Q a self'
  | Raise (SyntaxError e) => E e
  | Raise OutOfFuel => F
  | Raise _ => False
  end.

(** A syntax error that does not ask for the prompt. *)
Definition not_expected_prompt (e : syntax_error) : Prop :=
  match e with
  | ExpectedGot PROMPT _ => False
  | _ => True
  end.

(** Number of tokens of a given kind. *)
Definition count_kind (k : kind) (ts : list token) : nat :=
  length (filter (fun t => kind_eqb (kind_of t) k) ts).

(** ** Specifications *)

(** A named result: the dictionary with one entry. *)
Definition is_named (v : pyobj) : Prop :=
  match v with
  | PDict _ _ => True
  | _ => False
  end.

(** The specification of each grammar rule at a given budget: the value
    returned renders to the tokens consumed, a syntax error never asks for the
    prompt, and the budget runs out only below the bound. *)
Definition value_spec (fuel : nat) : Prop :=
  forall self,
    wpg (fuel < 3 * size self + 2) (_value fuel)
      (fun v self' => consumed self self' (render v))
      not_expected_prompt self.

Definition list_spec (fuel : nat) : Prop :=
  forall self,
    wpg (fuel < 3 * size self + 1) (_list fuel)
      (fun items self' => consumed self self' (render (PList items)))
      not_expected_prompt self.

Definition list_values_spec (fuel : nat) : Prop :=
  forall self,
    wpg (fuel < 3 * size self + 3) (_list_values fuel)
      (fun items self' =>
         consumed self self' (render_items items ++ [TRBRACKET]))
      not_expected_prompt self.

Definition list_results_spec (fuel : nat) : Prop :=
  forall self,
    wpg (fuel < 3 * size self + 3) (_list_results fuel)
      (fun items self' =>
         consumed self self' (render_items items ++ [TRBRACKET]) /\
         Forall is_named items)
      not_expected_prompt self.

Definition tuple_spec (fuel : nat) : Prop :=
  forall self,
    wpg (fuel < 3 * size self + 1) (_tuple fuel)
      (fun items self' =>
         consumed self self' (render (PList items)) /\ Forall is_named items)
      not_expected_prompt self.

Definition result_spec (fuel : nat) : Prop :=
  forall self,
    wpg (fuel < 3 * size self + 2) (_result fuel)
      (fun r self' => consumed self self' (render r) /\ is_named r)
      not_expected_prompt self.

Definition comma_prefixed_results_spec (fuel : nat) : Prop :=
  forall closer self,
    is_closer closer = true ->
    wpg (fuel < 3 * size self + 2) (_comma_prefixed_results fuel closer)
      (fun rs self' =>
         consumed self self' (comma_prefixed rs ++ canon_closer closer) /\
         Forall is_named rs)
      not_expected_prompt self.

(** From the kind of a token to the token. *)
Ltac token_kind :=
  match goal with
  | H : kind_of ?t = _ |- _ => destruct t; try discriminate H; clear H
  end.

(** The sigils of the async records and of the stream records. *)
Definition is_async_sigil (k : kind) : bool :=
  match k with ASTERISK | PLUS | EQUALS => true | _ => false end.

Definition is_stream_sigil (k : kind) : bool :=
  match k with TILDE | AT | AMPERSAND => true | _ => false end.

(** What [_output] returns: the records before and after the result record
    in one list, in the order of their tokens. *)
Definition output_post (pedantic : bool) (self : parser) (doc : document)
    (self' : parser) : Prop :=
  exists before after,
    fst doc = before ++ after /\
    (pedantic = true -> after = []) /\
    (snd doc = None -> after = []) /\
    consumed self self'
      (render_oobs before ++ render_result (snd doc) ++
       render_oobs after ++ [TPROMPT]).

(** A pattern that never matches the empty text, and splits the text into
    what it matched and the rest. *)
Definition good_pattern (p : pattern) : Prop :=
  forall text m r, p text = Some (m, r) -> text = (m ++ r)%string /\ m <> "".

(** An action of the lexicon raises nothing but the error of the codec. *)
Definition action_raises_decode_error (act : action) : Prop :=
  forall t e, act t = Raise e -> e = UnicodeDecodeError.

(** Induction on values, through the items of a list. *)
Fixpoint pyobj_induction (P : pyobj -> Prop)
    (Hstr : forall u, P (PStr u))
    (Hlist : forall items, Forall P items -> P (PList items))
    (Hdict : forall name v, P v -> P (PDict name v))
    (v : pyobj) : P v :=
  match v with
  | PStr u => Hstr u
  | PList items =>
      Hlist items
        ((fix all (l : list pyobj) : Forall P l :=
            match l with
            | [] => Forall_nil P
            | x :: l' =>
                Forall_cons x (pyobj_induction P Hstr Hlist Hdict x) (all l')
            end) items)
  | PDict name v' => Hdict name v' (pyobj_induction P Hstr Hlist Hdict v')
  end.

(** *** A text cut before its prompt line *)

(** [self] has what [cut] has, then the prompt and [rest]. *)
Definition cut_before_prompt (rest : list token) (self cut : parser) : Prop :=
  stream self = stream cut ++ TPROMPT :: rest /\
  count_kind PROMPT (stream cut) = 0.

(** Whenever [m1] returns on [self], [m2] returns the same value on [cut],
    having consumed at least [d] tokens, and leaves the two parsers in the
    same relation. *)
Definition mirrored {A} (rest : list token) (d : nat) (m1 m2 : M A)
    (self cut : parser) : Prop :=
  forall a self',
    m1 self = Ok (a, self') ->
    exists cut',
      m2 cut = Ok (a, cut') /\ cut_before_prompt rest self' cut' /\
      size cut' + d <= size cut.

(** The parser after [_advance]. *)
Definition advanced (self : parser) : parser :=
  match _tokens self with
  | t :: rest => Parser (Some t) rest
  | [] => Parser None []
  end.

Definition value_mirror (n : nat) : Prop :=
  forall rest m self cut,
    cut_before_prompt rest self cut -> 3 * size cut + 2 <= m ->
    mirrored rest 1 (_value n) (_value m) self cut.

Definition list_mirror (n : nat) : Prop :=
  forall rest m self cut,
    cut_before_prompt rest self cut -> 3 * size cut + 1 <= m ->
    mirrored rest 1 (_list n) (_list m) self cut.

Definition list_values_mirror (n : nat) : Prop :=
  forall rest m self cut,
    cut_before_prompt rest self cut -> 3 * size cut + 3 <= m ->
    mirrored rest 1 (_list_values n) (_list_values m) self cut.

Definition list_results_mirror (n : nat) : Prop :=
  forall rest m self cut,
    cut_before_prompt rest self cut -> 3 * size cut + 3 <= m ->
    mirrored rest 1 (_list_results n) (_list_results m) self cut.

Definition tuple_mirror (n : nat) : Prop :=
  forall rest m self cut,
    cut_before_prompt rest self cut -> 3 * size cut + 1 <= m ->
    mirrored rest 1 (_tuple n) (_tuple m) self cut.

Definition result_mirror (n : nat) : Prop :=
  forall rest m self cut,
    cut_before_prompt rest self cut -> 3 * size cut + 2 <= m ->
    mirrored rest 1 (_result n) (_result m) self cut.

Definition comma_prefixed_results_mirror (n : nat) : Prop :=
  forall rest m closer self cut,
    closer <> PROMPT ->
    cut_before_prompt rest self cut -> 3 * size cut + 2 <= m ->
    mirrored rest 1 (_comma_prefixed_results n closer)
      (_comma_prefixed_results m closer) self cut.

(** The error of a text cut before its prompt line. *)
Definition missing_prompt_error (pedantic : bool) (doc : document)
  : syntax_error :=
  match pedantic, snd doc with
  | true, Some _ => ExpectedGot PROMPT None
  | _, _ => ExpectedMarker None
  end.

(** ** Scenarios and test inputs *)

(** A name database without entries, for texts that use no \N escape. *)
Definition no_names : string -> option N := fun _ => None.

(** [^done], newline, [(gdb)], newline. *)
Definition scenario_done : string := ("^done" ++ nl ++ "(gdb)" ++ nl)%string.

(** [1^done,bkpt={number="1"}], newline, [(gdb)], newline. *)
Definition scenario_token : string :=
  ("1^done,bkpt={number=" ++ dq ++ "1" ++ dq ++ "}" ++ nl ++
   "(gdb)" ++ nl)%string.

(** [^done,bkpt={number="1"}], newline, [(gdb)], newline: the second scenario
    without its numeric id. *)
Definition scenario_without_token : string :=
  ("^done,bkpt={number=" ++ dq ++ "1" ++ dq ++ "}" ++ nl ++
   "(gdb)" ++ nl)%string.

(** The same with a second newline after the result record. *)
Definition scenario_two_newlines : string :=
  ("^done,bkpt={number=" ++ dq ++ "1" ++ dq ++ "}" ++ nl ++ nl ++
   "(gdb)" ++ nl)%string.


(** A stream record with the quoted text [body], and the prompt line. *)
Definition stream_text (body : string) : string :=
  ("~" ++ dq ++ body ++ dq ++ nl ++ "(gdb)" ++ nl)%string.

(** A character that stands for itself in a quoted string: not a quote, not
    a backslash, and in the ASCII range. *)
Definition plain_char (c : ascii) : bool :=
  negb (Ascii.eqb c DQUOTE) && negb (Ascii.eqb c BACKSLASH)
  && (code c <? 128)%N.

(** A text of such characters. *)
Fixpoint plain (s : string) : bool :=
  match s with
  | "" => true
  | String c s' => plain_char c && plain s'
  end.



(** [^done], newline: no prompt line. *)
Definition no_prompt_line : string := ("^done" ++ nl)%string.

(** [~"\x"]: a quoted string the rule of the lexicon matches and the codec
    cannot decode. *)
Definition truncated_escape : string := ("~" ++ dq ++ bs ++ "x" ++ dq)%string.


(** A tuple with the name [a] twice: [{a="1",a="2"}]. *)
Definition duplicate_names : list token :=
  [TLBRACE; TSTRING "a"; TEQUALS; TCSTRING [49%N]; TCOMMA;
   TSTRING "a"; TEQUALS; TCSTRING [50%N]; TRBRACE].

(** The result record of [^done]. *)
Definition done_record : result_record := (None, "done", None).

(** [~"a"], [^done], [@"b"], prompt: a record on each side of the result. *)
Definition record_after_result : list token :=
  [TTILDE; TCSTRING [97%N]; TNL; TCARET; TSTRING "done"; TNL;
   TAT; TCSTRING [98%N]; TNL; TPROMPT; TNL].


(** [*stopped], [^done], prompt; and the async record after the result. *)
Definition async_before_result : list token :=
  [TASTERISK; TSTRING "stopped"; TNL; TCARET; TSTRING "done"; TNL;
   TPROMPT; TNL].

Definition async_after_result : list token :=
  [TCARET; TSTRING "done"; TNL; TASTERISK; TSTRING "stopped"; TNL;
   TPROMPT; TNL].

(** ** Characters of a text *)

(** Every character of a text satisfies [p]. *)
Fixpoint all_chars (p : ascii -> bool) (s : string) : bool :=
  match s with
  | "" => true
  | String c s' => p c && all_chars p s'
  end.

Definition not_backslash (c : ascii) : bool := negb (Ascii.eqb c BACKSLASH).

Definition not_quote (c : ascii) : bool := negb (Ascii.eqb c DQUOTE).

Definition is_ascii (c : ascii) : bool := (code c <? 128)%N.

(** A character that some rule of the lexicon can match outside a quoted
    string. *)
Definition token_char (c : ascii) : bool :=
  is_digit c || is_ident_char c || Ascii.eqb c LF
  || Ascii.eqb c "(" || Ascii.eqb c ")" || Ascii.eqb c "[" || Ascii.eqb c "]"
  || Ascii.eqb c "{" || Ascii.eqb c "}" || Ascii.eqb c "," || Ascii.eqb c "^"
  || Ascii.eqb c "*" || Ascii.eqb c "+" || Ascii.eqb c "=" || Ascii.eqb c "~"
  || Ascii.eqb c "@" || Ascii.eqb c "&".

(** An action that returns a token for every text without backslash. *)
Definition action_decodes_without_backslash (act : action) : Prop :=
  forall t, all_chars not_backslash t = true -> exists tok, act t = Ok tok.

(** What a rule matches in a text without quote: characters of the alphabet,
    for which its action returns a token. *)
Definition rule_without_quote (rule : pattern * action) : Prop :=
  forall text m r,
    all_chars not_quote text = true -> fst rule text = Some (m, r) ->
    all_chars token_char m = true /\ exists tok, snd rule m = Ok tok.

(** ** Tokens appended to the input *)

(** The parser with [more] tokens appended to what its iterator yields. *)
Definition extended (more : list token) (self : parser) : parser :=
  Parser (_token self) (_tokens self ++ more).

(** Whenever [m1] returns on [self] before the tokens are exhausted, [m2]
    returns the same value on the extended parser and leaves it extended in
    the same way. *)
Definition unaffected {A} (more : list token) (m1 m2 : M A) (self : parser)
  : Prop :=
  forall a self',
    m1 self = Ok (a, self') ->
    size self' <= size self /\
    (stream self' <> [] ->
     m2 (extended more self) = Ok (a, extended more self')).

(** Whenever [m1] returns on [self], [m2] returns the same value on the
    extended parser. *)
Definition same_result {A} (more : list token) (m1 m2 : M A) (self : parser)
  : Prop :=
  forall a self',
    m1 self = Ok (a, self') ->
    stream self <> [] /\ exists s, m2 (extended more self) = Ok (a, s).

(** The grammar rules at a budget [n] against the same rules at any larger
    budget, on the extended parser. *)
Definition value_unaffected (n : nat) : Prop :=
  forall more m self, n <= m -> unaffected more (_value n) (_value m) self.

Definition list_unaffected (n : nat) : Prop :=
  forall more m self, n <= m -> unaffected more (_list n) (_list m) self.

Definition list_values_unaffected (n : nat) : Prop :=
  forall more m self, n <= m ->
    unaffected more (_list_values n) (_list_values m) self.

Definition list_results_unaffected (n : nat) : Prop :=
  forall more m self, n <= m ->
    unaffected more (_list_results n) (_list_results m) self.

Definition tuple_unaffected (n : nat) : Prop :=
  forall more m self, n <= m -> unaffected more (_tuple n) (_tuple m) self.

Definition result_unaffected (n : nat) : Prop :=
  forall more m self, n <= m -> unaffected more (_result n) (_result m) self.

Definition comma_prefixed_results_unaffected (n : nat) : Prop :=
  forall more m closer self, n <= m ->
    unaffected more (_comma_prefixed_results n closer)
      (_comma_prefixed_results m closer) self.

(** ** The shape of a document *)

(** The dictionary of a named result. *)
Definition is_dict (v : pyobj) : bool :=
  match v with
  | PDict _ _ => true
  | _ => false
  end.

(** A value as the grammar rules build it: a dictionary holds a string or a
    list, never a dictionary; a list holds only dictionaries or none. *)
Fixpoint well_formed (v : pyobj) : bool :=
  match v with
  | PStr _ => true
  | PList items =>
      (forallb is_dict items || forallb (fun x => negb (is_dict x)) items)
      && forallb well_formed items
  | PDict _ x => negb (is_dict x) && well_formed x
  end.

(** A list of named results. *)
Definition well_formed_results (rs : list pyobj) : bool :=
  forallb is_dict rs && forallb well_formed rs.

(** [sigil] is one of [sigils]. *)
Definition one_of (sigils : list string) (sigil : string) : bool :=
  existsb (String.eqb sigil) sigils.

Definition is_none {A} (o : option A) : bool :=
  match o with
  | None => true
  | Some _ => false
  end.

(** An out-of-band record without numeric id, with the sigil of its kind
    and, for an async record, a list of named results. *)
Definition well_formed_oob (r : oob_record) : bool :=
  match r with
  | AsyncRecord id sigil _ results =>
      is_none id && one_of ["*"; "+"; "="] sigil && well_formed_results results
  | StreamRecord sigil _ => one_of ["~"; "@"; "&"] sigil
  end.

(** A result record without numeric id, whose list of named results is not
    empty when it has one. *)
Definition well_formed_result_record (r : option result_record) : bool :=
  match r with
  | None => true
  | Some (id, _, None) => is_none id
  | Some (id, _, Some rs) =>
      is_none id && negb (Nat.eqb (length rs) 0) && well_formed_results rs
  end.

Definition well_formed_document (doc : document) : bool :=
  forallb well_formed_oob (fst doc) && well_formed_result_record (snd doc).

(** Whenever [m] returns on [self], [Q] holds of the value and the updated
    parser. *)
Definition returns {A} (m : M A) (self : parser) (Q : A -> parser -> Prop)
  : Prop :=
  forall a self', m self = Ok (a, self') -> Q a self'.

(** What [_value] returns, and what [_result] returns. *)
Definition is_value (v : pyobj) : Prop :=
  is_dict v = false /\ well_formed v = true.

Definition is_result (v : pyobj) : Prop :=
  is_dict v = true /\ well_formed v = true.

(** The shape of what each grammar rule returns. *)
Definition value_shape (n : nat) : Prop :=
  forall self, returns (_value n) self (fun v _ => is_value v).

Definition list_shape (n : nat) : Prop :=
  forall self,
    returns (_list n) self (fun items _ => well_formed (PList items) = true).

Definition list_values_shape (n : nat) : Prop :=
  forall self,
    returns (_list_values n) self (fun items _ => Forall is_value items).

Definition list_results_shape (n : nat) : Prop :=
  forall self,
    returns (_list_results n) self (fun items _ => Forall is_result items).

Definition tuple_shape (n : nat) : Prop :=
  forall self, returns (_tuple n) self (fun items _ => Forall is_result items).

Definition result_shape (n : nat) : Prop :=
  forall self, returns (_result n) self (fun r _ => is_result r).

Definition comma_prefixed_results_shape (n : nat) : Prop :=
  forall closer self,
    returns (_comma_prefixed_results n closer) self
      (fun rs _ => Forall is_result rs).

(** ** Spelling a document

    The tokens that spell a document in the syntax the grammar rules read:
    a list of named results, and the empty list, with braces or with
    brackets; a line for every async record; a stream record with its
    newline in lenient mode and without in pedantic mode; a result record
    with one newline, or two after a list of results; the prompt line. *)

Fixpoint spell (braces : bool) (v : pyobj) : list token :=
  match v with
  | PStr s => [TCSTRING s]
  | PDict result_name value =>
      TSTRING result_name :: TEQUALS :: spell braces value
  | PList items =>
      (if braces && forallb is_dict items then TLBRACE else TLBRACKET) ::
      match items with
      | [] => []
      | x :: rest =>
          spell braces x ++ flat_map (fun r => TCOMMA :: spell braces r) rest
      end ++
      [if braces && forallb is_dict items then TRBRACE else TRBRACKET]
  end.

(** A run of [, item] groups. *)
Definition spell_after_commas (braces : bool) (rs : list pyobj)
  : list token :=
  flat_map (fun r => TCOMMA :: spell braces r) rs.

(** The items of a list, separated by commas. *)
Definition spell_items (braces : bool) (items : list pyobj) : list token :=
  match items with
  | [] => []
  | x :: rest => spell braces x ++ spell_after_commas braces rest
  end.

Definition spell_oob (braces pedantic : bool) (r : oob_record)
  : list token :=
  match r with
  | AsyncRecord _ sigil async_class results =>
      sigil_token sigil :: TSTRING async_class ::
      spell_after_commas braces results ++ [TNL]
  | StreamRecord sigil text =>
      sigil_token sigil :: TCSTRING text :: (if pedantic then [] else [TNL])
  end.

Definition spell_oobs (braces pedantic : bool) (rs : list oob_record)
  : list token :=
  flat_map (spell_oob braces pedantic) rs.

Definition spell_result_record (braces : bool) (r : option result_record)
  : list token :=
  match r with
  | None => []
  | Some (_, result_class, None) => [TCARET; TSTRING result_class; TNL]
  | Some (_, result_class, Some rs) =>
      TCARET :: TSTRING result_class ::
      spell_after_commas braces rs ++ [TNL; TNL]
  end.

Definition spell_document (braces pedantic : bool) (doc : document)
  : list token :=
  spell_oobs braces pedantic (fst doc) ++
  spell_result_record braces (snd doc) ++ [TPROMPT; TNL].

(** [m] reads the tokens [ts] at the front of the input and returns [a],
    whatever follows them, unless its budget runs out. *)
Definition reads {A} (m : M A) (ts : list token) (a : A) : Prop :=
  forall rest self,
    stream self = ts ++ rest ->
    wpg True m (fun a' self' => a' = a /\ stream self' = rest)
      (fun _ => False) self.

(** The grammar rules on the spelling of well-formed values. *)
Definition value_reads (braces : bool) (n : nat) : Prop :=
  forall v, is_value v -> reads (_value n) (spell braces v) v.

Definition result_reads (braces : bool) (n : nat) : Prop :=
  forall v, is_result v -> reads (_result n) (spell braces v) v.

Definition list_reads (braces : bool) (n : nat) : Prop :=
  forall items,
    well_formed (PList items) = true ->
    reads (_list n) (TLBRACKET :: spell_items braces items ++ [TRBRACKET])
      items.

Definition tuple_reads (braces : bool) (n : nat) : Prop :=
  forall items,
    Forall is_result items ->
    reads (_tuple n) (TLBRACE :: spell_items braces items ++ [TRBRACE]) items.

Definition list_values_reads (braces : bool) (n : nat) : Prop :=
  forall x items,
    Forall is_value (x :: items) ->
    reads (_list_values n) (spell_items braces (x :: items) ++ [TRBRACKET])
      (x :: items).

Definition list_results_reads (braces : bool) (n : nat) : Prop :=
  forall x items,
    Forall is_result (x :: items) ->
    reads (_list_results n) (spell_items braces (x :: items) ++ [TRBRACKET])
      (x :: items).

Definition comma_prefixed_results_reads (braces : bool) (n : nat) : Prop :=
  forall closer rs,
    Forall is_result rs -> kind_of closer <> COMMA ->
    reads (_comma_prefixed_results n (kind_of closer))
      (spell_after_commas braces rs ++ [closer]) rs.

(** ** Writing tokens as text *)

(** An identifier: [[a-zA-Z_][a-zA-Z0-9_-]*]. *)
Definition identifier (s : string) : bool :=
  match s with
  | "" => false
  | String c s' => is_ident_start c && all_chars is_ident_char s'
  end.

(** A code point that stands for itself in a quoted string. *)
Definition plain_codepoint (n : N) : bool :=
  (n <? 128)%N && negb (n =? 34)%N && negb (n =? 92)%N.

(** The text with the given code points, all below 256. *)
Fixpoint text_of_codepoints (u : list N) : string :=
  match u with
  | [] => ""
  | n :: u' => String (ascii_of_N n) (text_of_codepoints u')
  end.

(** The text of a token: a decoded string between quotes, any other token as
    [token_text] has it. *)
Definition source (t : token) : string :=
  match t with
  | TCSTRING u => (dq ++ text_of_codepoints u ++ dq)%string
  | _ => token_text t
  end.

(** The text of a token sequence, nothing between the tokens. *)
Fixpoint write (ts : list token) : string :=
  match ts with
  | [] => ""
  | t :: ts' => (source t ++ write ts')%string
  end.

(** A token whose text, written right after an identifier, would continue
    it. *)
Definition continues_identifier (t : token) : bool :=
  match t with
  | TSTRING _ | TTOKEN _ => true
  | _ => false
  end.

(** A token sequence whose text the scanner reads back: identifiers for the
    STRING tokens, each followed by a token that does not continue it;
    code points that stand for themselves in the CSTRING tokens; no TOKEN
    token. *)
Fixpoint scannable (ts : list token) : bool :=
  match ts with
  | [] => true
  | t :: ts' =>
      match t with
      | TSTRING s =>
          identifier s &&
          match ts' with
          | [] => true
          | t' :: _ => negb (continues_identifier t')
          end
      | TCSTRING u => forallb plain_codepoint u
      | TTOKEN _ => false
      | _ => true
      end && scannable ts'
  end.

(** A value whose names are identifiers and whose strings hold code points
    that stand for themselves. *)
Fixpoint writable (v : pyobj) : bool :=
  match v with
  | PStr u => forallb plain_codepoint u
  | PList items => forallb writable items
  | PDict result_name value => identifier result_name && writable value
  end.

Definition writable_oob (r : oob_record) : bool :=
  match r with
  | AsyncRecord _ _ async_class results =>
      identifier async_class && forallb writable results
  | StreamRecord _ text => forallb plain_codepoint text
  end.

Definition writable_result_record (r : option result_record) : bool :=
  match r with
  | None => true
  | Some (_, result_class, None) => identifier result_class
  | Some (_, result_class, Some rs) =>
      identifier result_class && forallb writable rs
  end.

Definition writable_document (doc : document) : bool :=
  forallb writable_oob (fst doc) && writable_result_record (snd doc).

(** ** Failing runs *)

(** [m] fails with the syntax error [e], unless its budget runs out. *)
Definition fails_with {A} (e : syntax_error) (m : M A) (self : parser)
  : Prop :=
  wpg True m (fun _ _ => False) (fun e' => e' = e) self.

(** ** The tokens of a record *)

(** The tokens [c] read for the out-of-band record [r]: they render to the
    record, and those of a stream record are its sigil and its quoted
    string, with or without a newline. *)
Definition record_tokens (p : oob_record * list token) : Prop :=
  canon_all (snd p) = render_oob (fst p) /\
  match fst p with
  | StreamRecord sigil text =>
      snd p = [sigil_token sigil; TCSTRING text] \/
      snd p = [sigil_token sigil; TCSTRING text; TNL]
  | AsyncRecord _ _ _ _ => True
  end.

(** A stream record read with its newline. *)
Definition with_newline (p : oob_record * list token) : bool :=
  match p with
  | (StreamRecord _ _, [_; _; TNL]) => true
  | _ => false
  end.

(** The kind of the first of some tokens. *)
Definition first_kind (ts : list token) : option kind :=
  option_map kind_of (hd_error ts).

(** What pedantic mode makes of tokens that lenient mode accepts with the
    document [doc], read as the records [before] the result record and the
    records [after] it. *)
Definition pedantic_outcome {A} (before after : list (oob_record * list token))
    (accepted : A) : res A :=
  if existsb with_newline before
  then Raise (SyntaxError (ExpectedMarker (Some NL)))
  else match after with
       | [] => Ok accepted
       | p :: _ => Raise (SyntaxError (ExpectedGot PROMPT (first_kind (snd p))))
       end.


(** A prompt token with a newline token right after it. *)
Fixpoint has_prompt_line (ts : list token) : bool :=
  match ts with
  | [] => false
  | t :: ts' =>
      (kind_eqb (kind_of t) PROMPT &&
       match ts' with
       | TNL :: _ => true
       | _ => false
       end) || has_prompt_line ts'
  end.

(** ** A text with more text appended *)



(** ** The escapes of a quoted string

    What the [unicode_escape] codec makes of the text between the quotes,
    told on the characters of the text: the one-character escapes, the octal
    escapes of one to three digits, the hexadecimal escapes [\x], [\u] and
    [\U] of two, four and eight digits, the named escape [\N{...}], and a
    backslash before any other character, which stays.  A character from 128
    to 255 is read as the two bytes of its UTF-8 encoding.  The relation is
    stated apart from [unicode_escape_decode], the decoder of the embedding,
    which is shown to return what the relation gives. *)











(** ** Further test inputs *)

(** The letter e with acute accent, code point 233. *)
Definition e_acute : string := String (ascii_of_nat 233) "".

(** [caf] and the letter e with acute accent. *)
Definition accented_word : string := ("caf" ++ e_acute)%string.

(** A stream record whose quoted text is that word, the accented letter
    written as itself, and the prompt line. *)
Definition accented_stream : string := stream_text accented_word.

(** [^done ], newline, [(gdb)], newline: a space after the result class. *)
Definition stray_space : string :=
  ("^done" ++ String " " "" ++ nl ++ "(gdb)" ++ nl)%string.

(** The tokens of [^done], newline, [(gdb)], newline. *)
Definition done_tokens : list token :=
  [TCARET; TSTRING "done"; TNL; TPROMPT; TNL].

(** [^done,a="1"], newline, [(gdb)], newline: one newline after the list of
    results. *)
Definition one_newline_result : list token :=
  [TCARET; TSTRING "done"; TCOMMA; TSTRING "a"; TEQUALS; TCSTRING [49%N];
   TNL; TPROMPT; TNL].

(** [*stopped], newline, [~"a"], newline, [^done], newline, [(gdb)],
    newline. *)
Definition stream_line_after_record : list token :=
  [TASTERISK; TSTRING "stopped"; TNL; TTILDE; TCSTRING [97%N]; TNL;
   TCARET; TSTRING "done"; TNL; TPROMPT; TNL].

(** [*stopped,frame={args=[],line="1"}], newline, [~"a"], newline, [^done],
    newline, [(gdb)], newline. *)
Definition stopped_tokens : list token :=
  [TASTERISK; TSTRING "stopped"; TCOMMA; TSTRING "frame"; TEQUALS;
   TLBRACE; TSTRING "args"; TEQUALS; TLBRACKET; TRBRACKET; TCOMMA;
   TSTRING "line"; TEQUALS; TCSTRING [49%N]; TRBRACE; TNL;
   TTILDE; TCSTRING [97%N]; TNL;
   TCARET; TSTRING "done"; TNL; TPROMPT; TNL].

(** The same as a text, the tuple of [frame] and the empty list of [args]
    written with braces. *)
Definition stopped_text : string :=
  ("*stopped,frame={args={},line=" ++ dq ++ "1" ++ dq ++ "}" ++ nl ++
   "~" ++ dq ++ "a" ++ dq ++ nl ++ "^done" ++ nl ++ "(gdb)" ++ nl)%string.

(** The document of both. *)
Definition stopped_document : document :=
  ([AsyncRecord None "*" "stopped"
      [PDict "frame" (PList [PDict "args" (PList []);
                             PDict "line" (PStr [49%N])])];
    StreamRecord "~" [97%N]],
   Some done_record).

(** [^done], newline, [^error], newline, [(gdb)], newline: the second record
    before the prompt line. *)
Definition two_results_one_prompt : string :=
  ("^done" ++ nl ++ "^error" ++ nl ++ "(gdb)" ++ nl)%string.

(** [^done], newline, [(gdb)], newline, [^error], newline, [(gdb)], newline:
    the second record after the prompt line. *)
Definition result_after_prompt : string :=
  ("^done" ++ nl ++ "(gdb)" ++ nl ++ "^error" ++ nl ++ "(gdb)" ++ nl)%string.

(** [^done], newline, [(gdb)]: the prompt without its newline. *)
Definition prompt_without_newline : string := ("^done" ++ nl ++ "(gdb)")%string.

(** [(gdb)], newline, [^done], newline: the prompt line first. *)
Definition prompt_line_first : string :=
  ("(gdb)" ++ nl ++ "^done" ++ nl)%string.




(** ** Rules for the outcome of a method *)

Lemma kind_eqb_eq (a b : kind) : kind_eqb a b = true <-> a = b.
Proof. unfold kind_eqb. destruct (kind_eq_dec a b); split; congruence. Qed.

Lemma kind_eqb_refl (a : kind) : kind_eqb a a = true.
Proof. now apply kind_eqb_eq. Qed.

Section Rules.

Context {A : Type}.
Variables (F : Prop) (Q : A -> parser -> Prop) (E : syntax_error -> Prop).

Lemma wpg_ret (a : A) self : Q a self -> wpg F (ret a) Q E self.
Proof. intro H. exact H. Qed.

Lemma wpg_error what self : E what -> wpg F (error what) Q E self.
Proof. intro H. exact H. Qed.

Lemma wpg_out_of_fuel self : F -> wpg F out_of_fuel Q E self.
Proof. intro H. exact H. Qed.

Lemma wpg_bind {B} (m : M B) (k : B -> M A) self :
  wpg F m (fun b self' => wpg F (k b) Q E self') E self ->
  wpg F (bind m k) Q E self.
Proof.
  unfold wpg, bind. destruct (m self) as [[b self']|e]; auto.
Qed.

Lemma wpg_weaken (F' : Prop) (Q' : A -> parser -> Prop)
    (E' : syntax_error -> Prop) (m : M A) self :
  wpg F' m Q' E' self ->
  (F' -> F) ->
  (forall a self', Q' a self' -> Q a self') ->
  (forall e, E' e -> E e) ->
  wpg F m Q E self.
Proof.
  unfold wpg. intros H HF HQ HE.
  destruct (m self) as [[a self']|[]]; auto.
Qed.

Lemma wpg_returns (m : M A) self a self' :
  wpg F m Q E self -> m self = Ok (a, self') -> Q a self'.
Proof. unfold wpg. intros H Hm. now rewrite Hm in H. Qed.

End Rules.

Lemma stream_advance self t :
  _token self = Some t ->
  exists self', _advance self = Ok (Some t, self') /\
                stream self = t :: stream self'.
Proof.
  intro Ht. unfold _advance, stream. rewrite Ht.
  destruct (_tokens self) as [|t' rest]; eexists; split; reflexivity.
Qed.

Lemma at_kind_true expected self :
  at_kind expected self = true ->
  exists t, _token self = Some t /\ kind_of t = expected.
Proof.
  unfold at_kind, peek. destruct (_token self) as [t|]; simpl; [|discriminate].
  intro H. apply kind_eqb_eq in H. eauto.
Qed.

Lemma at_kind_peek expected self :
  at_kind expected self = true <-> peek self = Some expected.
Proof.
  unfold at_kind. destruct (peek self) as [k|].
  - rewrite kind_eqb_eq. split; congruence.
  - split; discriminate.
Qed.

Lemma peek_stream self : peek self = option_map kind_of (hd_error (stream self)).
Proof. unfold peek, stream. now destruct (_token self). Qed.

Section TokenRules.

Variable F : Prop.
Variable E : syntax_error -> Prop.

Lemma wpg_lookahead_kind (Q : option kind -> parser -> Prop) self :
  Q (peek self) self -> wpg F _lookahead_kind Q E self.
Proof. intro H. exact H. Qed.

Lemma wpg_check (Q : bool -> parser -> Prop) expected self :
  Q (at_kind expected self) self -> wpg F (_check expected) Q E self.
Proof. intro H. exact H. Qed.

Lemma wpg_accept (Q : option token -> parser -> Prop) expected self :
  (forall t self', kind_of t = expected ->
                   stream self = t :: stream self' -> Q (Some t) self') ->
  (at_kind expected self = false -> Q None self) ->
  wpg F (_accept expected) Q E self.
Proof.
  intros Hyes Hno. unfold _accept. apply wpg_bind, wpg_check.
  destruct (at_kind expected self) eqn:Hat.
  - destruct (at_kind_true _ _ Hat) as (t & Ht & Hk).
    destruct (stream_advance _ _ Ht) as (self' & Hadv & Hs).
    unfold wpg. rewrite Hadv. now apply Hyes.
  - now apply wpg_ret, Hno.
Qed.

Lemma wpg_expect (Q : token -> parser -> Prop) expected self :
  (forall t self', kind_of t = expected ->
                   stream self = t :: stream self' -> Q t self') ->
  (at_kind expected self = false -> E (ExpectedGot expected (peek self))) ->
  wpg F (_expect expected) Q E self.
Proof.
  intros Hyes Hno. unfold _expect. apply wpg_bind, wpg_accept.
  - intros t self' Hk Hs. now apply wpg_ret, Hyes.
  - intro Hat. apply wpg_bind, wpg_lookahead_kind, wpg_error. now apply Hno.
Qed.

Lemma wpg_string (Q : string -> parser -> Prop) self :
  (forall s self', stream self = TSTRING s :: stream self' -> Q s self') ->
  (at_kind STRING self = false -> E (ExpectedGot STRING (peek self))) ->
  wpg F _string Q E self.
Proof.
  intros Hyes Hno. unfold _string. apply wpg_bind, wpg_expect; [|exact Hno].
  intros t self' Hk Hs. apply wpg_ret.
  destruct t; try discriminate. now apply Hyes.
Qed.

Lemma wpg_cstring (Q : list N -> parser -> Prop) self :
  (forall u self', stream self = TCSTRING u :: stream self' -> Q u self') ->
  (at_kind CSTRING self = false -> E (ExpectedGot CSTRING (peek self))) ->
  wpg F _cstring Q E self.
Proof.
  intros Hyes Hno. unfold _cstring. apply wpg_bind, wpg_expect; [|exact Hno].
  intros t self' Hk Hs. apply wpg_ret.
  destruct t; try discriminate. now apply Hyes.
Qed.

Lemma wpg_token_maybe (Q : option Z -> parser -> Prop) self :
  (forall n self', stream self = TTOKEN n :: stream self' ->
                   Q (Some n) self') ->
  (at_kind TOKEN self = false -> Q None self) ->
  wpg F _token_maybe Q E self.
Proof.
  intros Hyes Hno. unfold _token_maybe. apply wpg_bind, wpg_accept.
  - intros t self' Hk Hs. apply wpg_ret.
    destruct t; try discriminate. now apply Hyes.
  - intro Hat. now apply wpg_ret, Hno.
Qed.

End TokenRules.

(** The loop rule: an invariant on the accumulated list and the parser, and
    every turn of the loop consumes a token. *)
Lemma wpg_while {A} (F : Prop) (cond : M bool) (body : M A)
    (I : list A -> parser -> Prop) (Q : list A -> parser -> Prop)
    (E : syntax_error -> Prop) :
  (forall acc self, I acc self ->
     wpg False cond
       (fun b self' =>
          self' = self /\
          if b : bool
          then wpg F body
                 (fun x self'' => I (acc ++ [x]) self'' /\ size self'' < size self)
                 E self
          else Q acc self)
       E self) ->
  forall fuel acc self,
    I acc self ->
    wpg (fuel <= size self \/ F) (while_append fuel cond body acc) Q E self.
Proof.
  intros Hstep fuel. induction fuel as [|fuel IH]; intros acc self HI.
  - apply wpg_out_of_fuel. left. lia.
  - cbn [while_append]. apply wpg_bind.
    eapply wpg_weaken; [apply (Hstep acc self HI) | tauto | | auto].
    intros b self' [-> Hb]. destruct b.
    + apply wpg_bind. eapply wpg_weaken; [exact Hb | tauto | | auto].
      intros x self'' [HI' Hlt]. cbn beta.
      eapply wpg_weaken; [apply (IH _ _ HI') | | auto | auto].
      intros [Hle|HF]; [left; lia | now right].
    + now apply wpg_ret.
Qed.

(** ** Consumed tokens *)

Lemma canon_all_app a b : canon_all (a ++ b) = canon_all a ++ canon_all b.
Proof. apply flat_map_app. Qed.

Lemma canon_all_length ts : length (canon_all ts) <= length ts.
Proof.
  induction ts as [|t ts IH]; simpl; [lia|].
  rewrite length_app. destruct t; simpl; lia.
Qed.

Lemma consumed_refl self : consumed self self [].
Proof. exists []. split; reflexivity. Qed.

Lemma consumed_token self self' t :
  stream self = t :: stream self' -> consumed self self' (canon t).
Proof. intro H. exists [t]. split; [exact H | simpl; apply app_nil_r]. Qed.

Lemma consumed_trans a b c o1 o2 :
  consumed a b o1 -> consumed b c o2 -> consumed a c (o1 ++ o2).
Proof.
  intros (c1 & H1 & E1) (c2 & H2 & E2). exists (c1 ++ c2). split.
  - rewrite H1, H2. now rewrite app_assoc.
  - rewrite canon_all_app. congruence.
Qed.

Lemma consumed_eq a b o o' : consumed a b o -> o = o' -> consumed a b o'.
Proof. intros H <-. exact H. Qed.

Lemma consumed_size a b o : consumed a b o -> length o + size b <= size a.
Proof.
  intros (c & H & <-). unfold size. rewrite H, length_app.
  pose proof (canon_all_length c). lia.
Qed.

Lemma stream_size self self' t :
  stream self = t :: stream self' -> size self = S (size self').
Proof. unfold size. now intros ->. Qed.

Lemma render_nonempty v : 1 <= length (render v).
Proof. destruct v; simpl; lia. Qed.

(** ** The grammar rules, one call unfolded *)

Lemma _value_unfold fuel :
  _value (S fuel) =
  (marker <- _lookahead_kind ;;
   match marker with
   | Some LBRACKET => items <- _list fuel ;; ret (PList items)
   | Some CSTRING => s <- _cstring ;; ret (PStr s)
   | Some LBRACE => items <- _tuple fuel ;; ret (PList items)
   | _ => error ExpectedValue
   end).
Proof. reflexivity. Qed.

Lemma _list_unfold fuel :
  _list (S fuel) =
  (_expect LBRACKET ;;;
   closed <- _accept RBRACKET ;;
   match closed with
   | Some _ => ret []
   | None =>
       named <- _check STRING ;;
       if named : bool then _list_results fuel else _list_values fuel
   end).
Proof. reflexivity. Qed.

Lemma _list_values_unfold fuel :
  _list_values (S fuel) =
  (first <- _value fuel ;;
   values <- while_append fuel (_check COMMA)
               (_expect COMMA ;;; _value fuel) [first] ;;
   _expect RBRACKET ;;;
   ret values).
Proof. reflexivity. Qed.

Lemma _list_results_unfold fuel :
  _list_results (S fuel) =
  (first <- _result fuel ;;
   others <- _comma_prefixed_results fuel RBRACKET ;;
   ret ([first] ++ others)).
Proof. reflexivity. Qed.

Lemma _tuple_unfold fuel :
  _tuple (S fuel) =
  (_expect LBRACE ;;;
   closed <- _accept RBRACE ;;
   match closed with
   | Some _ => ret []
   | None =>
       first <- _result fuel ;;
       others <- _comma_prefixed_results fuel RBRACE ;;
       ret ([first] ++ others)
   end).
Proof. reflexivity. Qed.

Lemma _result_unfold fuel :
  _result (S fuel) =
  (result_name <- _string ;;
   _expect EQUALS ;;;
   value <- _value fuel ;;
   ret (PDict result_name value)).
Proof. reflexivity. Qed.

Lemma _comma_prefixed_results_unfold fuel closer :
  _comma_prefixed_results (S fuel) closer =
  (results <- while_append fuel (_check COMMA)
                (_expect COMMA ;;; _result fuel) [] ;;
   _expect closer ;;;
   ret results).
Proof. reflexivity. Qed.

(** ** What each grammar rule consumes and returns *)

Lemma comma_prefixed_app a b :
  comma_prefixed (a ++ b) = comma_prefixed a ++ comma_prefixed b.
Proof. apply flat_map_app. Qed.

Lemma render_PList items :
  render (PList items) = TLBRACKET :: render_items items ++ [TRBRACKET].
Proof. destruct items; reflexivity. Qed.

(** The loop [while self._check("COMMA"): self._expect("COMMA");
    acc.append(body())]. *)
Lemma wpg_comma_loop (F : Prop) (body : M pyobj) (P : pyobj -> Prop)
    fuel acc0 start :
  (forall self, size self < size start ->
     wpg F body (fun r self' => consumed self self' (render r) /\ P r)
       not_expected_prompt self) ->
  wpg (fuel <= size start \/ F)
    (while_append fuel (_check COMMA) (_expect COMMA ;;; body) acc0)
    (fun acc self' =>
       exists l, acc = acc0 ++ l /\
                 consumed start self' (comma_prefixed l) /\
                 Forall P l /\ at_kind COMMA self' = false)
    not_expected_prompt start.
Proof.
  intro Hbody.
  apply (wpg_while F (_check COMMA) (_expect COMMA ;;; body)
           (fun acc self =>
              exists l, acc = acc0 ++ l /\
                        consumed start self (comma_prefixed l) /\ Forall P l)).
  - intros acc self (l & -> & Hc & HP). apply wpg_check. split; [reflexivity|].
    destruct (at_kind COMMA self) eqn:Hat.
    + apply wpg_bind, wpg_expect; [|congruence].
      intros t self1 Hk Hs.
      pose proof (consumed_size _ _ _ Hc) as Hsz.
      pose proof (stream_size _ _ _ Hs) as Hs1.
      eapply wpg_weaken; [apply Hbody; lia | auto | | auto].
      intros r self2 [Hr HPr]. split.
      * exists (l ++ [r]). split; [now rewrite app_assoc|]. split.
        -- rewrite comma_prefixed_app. eapply consumed_trans; [exact Hc|].
           destruct t; try discriminate.
           apply (consumed_trans _ _ _ [TCOMMA] (render r)
                    (consumed_token _ _ _ Hs)) in Hr.
           simpl in *. now rewrite app_nil_r.
        -- apply Forall_app. split; [exact HP | now constructor].
      * pose proof (consumed_size _ _ _ Hr). lia.
    + exists l. auto.
  - exists []. split; [now rewrite app_nil_r|]. split; [apply consumed_refl|].
    constructor.
Qed.

Lemma value_step fuel :
  list_spec fuel -> tuple_spec fuel -> value_spec (S fuel).
Proof.
  intros Hlist Htuple self. rewrite _value_unfold.
  apply wpg_bind, wpg_lookahead_kind.
  destruct (peek self) as [[]|] eqn:Hp; try (apply wpg_error; exact I).
  - apply wpg_bind. eapply wpg_weaken; [apply Hlist | lia | | auto].
    intros items self' Hc. now apply wpg_ret.
  - apply wpg_bind. eapply wpg_weaken; [apply Htuple | lia | | auto].
    intros items self' [Hc _]. now apply wpg_ret.
  - apply wpg_bind, wpg_cstring; [|intro; exact I].
    intros u self' Hs. apply wpg_ret. apply (consumed_token _ _ _ Hs).
Qed.

Lemma list_step fuel :
  list_values_spec fuel -> list_results_spec fuel -> list_spec (S fuel).
Proof.
  intros Hvalues Hresults self. rewrite _list_unfold.
  apply wpg_bind, wpg_expect; [|intro; exact I].
  intros t self1 Hk Hs. token_kind.
  pose proof (stream_size _ _ _ Hs) as Hsz.
  apply wpg_bind, wpg_accept.
  - intros t self2 Hk Hs2. token_kind. apply wpg_ret.
    apply (consumed_trans _ _ _ _ _ (consumed_token _ _ _ Hs)
             (consumed_token _ _ _ Hs2)).
  - intros _. apply wpg_bind, wpg_check.
    destruct (at_kind STRING self1).
    + eapply wpg_weaken; [apply Hresults | lia | | auto].
      intros items self2 [Hc _]. rewrite render_PList.
      apply (consumed_trans _ _ _ _ _ (consumed_token _ _ _ Hs) Hc).
    + eapply wpg_weaken; [apply Hvalues | lia | | auto].
      intros items self2 Hc. rewrite render_PList.
      apply (consumed_trans _ _ _ _ _ (consumed_token _ _ _ Hs) Hc).
Qed.

Lemma list_values_step fuel : value_spec fuel -> list_values_spec (S fuel).
Proof.
  intros Hvalue self. rewrite _list_values_unfold.
  apply wpg_bind. eapply wpg_weaken; [apply Hvalue | lia | | auto].
  intros first self1 Hfirst.
  pose proof (consumed_size _ _ _ Hfirst) as Hsz.
  pose proof (render_nonempty first) as Hne.
  apply wpg_bind.
  eapply wpg_weaken;
    [apply (wpg_comma_loop (S fuel < 3 * size self + 3) (_value fuel)
              (fun _ => True))
    | | | auto].
  - intros self2 Hlt.
    eapply wpg_weaken; [apply Hvalue | lia | | auto]. auto.
  - intros [Hle|HF]; lia.
  - intros values self2 (l & -> & Hc & _ & _).
    apply wpg_bind, wpg_expect; [|intro; exact I].
    intros t self3 Hk Hs. token_kind. apply wpg_ret.
    eapply consumed_eq.
    + apply (consumed_trans _ _ _ _ _ Hfirst
               (consumed_trans _ _ _ _ _ Hc (consumed_token _ _ _ Hs))).
    + simpl. now rewrite app_assoc.
Qed.

Lemma result_step fuel : value_spec fuel -> result_spec (S fuel).
Proof.
  intros Hvalue self. rewrite _result_unfold.
  apply wpg_bind, wpg_string; [|intro; exact I].
  intros name self1 Hs1.
  apply wpg_bind, wpg_expect; [|intro; exact I].
  intros t self2 Hk Hs2. token_kind.
  pose proof (stream_size _ _ _ Hs1). pose proof (stream_size _ _ _ Hs2).
  apply wpg_bind. eapply wpg_weaken; [apply Hvalue | lia | | auto].
  intros v self3 Hv. apply wpg_ret. split; [|exact I].
  apply (consumed_trans _ _ _ _ _ (consumed_token _ _ _ Hs1)
           (consumed_trans _ _ _ _ _ (consumed_token _ _ _ Hs2) Hv)).
Qed.

Lemma comma_prefixed_results_step fuel :
  result_spec fuel -> comma_prefixed_results_spec (S fuel).
Proof.
  intros Hresult closer self Hcloser. rewrite _comma_prefixed_results_unfold.
  apply wpg_bind.
  eapply wpg_weaken;
    [apply (wpg_comma_loop (S fuel < 3 * size self + 2) (_result fuel)
              is_named)
    | | | auto].
  - intros self2 Hlt.
    eapply wpg_weaken; [apply Hresult | lia | | auto]. auto.
  - intros [Hle|HF]; lia.
  - intros rs self2 (l & -> & Hc & Hnamed & _).
    apply wpg_bind, wpg_expect.
    + intros t self3 Hk Hs. apply wpg_ret. split; [|exact Hnamed].
      eapply consumed_eq.
      * apply (consumed_trans _ _ _ _ _ Hc (consumed_token _ _ _ Hs)).
      * f_equal. destruct t; subst closer; try discriminate; reflexivity.
    + intros _. destruct closer; try discriminate; exact I.
Qed.

Lemma results_list_step fuel :
  result_spec fuel -> comma_prefixed_results_spec fuel ->
  forall closer self,
    closer = RBRACKET \/ closer = RBRACE ->
    wpg (fuel < 3 * size self + 2)
      (first <- _result fuel ;;
       others <- _comma_prefixed_results fuel closer ;;
       ret ([first] ++ others))
      (fun items self' =>
         consumed self self' (render_items items ++ [TRBRACKET]) /\
         Forall is_named items)
      not_expected_prompt self.
Proof.
  intros Hresult Hcpr closer self Hcloser.
  apply wpg_bind. eapply wpg_weaken; [apply Hresult | lia | | auto].
  intros first self1 [Hfirst Hnamed].
  pose proof (consumed_size _ _ _ Hfirst) as Hsz.
  pose proof (render_nonempty first) as Hne.
  apply wpg_bind.
  eapply wpg_weaken; [apply (Hcpr closer) | lia | | auto].
  - destruct Hcloser; subst; reflexivity.
  - intros others self2 [Hothers Hnamed']. apply wpg_ret. split.
    + eapply consumed_eq; [apply (consumed_trans _ _ _ _ _ Hfirst Hothers)|].
      simpl. rewrite <- app_assoc. do 2 f_equal.
      destruct Hcloser; subst; reflexivity.
    + now constructor.
Qed.

Lemma list_results_step fuel :
  result_spec fuel -> comma_prefixed_results_spec fuel ->
  list_results_spec (S fuel).
Proof.
  intros Hresult Hcpr self. rewrite _list_results_unfold.
  eapply wpg_weaken;
    [apply (results_list_step fuel Hresult Hcpr RBRACKET); now left
    | lia | auto | auto].
Qed.

Lemma tuple_step fuel :
  result_spec fuel -> comma_prefixed_results_spec fuel -> tuple_spec (S fuel).
Proof.
  intros Hresult Hcpr self. rewrite _tuple_unfold.
  apply wpg_bind, wpg_expect; [|intro; exact I].
  intros t self1 Hk Hs. token_kind.
  pose proof (stream_size _ _ _ Hs) as Hsz.
  apply wpg_bind, wpg_accept.
  - intros t self2 Hk Hs2. token_kind. apply wpg_ret. split; [|constructor].
    apply (consumed_trans _ _ _ _ _ (consumed_token _ _ _ Hs)
             (consumed_token _ _ _ Hs2)).
  - intros _.
    eapply wpg_weaken;
      [apply (results_list_step fuel Hresult Hcpr RBRACE); now right
      | lia | | auto].
    intros items self2 [Hc Hnamed]. split; [|exact Hnamed].
    rewrite render_PList.
    apply (consumed_trans _ _ _ _ _ (consumed_token _ _ _ Hs) Hc).
Qed.

(** Every grammar rule, at every budget: what it returns renders to what it
    consumed, its syntax errors never ask for the prompt, and the budget runs
    out only below three calls for each remaining token. *)
Lemma grammar_spec fuel :
  value_spec fuel /\ list_spec fuel /\ list_values_spec fuel /\
  list_results_spec fuel /\ tuple_spec fuel /\ result_spec fuel /\
  comma_prefixed_results_spec fuel.
Proof.
  induction fuel as [|fuel (Hv & Hl & Hlv & Hlr & Ht & Hr & Hc)].
  - repeat split; intro; intros; apply wpg_out_of_fuel; lia.
  - repeat split.
    + now apply value_step.
    + now apply list_step.
    + now apply list_values_step.
    + now apply list_results_step.
    + now apply tuple_step.
    + now apply result_step.
    + now apply comma_prefixed_results_step.
Qed.

(** ** Records and the document *)

Lemma sigil_token_text t :
  is_async_sigil (kind_of t) || is_stream_sigil (kind_of t) = true ->
  sigil_token (token_text t) = t.
Proof. destruct t; try discriminate; reflexivity. Qed.

Lemma async_output_spec fuel prefix self :
  is_async_sigil prefix = true ->
  wpg (fuel < 3 * size self + 2) (_async_output fuel prefix)
    (fun r self' => consumed self self' (render_oob r))
    not_expected_prompt self.
Proof.
  intro Hsigil. unfold _async_output.
  assert (Hrest : forall id self1,
             consumed self self1 (render_token_maybe id) ->
             wpg (fuel < 3 * size self + 2)
               (sigil <- _expect prefix ;;
                async_class <- _async_class ;;
                results <- _comma_prefixed_results fuel NL ;;
                ret (AsyncRecord id (token_text sigil) async_class results))
               (fun r self' => consumed self self' (render_oob r))
               not_expected_prompt self1).
  { intros id self1 Hid. pose proof (consumed_size _ _ _ Hid) as Hsz.
    apply wpg_bind, wpg_expect;
      [|intros _; destruct prefix; try discriminate; exact I].
    intros t self2 Hk Hs2. pose proof (stream_size _ _ _ Hs2).
    apply wpg_bind, wpg_string; [|intro; exact I].
    intros cls self3 Hs3. pose proof (stream_size _ _ _ Hs3).
    apply wpg_bind.
    destruct (grammar_spec fuel) as (_ & _ & _ & _ & _ & _ & Hcpr).
    eapply wpg_weaken; [apply (Hcpr NL); reflexivity | lia | | auto].
    intros rs self4 [Hrs _]. apply wpg_ret.
    eapply consumed_eq.
    - apply (consumed_trans _ _ _ _ _ Hid
               (consumed_trans _ _ _ _ _ (consumed_token _ _ _ Hs2)
                  (consumed_trans _ _ _ _ _ (consumed_token _ _ _ Hs3) Hrs))).
    - simpl. rewrite app_nil_r. f_equal.
      rewrite sigil_token_text by (rewrite Hk, Hsigil; reflexivity).
      subst prefix. destruct t; try discriminate; reflexivity. }
  apply wpg_bind, wpg_token_maybe.
  - intros n self1 Hs. apply Hrest. apply (consumed_token _ _ _ Hs).
  - intros _. apply Hrest. apply consumed_refl.
Qed.

Lemma stream_output_spec pedantic F prefix self :
  is_stream_sigil prefix = true ->
  wpg F (_stream_output pedantic prefix)
    (fun r self' => consumed self self' (render_oob r))
    not_expected_prompt self.
Proof.
  intro Hsigil. unfold _stream_output.
  apply wpg_bind, wpg_expect;
    [|intros _; destruct prefix; try discriminate; exact I].
  intros t self1 Hk Hs1.
  apply wpg_bind, wpg_cstring; [|intro; exact I].
  intros u self2 Hs2.
  assert (Hrec : consumed self self2
                   (render_oob (StreamRecord (token_text t) u))).
  { eapply consumed_eq.
    - apply (consumed_trans _ _ _ _ _ (consumed_token _ _ _ Hs1)
               (consumed_token _ _ _ Hs2)).
    - simpl. rewrite sigil_token_text
        by (rewrite Hk, Hsigil; apply orb_true_r).
      subst prefix. destruct t; try discriminate; reflexivity. }
  apply wpg_bind. destruct pedantic; simpl.
  - apply wpg_ret, wpg_ret. exact Hrec.
  - apply wpg_bind, wpg_accept.
    + intros t' self3 Hk' Hs3. apply wpg_ret, wpg_ret.
      eapply consumed_eq;
        [apply (consumed_trans _ _ _ _ _ Hrec (consumed_token _ _ _ Hs3))|].
      destruct t'; try discriminate. apply app_nil_r.
    + intros _. apply wpg_ret, wpg_ret. exact Hrec.
Qed.

Lemma out_of_band_record_spec pedantic fuel self :
  wpg (fuel < 3 * size self + 2) (_out_of_band_record pedantic fuel)
    (fun r self' => consumed self self' (render_oob r))
    not_expected_prompt self.
Proof.
  unfold _out_of_band_record. apply wpg_bind, wpg_lookahead_kind.
  destruct (peek self) as [[]|]; try (apply wpg_error; exact I);
    first [ now apply async_output_spec | now apply stream_output_spec ].
Qed.

Lemma result_record_spec fuel self :
  wpg (fuel < 3 * size self + 2) (_result_record fuel)
    (fun r self' => consumed self self' (render_result_record r))
    not_expected_prompt self.
Proof.
  unfold _result_record.
  assert (Hrest : forall id self1,
             consumed self self1 (render_token_maybe id) ->
             wpg (fuel < 3 * size self + 2)
               (_expect CARET ;;;
                result_class <- _result_class ;;
                has_results <- _check COMMA ;;
                results <- (if has_results : bool
                            then rs <- _comma_prefixed_results fuel NL ;;
                                 ret (Some rs)
                            else ret None) ;;
                _expect NL ;;;
                ret (id, result_class, results))
               (fun r self' => consumed self self' (render_result_record r))
               not_expected_prompt self1).
  { intros id self1 Hid. pose proof (consumed_size _ _ _ Hid) as Hsz.
    apply wpg_bind, wpg_expect; [|intro; exact I].
    intros t self2 Hk Hs2. token_kind. pose proof (stream_size _ _ _ Hs2).
    apply wpg_bind, wpg_string; [|intro; exact I].
    intros cls self3 Hs3. pose proof (stream_size _ _ _ Hs3).
    assert (Hhead : consumed self self3
                      (render_token_maybe id ++ [TCARET; TSTRING cls])).
    { apply (consumed_trans _ _ _ _ _ Hid
               (consumed_trans _ _ _ _ _ (consumed_token _ _ _ Hs2)
                  (consumed_token _ _ _ Hs3))). }
    assert (Hend : forall results self4,
               consumed self self4
                 (render_result_record (id, cls, results)) ->
               wpg (fuel < 3 * size self + 2)
                 (_expect NL ;;; ret (id, cls, results))
                 (fun r self' => consumed self self' (render_result_record r))
                 not_expected_prompt self4).
    { intros results self4 Hc.
      apply wpg_bind, wpg_expect; [|intro; exact I].
      intros t self5 Hk Hs5. token_kind. apply wpg_ret.
      eapply consumed_eq;
        [apply (consumed_trans _ _ _ _ _ Hc (consumed_token _ _ _ Hs5))|].
      apply app_nil_r. }
    apply wpg_bind, wpg_check. apply wpg_bind.
    destruct (at_kind COMMA self3).
    - apply wpg_bind.
      destruct (grammar_spec fuel) as (_ & _ & _ & _ & _ & _ & Hcpr).
      eapply wpg_weaken; [apply (Hcpr NL); reflexivity | lia | | auto].
      intros rs self4 [Hrs _]. apply wpg_ret. apply Hend.
      eapply consumed_eq; [apply (consumed_trans _ _ _ _ _ Hhead Hrs)|].
      simpl. rewrite app_nil_r, <- app_assoc. reflexivity.
    - apply wpg_ret. apply Hend.
      eapply consumed_eq; [exact Hhead|].
      simpl. reflexivity. }
  apply wpg_bind, wpg_token_maybe.
  - intros n self1 Hs. apply Hrest. apply (consumed_token _ _ _ Hs).
  - intros _. apply Hrest. apply consumed_refl.
Qed.

Lemma render_oobs_app a b : render_oobs (a ++ b) = render_oobs a ++ render_oobs b.
Proof. apply flat_map_app. Qed.

Lemma render_oob_nonempty r : 1 <= length (render_oob r).
Proof.
  destruct r as [id sigil cls rs|sigil text]; simpl; [|lia].
  rewrite length_app. simpl. lia.
Qed.

(** The loops of [_output]: out-of-band records are appended to the list
    until the condition, a test [stop] on the current token, holds. *)
Lemma wpg_oob_loop pedantic (cond : M bool) (stop : parser -> bool)
    fuel acc0 start :
  (forall self (Q : bool -> parser -> Prop),
     Q (negb (stop self)) self -> wpg False cond Q not_expected_prompt self) ->
  wpg (fuel < 3 * size start + 2)
    (while_append fuel cond (_out_of_band_record pedantic fuel) acc0)
    (fun acc self' =>
       exists l, acc = acc0 ++ l /\
                 consumed start self' (render_oobs l) /\
                 stop self' = true /\
                 (stop start = true -> l = []))
    not_expected_prompt start.
Proof.
  intro Hcond.
  eapply wpg_weaken;
    [apply (wpg_while (fuel < 3 * size start + 2) cond
              (_out_of_band_record pedantic fuel)
              (fun acc self =>
                 exists l, acc = acc0 ++ l /\
                           consumed start self (render_oobs l) /\
                           (stop start = true -> l = [] /\ self = start)))
    | | intros a s H; exact H | auto].
  - intros acc self (l & -> & Hc & Hstop). apply Hcond. split; [reflexivity|].
    destruct (stop self) eqn:Hs; simpl.
    + exists l. repeat split; auto. intro Hst. now apply Hstop.
    + pose proof (consumed_size _ _ _ Hc) as Hsz.
      eapply wpg_weaken;
        [apply out_of_band_record_spec | lia | | auto].
      intros r self' Hr. pose proof (consumed_size _ _ _ Hr).
      pose proof (render_oob_nonempty r). split; [|lia].
      exists (l ++ [r]). split; [now rewrite app_assoc|]. split.
      * rewrite render_oobs_app. eapply consumed_trans; [exact Hc|].
        simpl. now rewrite app_nil_r.
      * intro Hst. destruct (Hstop Hst) as [_ ->]. congruence.
  - exists []. split; [now rewrite app_nil_r|]. split; [apply consumed_refl|].
    auto.
  - intros [H|H]; lia.
  - auto.
Qed.

Lemma neither_caret_nor_prompt_spec self (Q : bool -> parser -> Prop) :
  Q (negb (at_kind CARET self || at_kind PROMPT self)) self ->
  wpg False neither_caret_nor_prompt Q not_expected_prompt self.
Proof.
  intro H. unfold neither_caret_nor_prompt. apply wpg_bind, wpg_check.
  destruct (at_kind CARET self); [now apply wpg_ret|].
  apply wpg_bind, wpg_check, wpg_ret. exact H.
Qed.

Lemma not_prompt_spec self (Q : bool -> parser -> Prop) :
  Q (negb (at_kind PROMPT self)) self ->
  wpg False not_prompt Q not_expected_prompt self.
Proof.
  intro H. unfold not_prompt. apply wpg_bind, wpg_check, wpg_ret. exact H.
Qed.

Lemma output_tail_spec (F : Prop) (doc : document) out start self :
  consumed start self out ->
  wpg F (_expect PROMPT ;;; _expect NL ;;; ret doc)
    (fun d self' => d = doc /\ consumed start self' (out ++ [TPROMPT]))
    (fun e => at_kind PROMPT self = true -> not_expected_prompt e) self.
Proof.
  intro Hc. apply wpg_bind, wpg_expect; [|congruence].
  intros t self1 Hk Hs1. token_kind.
  apply wpg_bind, wpg_expect; [|intros _ _; exact I].
  intros t self2 Hk Hs2. token_kind. apply wpg_ret. split; [reflexivity|].
  eapply consumed_eq.
  - apply (consumed_trans _ _ _ _ _ Hc
             (consumed_trans _ _ _ _ _ (consumed_token _ _ _ Hs1)
                (consumed_token _ _ _ Hs2))).
  - reflexivity.
Qed.

Lemma output_spec pedantic fuel self :
  wpg (fuel < 3 * size self + 2) (_output pedantic fuel)
    (output_post pedantic self)
    (fun e => pedantic = false -> not_expected_prompt e) self.
Proof.
  unfold _output. apply wpg_bind.
  eapply wpg_weaken;
    [apply (wpg_oob_loop pedantic neither_caret_nor_prompt
              (fun s => at_kind CARET s || at_kind PROMPT s) fuel [] self);
     apply neither_caret_nor_prompt_spec
    | auto | | auto].
  intros oobs1 self1 (before & -> & Hc1 & Hstop1 & _). simpl app.
  pose proof (consumed_size _ _ _ Hc1) as Hsz1.
  apply wpg_bind, wpg_check. apply wpg_bind.
  (* after the optional result record *)
  assert (Hafter : forall res self2,
             consumed self self2 (render_oobs before ++ render_result res) ->
             (res = None -> at_kind PROMPT self2 = true) ->
             wpg (fuel < 3 * size self + 2)
               (oob_records <- (if negb pedantic
                                then while_append fuel not_prompt
                                       (_out_of_band_record pedantic fuel)
                                       before
                                else ret before) ;;
                _expect PROMPT ;;; _expect NL ;;; ret (oob_records, res))
               (output_post pedantic self)
               (fun e => pedantic = false -> not_expected_prompt e) self2).
  { intros res self2 Hc2 Hnone.
    pose proof (consumed_size _ _ _ Hc2) as Hsz2.
    apply wpg_bind. destruct pedantic; simpl negb; cbv iota.
    - apply wpg_ret.
      eapply wpg_weaken; [apply (output_tail_spec (fuel < 3 * size self + 2) _ _ _ _ Hc2)
        | auto | |].
      + intros d self3 [-> Hc3]. exists before, []. simpl.
        rewrite app_nil_r. repeat split; auto.
        now rewrite <- app_assoc in Hc3.
      + intros e _ Hped. discriminate.
    - eapply wpg_weaken;
        [apply (wpg_oob_loop false not_prompt (at_kind PROMPT) fuel before
                  self2); apply not_prompt_spec
        | lia | | auto].
      intros oobs self3 (after & -> & Hc3 & Hstop3 & Hnil).
      pose proof (consumed_trans _ _ _ _ _ Hc2 Hc3) as Hc.
      eapply wpg_weaken; [apply (output_tail_spec (fuel < 3 * size self + 2) _ _ _ _ Hc)
        | auto | |].
      + intros d self4 [-> Hc4]. exists before, after. simpl.
        repeat split; auto; try discriminate.
        now rewrite <- !app_assoc in Hc4.
      + intros e He _. now apply He. }
  destruct (at_kind CARET self1) eqn:Hcaret.
  - apply wpg_bind.
    eapply wpg_weaken; [apply result_record_spec | lia | | auto].
    intros r self2 Hr. apply wpg_ret. apply (Hafter (Some r)).
    + apply (consumed_trans _ _ _ _ _ Hc1 Hr).
    + discriminate.
  - apply wpg_ret. apply (Hafter None).
    + simpl. now rewrite app_nil_r.
    + intros _. exact Hstop1.
Qed.

(** ** The scanner consumes its input *)

Lemma span_app p s m r : span p s = (m, r) -> s = (m ++ r)%string.
Proof.
  revert m r. induction s as [|c s IH]; simpl; intros m r H.
  - now inversion H.
  - destruct (p c).
    + destruct (span p s) as [m' r']. inversion H; subst. simpl.
      f_equal. now apply IH.
    + now inversion H.
Qed.

Lemma re_literal_app lit text m r :
  re_literal lit text = Some (m, r) ->
  text = (m ++ r)%string /\ String.length m = String.length lit.
Proof.
  revert text m r. induction lit as [|a lit IH]; simpl; intros text m r H.
  - inversion H; subst. now split.
  - destruct text as [|c text]; [discriminate|].
    destruct (Ascii.eqb a c); [|discriminate].
    destruct (re_literal lit text) as [[m' r']|] eqn:Hl; [|discriminate].
    inversion H; subst. destruct (IH _ _ _ Hl) as [-> Hlen].
    simpl. split; [reflexivity | now rewrite Hlen].
Qed.

Lemma re_cstring_body_app text :
  forall m r, re_cstring_body text = Some (m, r) -> text = (m ++ r)%string.
Proof.
  assert (H : forall n text, String.length text <= n ->
              forall m r, re_cstring_body text = Some (m, r) ->
                          text = (m ++ r)%string).
  { intro n. induction n as [|n IH]; intros t Hlen m r Hb.
    - destruct t; [discriminate | simpl in Hlen; lia].
    - destruct t as [|c t]; [discriminate|]. simpl in Hb, Hlen.
      destruct (Ascii.eqb c DQUOTE).
      + now inversion Hb.
      + destruct (Ascii.eqb c BACKSLASH).
        * destruct t as [|d t]; [discriminate|]. simpl in Hlen.
          destruct (Ascii.eqb d LF); [discriminate|].
          destruct (re_cstring_body t) as [[m' r']|] eqn:Hr; [|discriminate].
          inversion Hb; subst. simpl. do 2 f_equal. apply IH; [lia | exact Hr].
        * destruct (re_cstring_body t) as [[m' r']|] eqn:Hr; [|discriminate].
          inversion Hb; subst. simpl. f_equal. apply IH; [lia | exact Hr]. }
  intros m r. now apply (H (String.length text)).
Qed.

Lemma re_digits_good : good_pattern re_digits.
Proof.
  intros text m r. unfold re_digits.
  destruct (span is_digit text) as [md rd] eqn:Hd.
  destruct md as [|c md]; [discriminate|].
  intro H. inversion H; subst. split; [|discriminate].
  now apply span_app in Hd.
Qed.

Lemma re_literal_good lit : lit <> "" -> good_pattern (re_literal lit).
Proof.
  intros Hne text m r Hl. destruct (re_literal_app _ _ _ _ Hl) as [-> Hlen].
  split; [reflexivity|]. intros ->. destruct lit; [congruence|discriminate].
Qed.

Lemma re_identifier_good : good_pattern re_identifier.
Proof.
  intros text m r. unfold re_identifier.
  destruct text as [|c text]; [discriminate|].
  destruct (is_ident_start c); [|discriminate].
  destruct (span is_ident_char text) as [mi ri] eqn:Hi.
  intro H. inversion H; subst. split; [|discriminate].
  simpl. f_equal. now apply span_app in Hi.
Qed.

Lemma re_cstring_good : good_pattern re_cstring.
Proof.
  intros text m r. unfold re_cstring.
  destruct text as [|c text]; [discriminate|].
  destruct (Ascii.eqb c DQUOTE); [|discriminate].
  destruct (re_cstring_body text) as [[mb rb]|] eqn:Hb; [|discriminate].
  intro H. inversion H; subst. split; [|discriminate].
  simpl. f_equal. now apply re_cstring_body_app in Hb.
Qed.

Lemma first_match_good rules text act m r :
  Forall (fun rule => good_pattern (fst rule)) rules ->
  first_match rules text = Some (act, m, r) ->
  text = (m ++ r)%string /\ m <> "".
Proof.
  induction 1 as [|[p a] rules Hp _ IH]; simpl; [discriminate|].
  destruct (p text) as [[m0 r0]|] eqn:Hm; [|exact IH].
  intro H. inversion H; subst. now apply Hp.
Qed.

Lemma lexicon_good names :
  Forall (fun rule => good_pattern (fst rule)) (lexicon names).
Proof.
  unfold lexicon.
  repeat (constructor;
          [first [ apply re_digits_good | apply re_identifier_good
                 | apply re_cstring_good
                 | apply re_literal_good; discriminate ]|]).
  constructor.
Qed.

Lemma first_match_lexicon names text act m r :
  first_match (lexicon names) text = Some (act, m, r) ->
  text = (m ++ r)%string /\ m <> "".
Proof. apply first_match_good, lexicon_good. Qed.

Lemma string_length_app (a b : string) :
  String.length (a ++ b)%string = String.length a + String.length b.
Proof. induction a; simpl; auto. Qed.

Lemma string_app_assoc (a b c : string) :
  (a ++ (b ++ c))%string = ((a ++ b) ++ c)%string.
Proof. induction a as [|x a IH]; simpl; [reflexivity | now rewrite IH]. Qed.

(** The scanner stops only where no rule matches, whatever budget at least
    the length of the text it is given. *)
Lemma scan_remainder names fuel text tokens remainder :
  String.length text <= fuel ->
  scan names fuel text = Ok (tokens, remainder) ->
  (exists scanned, text = (scanned ++ remainder)%string) /\
  first_match (lexicon names) remainder = None.
Proof.
  revert text tokens remainder.
  induction fuel as [|fuel IH]; intros text tokens remainder Hlen Hscan.
  - destruct text; [|simpl in Hlen; lia]. inversion Hscan; subst.
    split; [now exists ""|reflexivity].
  - cbn [scan] in Hscan.
    destruct (first_match (lexicon names) text) as [[[act m] r]|] eqn:Hm.
    + destruct (first_match_lexicon _ _ _ _ _ Hm) as [-> Hne].
      destruct m as [|c m]; [congruence|].
      destruct (act (String c m)) as [tok|e]; [|discriminate]. simpl in Hscan.
      destruct (scan names fuel r) as [[toks rem]|e] eqn:Hr; [|discriminate].
      simpl in Hscan. inversion Hscan; subst.
      rewrite string_length_app in Hlen. simpl in Hlen.
      destruct (IH r toks remainder) as [[scanned ->] Hnone]; [lia|exact Hr|].
      split; [|exact Hnone].
      exists (String c m ++ scanned)%string. apply string_app_assoc.
    + inversion Hscan; subst. split; [now exists ""|exact Hm].
Qed.

(** ** Scanning a quoted string *)

Lemma scan_empty names fuel : scan names fuel "" = Ok ([], "").
Proof. destruct fuel; reflexivity. Qed.

(** More budget than the length of the text changes nothing. *)
Lemma scan_enough names fuel text :
  String.length text <= fuel ->
  scan names fuel text = scan names (String.length text) text.
Proof.
  assert (H : forall n text, String.length text <= n ->
              scan names (S n) text = scan names n text).
  { intro n. induction n as [|n IH]; intros t Hlen.
    - destruct t; [reflexivity | simpl in Hlen; lia].
    - cbn [scan].
      destruct (first_match (lexicon names) t) as [[[act m] r]|] eqn:Hm;
        [|reflexivity].
      destruct (first_match_lexicon _ _ _ _ _ Hm) as [-> Hne].
      destruct m as [|c m]; [reflexivity|].
      rewrite string_length_app in Hlen. simpl in Hlen.
      destruct (act (String c m)); [|reflexivity]. simpl.
      rewrite <- (IH r) by lia. reflexivity. }
  intro Hlen. induction Hlen as [|n Hle IH]; [reflexivity|].
  rewrite H by exact Hle. exact IH.
Qed.

(** One step of the scanner. *)
Lemma mi_scanner_scan_step names text act m r tok :
  first_match (lexicon names) text = Some (act, m, r) ->
  act m = Ok tok ->
  mi_scanner_scan names text =
  res_bind (mi_scanner_scan names r)
    (fun '(toks, remainder) => Ok (tok :: toks, remainder)).
Proof.
  intros Hm Hact. unfold mi_scanner_scan.
  destruct (first_match_lexicon _ _ _ _ _ Hm) as [-> Hne].
  destruct m as [|c m]; [congruence|].
  rewrite string_length_app. cbn [String.length Nat.add scan].
  rewrite Hm, Hact. simpl res_bind at 1.
  rewrite (scan_enough names (String.length m + String.length r) r) by lia.
  reflexivity.
Qed.

Lemma re_cstring_body_plain a s :
  plain a = true ->
  re_cstring_body (a ++ s)%string =
  match re_cstring_body s with
  | Some (m, r) => Some ((a ++ m)%string, r)
  | None => None
  end.
Proof.
  induction a as [|c a IH]; intro Hp.
  - simpl. destruct (re_cstring_body s) as [[m r]|]; reflexivity.
  - simpl in Hp. apply andb_true_iff in Hp. destruct Hp as [Hc Ha].
    unfold plain_char in Hc. rewrite !andb_true_iff, !negb_true_iff in Hc.
    destruct Hc as [[Hq Hb] _].
    cbn [append re_cstring_body]. rewrite Hq, Hb, (IH Ha).
    destruct (re_cstring_body s) as [[m r]|]; reflexivity.
Qed.

Lemma substring_prefix x y :
  substring 0 (String.length x) (x ++ y)%string = x.
Proof.
  induction x as [|c x IH]; simpl.
  - destruct y; reflexivity.
  - now rewrite IH.
Qed.

Lemma strip_ends_quoted c x :
  strip_ends (String c (x ++ dq)%string) = x.
Proof.
  unfold strip_ends. rewrite string_length_app. simpl.
  replace (String.length x + 1 - 1) with (String.length x) by lia.
  apply substring_prefix.
Qed.


Lemma decode_plain names a s :
  plain a = true ->
  unicode_escape_decode names (utf8_encode (a ++ s)%string) =
  option_map (app (codepoints a))
    (unicode_escape_decode names (utf8_encode s)).
Proof.
  induction a as [|c a IH]; intro Hp.
  - simpl. destruct (unicode_escape_decode names (utf8_encode s)); reflexivity.
  - simpl in Hp. apply andb_true_iff in Hp. destruct Hp as [Hc Ha].
    unfold plain_char in Hc. rewrite !andb_true_iff, !negb_true_iff in Hc.
    destruct Hc as [[_ Hb] Hlt].
    cbn [append utf8_encode]. unfold utf8_encode_char. rewrite Hlt.
    cbn [append unicode_escape_decode]. rewrite Hb. cbn [negb].
    rewrite (IH Ha). unfold emit.
    destruct (unicode_escape_decode names (utf8_encode s)); reflexivity.
Qed.

Lemma decode_newline_escape names s :
  unicode_escape_decode names (utf8_encode (bs ++ "n" ++ s)%string) =
  option_map (cons 10%N) (unicode_escape_decode names (utf8_encode s)).
Proof. reflexivity. Qed.

Lemma codepoints_plain_decode names b :
  plain b = true ->
  unicode_escape_decode names (utf8_encode b) = Some (codepoints b).
Proof.
  intro Hp. rewrite <- (app_nil_r (codepoints b)).
  replace b with (b ++ "")%string at 1
    by (clear; induction b; simpl; congruence).
  rewrite (decode_plain names b "" Hp). reflexivity.
Qed.

Lemma first_match_quoted names body m r :
  re_cstring_body body = Some (m, r) ->
  first_match (lexicon names) (String DQUOTE body) =
  Some (cstring_token names, String DQUOTE m, r).
Proof.
  intro H. unfold lexicon. cbn -[cstring_token re_cstring_body].
  now rewrite H.
Qed.

Lemma quoted_body a b rest :
  plain a = true -> plain b = true ->
  re_cstring_body ((a ++ bs ++ "n" ++ b) ++ dq ++ rest)%string =
  Some (((a ++ bs ++ "n" ++ b) ++ dq)%string, rest).
Proof.
  intros Ha Hb. rewrite <- !string_app_assoc.
  rewrite (re_cstring_body_plain a _ Ha).
  cbn [append bs re_cstring_body].
  change (Ascii.eqb BACKSLASH DQUOTE) with false.
  change (Ascii.eqb BACKSLASH BACKSLASH) with true.
  change (Ascii.eqb "n" LF) with false. cbv iota.
  rewrite (re_cstring_body_plain b _ Hb). 
  cbn [append dq re_cstring_body].
  change (Ascii.eqb DQUOTE DQUOTE) with true. cbv iota.
  reflexivity.
Qed.

Lemma cstring_token_newline names a b :
  plain a = true -> plain b = true ->
  cstring_token names (String DQUOTE ((a ++ bs ++ "n" ++ b) ++ dq)%string) =
  Ok (TCSTRING (codepoints a ++ 10%N :: codepoints b)).
Proof.
  intros Ha Hb. unfold cstring_token.
  rewrite strip_ends_quoted. unfold decode_string.
  rewrite (decode_plain names a _ Ha), decode_newline_escape,
    (codepoints_plain_decode names b Hb).
  reflexivity.
Qed.

(** ** Outcomes of [MIParser_parse] *)

Lemma budget_suffices t rest :
  ~ budget (t :: rest) < 3 * size (Parser (Some t) rest) + 2.
Proof. unfold budget, size, stream. simpl. lia. Qed.

(** A returned document renders to the tokens consumed, the records after the
    result record listed after those before it; a syntax error in lenient mode
    never asks for the prompt; [StopIteration] is raised on no token at all;
    nothing else is raised and the budget never runs out. *)
Lemma MIParser_parse_outcome tokens pedantic :
  match MIParser_parse tokens pedantic with
  | Ok doc =>
      exists before after c rest,
        fst doc = before ++ after /\
        (pedantic = true -> after = []) /\
        (snd doc = None -> after = []) /\
        tokens = c ++ rest /\
        canon_all c =
          render_oobs before ++ render_result (snd doc) ++
          render_oobs after ++ [TPROMPT]
  | Raise (SyntaxError e) =>
      tokens <> [] /\ (pedantic = false -> not_expected_prompt e)
  | Raise StopIteration => tokens = []
  | Raise _ => False
  end.
Proof.
  destruct tokens as [|t rest]; [reflexivity|].
  unfold MIParser_parse.
  pose proof (output_spec pedantic (budget (t :: rest)) (Parser (Some t) rest))
    as H.
  pose proof (budget_suffices t rest) as Hb.
  unfold wpg in H.
  destruct (_output pedantic (budget (t :: rest)) (Parser (Some t) rest))
    as [[doc self']|[]]; try contradiction.
  - destruct H as (before & after & Hdoc & Hped & Hnone & (c & Hs & Hc)).
    exists before, after, c, (stream self'). auto.
  - split; [discriminate | exact H].
Qed.

(** *** Carets and prompts among the rendered tokens *)

Lemma count_kind_app k a b :
  count_kind k (a ++ b) = count_kind k a + count_kind k b.
Proof. unfold count_kind. now rewrite filter_app, length_app. Qed.

Lemma count_kind_canon k ts :
  k = CARET \/ k = PROMPT -> count_kind k (canon_all ts) = count_kind k ts.
Proof.
  intro Hk. induction ts as [|t ts IH]; [reflexivity|].
  change (canon_all (t :: ts)) with (canon t ++ canon_all ts).
  change (t :: ts) with ([t] ++ ts).
  rewrite !count_kind_app, IH. f_equal.
  destruct Hk as [-> | ->]; destruct t; reflexivity.
Qed.

Lemma count_kind_comma_prefixed k rs :
  k = CARET \/ k = PROMPT ->
  Forall (fun v => count_kind k (render v) = 0) rs ->
  count_kind k (comma_prefixed rs) = 0.
Proof.
  intros Hk H. induction H as [|r rs Hr _ IH]; [reflexivity|].
  change (comma_prefixed (r :: rs))
    with ([TCOMMA] ++ render r ++ comma_prefixed rs).
  rewrite !count_kind_app, Hr, IH.
  destruct Hk as [-> | ->]; reflexivity.
Qed.

Lemma count_kind_render k v :
  k = CARET \/ k = PROMPT -> count_kind k (render v) = 0.
Proof.
  intro Hk. induction v as [u|items IH|name v IH] using pyobj_induction.
  - destruct Hk as [-> | ->]; reflexivity.
  - rewrite render_PList.
    change (TLBRACKET :: render_items items ++ [TRBRACKET])
      with ([TLBRACKET] ++ render_items items ++ [TRBRACKET]).
    rewrite !count_kind_app.
    assert (count_kind k (render_items items) = 0) as ->.
    { destruct IH as [|x rest Hx Hrest]; [reflexivity|].
      unfold render_items. rewrite count_kind_app, Hx.
      now rewrite count_kind_comma_prefixed. }
    destruct Hk as [-> | ->]; reflexivity.
  - change (render (PDict name v))
      with ([TSTRING name; TEQUALS] ++ render v).
    rewrite count_kind_app, IH. destruct Hk as [-> | ->]; reflexivity.
Qed.

Lemma count_kind_results k rs :
  k = CARET \/ k = PROMPT -> count_kind k (comma_prefixed rs) = 0.
Proof.
  intro Hk. apply count_kind_comma_prefixed; [exact Hk|].
  apply Forall_forall. intros v _. now apply count_kind_render.
Qed.

Lemma count_kind_sigil k sigil :
  k = CARET \/ k = PROMPT -> count_kind k [sigil_token sigil] = 0.
Proof.
  intro Hk. unfold sigil_token.
  repeat match goal with
         | |- context [String.eqb ?a ?b] => destruct (String.eqb a b)
         end;
    destruct Hk as [-> | ->]; reflexivity.
Qed.

Lemma count_kind_token_maybe k id :
  k = CARET \/ k = PROMPT -> count_kind k (render_token_maybe id) = 0.
Proof. intros [-> | ->]; destruct id; reflexivity. Qed.

Lemma count_kind_oob k r :
  k = CARET \/ k = PROMPT -> count_kind k (render_oob r) = 0.
Proof.
  intro Hk. destruct r as [id sigil cls rs|sigil text].
  - change (render_oob (AsyncRecord id sigil cls rs))
      with (render_token_maybe id ++ [sigil_token sigil] ++
            [TSTRING cls] ++ comma_prefixed rs).
    rewrite !count_kind_app, count_kind_token_maybe, count_kind_sigil,
      count_kind_results by exact Hk.
    destruct Hk as [-> | ->]; reflexivity.
  - change (render_oob (StreamRecord sigil text))
      with ([sigil_token sigil] ++ [TCSTRING text]).
    rewrite count_kind_app, count_kind_sigil by exact Hk.
    destruct Hk as [-> | ->]; reflexivity.
Qed.

Lemma count_kind_oobs k rs :
  k = CARET \/ k = PROMPT -> count_kind k (render_oobs rs) = 0.
Proof.
  intro Hk. induction rs as [|r rs IH]; [reflexivity|].
  change (render_oobs (r :: rs)) with (render_oob r ++ render_oobs rs).
  now rewrite count_kind_app, count_kind_oob, IH.
Qed.

Lemma count_caret_result res : count_kind CARET (render_result res) <= 1.
Proof.
  destruct res as [[[id cls] rs]|]; [|unfold count_kind; simpl; lia].
  change (render_result (Some (id, cls, rs)))
    with (render_token_maybe id ++ [TCARET; TSTRING cls] ++
          match rs with Some rs' => comma_prefixed rs' | None => [] end).
  rewrite !count_kind_app, count_kind_token_maybe by now left.
  destruct rs as [rs|]; [rewrite count_kind_results by now left|];
    unfold count_kind; simpl; lia.
Qed.

Lemma count_prompt_result res : count_kind PROMPT (render_result res) = 0.
Proof.
  destruct res as [[[id cls] rs]|]; [|reflexivity].
  change (render_result (Some (id, cls, rs)))
    with (render_token_maybe id ++ [TCARET; TSTRING cls] ++
          match rs with Some rs' => comma_prefixed rs' | None => [] end).
  rewrite !count_kind_app, count_kind_token_maybe by now right.
  destruct rs as [rs|]; [rewrite count_kind_results by now right|];
    reflexivity.
Qed.

(** The tokens a returned document was read from hold one prompt and at most
    one caret. *)
Lemma returned_document_tokens before res after c :
  canon_all c =
    render_oobs before ++ render_result res ++ render_oobs after ++ [TPROMPT] ->
  count_kind PROMPT c = 1 /\ count_kind CARET c <= 1.
Proof.
  intro H.
  rewrite <- (count_kind_canon PROMPT c), <- (count_kind_canon CARET c), H
    by auto.
  rewrite !count_kind_app, !count_kind_oobs, count_prompt_result by auto.
  pose proof (count_caret_result res). unfold count_kind at 1 3.
  simpl. split; lia.
Qed.

(** ** What the scanner can raise *)

Lemma first_match_action rules text act m r :
  Forall (fun rule => action_raises_decode_error (snd rule)) rules ->
  first_match rules text = Some (act, m, r) ->
  action_raises_decode_error act.
Proof.
  induction 1 as [|[p a] rules Ha _ IH]; simpl; [discriminate|].
  destruct (p text) as [[m0 r0]|]; [|exact IH].
  intro H. inversion H; subst. exact Ha.
Qed.

Lemma lexicon_actions names :
  Forall (fun rule => action_raises_decode_error (snd rule)) (lexicon names).
Proof.
  unfold lexicon.
  repeat (constructor; [intros t e; simpl; try discriminate|]).
  - unfold cstring_token, decode_string.
    destruct (unicode_escape_decode names (utf8_encode (strip_ends t)));
      simpl; [discriminate|congruence].
  - constructor.
Qed.

Lemma scan_raises names fuel text e :
  scan names fuel text = Raise e -> e = UnicodeDecodeError.
Proof.
  revert text. induction fuel as [|fuel IH]; intros text; [discriminate|].
  cbn [scan].
  destruct (first_match (lexicon names) text) as [[[act m] r]|] eqn:Hm;
    [|discriminate].
  destruct m as [|c m]; [discriminate|].
  pose proof (first_match_action _ _ _ _ _ (lexicon_actions names) Hm) as Hact.
  destruct (act (String c m)) as [tok|e'] eqn:Ha; simpl.
  - destruct (scan names fuel r) as [[toks rem]|e'] eqn:Hr; simpl;
      [discriminate|].
    intro H. inversion H; subst. now apply (IH r).
  - intro H. inversion H; subst. now apply (Hact _ _ Ha).
Qed.

Lemma scan_no_tokens names fuel text remainder :
  scan names fuel text = Ok ([], remainder) -> remainder = text.
Proof.
  destruct fuel as [|fuel]; cbn [scan]; [congruence|].
  destruct (first_match (lexicon names) text) as [[[act m] r]|];
    [|congruence].
  destruct m as [|c m]; [congruence|].
  destruct (act (String c m)) as [tok|e]; [|discriminate]. simpl.
  destruct (scan names fuel r) as [[toks rem]|e]; discriminate.
Qed.

(** What [parse] can raise, and that it never runs out of budget. *)
Lemma parse_raises names text pedantic e :
  parse names text pedantic = Raise e ->
  e = AssertionError \/ (exists what, e = SyntaxError what) \/
  (e = StopIteration /\ text = "") \/ e = UnicodeDecodeError.
Proof.
  unfold parse, mi_scanner_scan.
  destruct (scan names (String.length text) text) as [[tokens rem]|e'] eqn:Hs.
  - destruct rem as [|c rem]; [|intro H; inversion H; auto].
    pose proof (MIParser_parse_outcome tokens pedantic) as Ho.
    intro H. rewrite H in Ho. destruct e; try contradiction; eauto.
    subst tokens. apply scan_no_tokens in Hs. auto.
  - intro H. inversion H; subst. apply scan_raises in Hs. auto.
Qed.

(** ** The parser on a text cut before its prompt line *)

Lemma stream_advanced self t :
  _token self = Some t -> stream self = t :: stream (advanced self).
Proof.
  intro H. unfold stream, advanced. rewrite H.
  destruct (_tokens self); reflexivity.
Qed.

Lemma expect_forward expected self t :
  _token self = Some t -> kind_of t = expected ->
  _expect expected self = Ok (t, advanced self).
Proof.
  intros Ht Hk. destruct self as [tok toks]. simpl in Ht. subst tok expected.
  unfold _expect, _accept, _check, _lookahead_kind, _lookahead,
    bind, ret, _advance. simpl. rewrite kind_eqb_refl. reflexivity.
Qed.

Lemma accept_forward expected self t :
  _token self = Some t -> kind_of t = expected ->
  _accept expected self = Ok (Some t, advanced self).
Proof.
  intros Ht Hk. destruct self as [tok toks]. simpl in Ht. subst tok expected.
  unfold _accept, _check, _lookahead_kind, _lookahead, bind, ret, _advance.
  simpl. rewrite kind_eqb_refl. reflexivity.
Qed.

Lemma accept_refused expected self :
  at_kind expected self = false -> _accept expected self = Ok (None, self).
Proof.
  intro H. unfold _accept, _check, _lookahead_kind, _lookahead, bind, ret.
  unfold at_kind, peek in H. simpl. now rewrite H.
Qed.

Lemma stream_token self t s : stream self = t :: s -> _token self = Some t.
Proof.
  unfold stream. destruct (_token self); [|discriminate]. congruence.
Qed.

Lemma stream_empty self : stream self = [] -> _token self = None.
Proof. unfold stream. destruct (_token self); [discriminate|reflexivity]. Qed.

Lemma count_kind_cons k t ts :
  count_kind k (t :: ts) =
  (if kind_eqb (kind_of t) k then 1 else 0) + count_kind k ts.
Proof. unfold count_kind. simpl. destruct (kind_eqb (kind_of t) k); reflexivity. Qed.

(** On the two parsers the current token is the same, unless [cut] is at its
    end, where [self] is at the prompt. *)
Lemma cut_peek rest self cut :
  cut_before_prompt rest self cut ->
  (stream cut = [] /\ peek self = Some PROMPT /\ peek cut = None /\
   stream self = TPROMPT :: rest) \/
  (exists t, _token self = Some t /\ _token cut = Some t /\
             kind_of t <> PROMPT /\
             cut_before_prompt rest (advanced self) (advanced cut) /\
             size cut = S (size (advanced cut))).
Proof.
  intros [Hs Hc]. destruct (stream cut) as [|t s] eqn:Hcut.
  - left. simpl in Hs. repeat split; auto.
    + unfold peek. now rewrite (stream_token _ _ _ Hs).
    + unfold peek. now rewrite (stream_empty _ Hcut).
  - right. exists t. simpl in Hs.
    pose proof (stream_token _ _ _ Hs) as Ht1.
    pose proof (stream_token _ _ _ Hcut) as Ht2.
    rewrite count_kind_cons in Hc.
    destruct (kind_eqb (kind_of t) PROMPT) eqn:Hk; [simpl in Hc; lia|].
    repeat split; auto.
    + intro H. apply kind_eqb_eq in H. congruence.
    + rewrite (stream_advanced _ _ Ht1) in Hs.
      rewrite (stream_advanced _ _ Ht2) in Hcut. congruence.
    + rewrite (stream_advanced _ _ Ht2) in Hcut.
      inversion Hcut; subst. simpl in Hc. exact Hc.
    + unfold size. rewrite (stream_advanced _ _ Ht2). reflexivity.
Qed.

Section Mirror.

Variable rest : list token.

Lemma mirrored_ret {A} (a : A) self cut :
  cut_before_prompt rest self cut -> mirrored rest 0 (ret a) (ret a) self cut.
Proof.
  intros H a' self' Hr. inversion Hr; subst. exists cut.
  split; [reflexivity|]. split; [exact H|lia].
Qed.

Lemma mirrored_weaken {A} d d' (m1 m2 : M A) self cut :
  mirrored rest d m1 m2 self cut -> d' <= d -> mirrored rest d' m1 m2 self cut.
Proof.
  intros H Hd a self' Hr. destruct (H a self' Hr) as (cut' & H2 & Hc & Hs).
  exists cut'. split; [exact H2|]. split; [exact Hc|lia].
Qed.

Lemma mirrored_bind {A B} d1 d2 (m1 m2 : M A) (k1 k2 : A -> M B) self cut :
  mirrored rest d1 m1 m2 self cut ->
  (forall a self' cut',
     m1 self = Ok (a, self') -> cut_before_prompt rest self' cut' ->
     size cut' + d1 <= size cut ->
     mirrored rest d2 (k1 a) (k2 a) self' cut') ->
  mirrored rest (d1 + d2) (bind m1 k1) (bind m2 k2) self cut.
Proof.
  intros Hm Hk b self'' Hr. unfold bind in Hr.
  destruct (m1 self) as [[a self']|e] eqn:H1; [|discriminate].
  destruct (Hm a self' H1) as (cut' & H2 & Hc & Hs).
  destruct (Hk a self' cut' eq_refl Hc Hs b self'' Hr)
    as (cut'' & H3 & Hc' & Hs').
  exists cut''. unfold bind. rewrite H2.
  split; [exact H3|]. split; [exact Hc'|lia].
Qed.

Lemma mirrored_check expected self cut :
  expected <> PROMPT ->
  cut_before_prompt rest self cut ->
  mirrored rest 0 (_check expected) (_check expected) self cut.
Proof.
  intros Hne Hc b self' Hr. 
  assert (Hb : at_kind expected self = at_kind expected cut).
  { destruct (cut_peek _ _ _ Hc) as [(_ & H1 & H2 & _)|(t & H1 & H2 & _)].
    - unfold at_kind. rewrite H1, H2.
      destruct (kind_eqb PROMPT expected) eqn:Hk; [|reflexivity].
      apply kind_eqb_eq in Hk. congruence.
    - unfold at_kind, peek. now rewrite H1, H2. }
  change (Ok (at_kind expected self, self) = Ok (b, self')) in Hr.
  inversion Hr; subst. exists cut.
  split; [|split; [exact Hc|lia]].
  change (_check expected cut)
    with (@Ok (bool * parser) (at_kind expected cut, cut)).
  now rewrite Hb.
Qed.

Lemma mirrored_expect expected self cut :
  expected <> PROMPT ->
  cut_before_prompt rest self cut ->
  mirrored rest 1 (_expect expected) (_expect expected) self cut.
Proof.
  intros Hne Hc t self' Hr.
  destruct (cut_peek _ _ _ Hc) as [(_ & H1 & _)|(t' & H1 & H2 & Hk & Hc' & Hs)].
  - exfalso.
    pose proof (wpg_expect False (fun _ => True)
                  (fun _ _ => at_kind expected self = true) expected self) as H.
    unfold wpg in H. rewrite Hr in H.
    assert (Hat : at_kind expected self = true).
    { apply H; [|auto]. intros t0 s0 Hk0 Hs0.
      unfold at_kind, peek. rewrite (stream_token _ _ _ Hs0). simpl.
      now rewrite Hk0, kind_eqb_refl. }
    apply at_kind_peek in Hat. congruence.
  - destruct (kind_eq_dec (kind_of t') expected) as [Heq|Hneq].
    + rewrite (expect_forward _ _ _ H1 Heq) in Hr. inversion Hr; subst.
      exists (advanced cut). rewrite (expect_forward _ _ _ H2 eq_refl).
      split; [reflexivity|]. split; [exact Hc'|lia].
    + exfalso. unfold _expect, _accept, _check, _lookahead_kind, _lookahead,
        bind, ret in Hr. rewrite H1 in Hr. simpl in Hr.
      destruct (kind_eqb (kind_of t') expected) eqn:Hk'.
      * apply kind_eqb_eq in Hk'. congruence.
      * rewrite H1 in Hr. discriminate.
Qed.

Lemma mirrored_accept expected self cut :
  expected <> PROMPT ->
  cut_before_prompt rest self cut ->
  mirrored rest 0 (_accept expected) (_accept expected) self cut.
Proof.
  intros Hne Hc o self' Hr.
  destruct (at_kind expected self) eqn:Hat.
  - destruct (at_kind_true _ _ Hat) as (t & Ht & Hk).
    destruct (cut_peek _ _ _ Hc) as [(_ & H1 & _)|(t' & H1 & H2 & Hk' & Hc' & Hs)].
    + unfold peek in H1. rewrite Ht in H1. simpl in H1. congruence.
    + assert (t' = t) by congruence. subst t'.
      rewrite (accept_forward _ _ _ Ht Hk) in Hr. inversion Hr; subst.
      exists (advanced cut). rewrite (accept_forward _ _ _ H2 eq_refl).
      split; [reflexivity|]. split; [exact Hc'|lia].
  - assert (Hb : at_kind expected cut = false).
    { destruct (mirrored_check expected _ _ Hne Hc (at_kind expected self) self
                  eq_refl) as (c' & H & _).
      change (_check expected cut)
        with (@Ok (bool * parser) (at_kind expected cut, cut)) in H.
      inversion H. congruence. }
    rewrite (accept_refused _ _ Hat) in Hr. inversion Hr; subst.
    exists cut. rewrite (accept_refused _ _ Hb).
    split; [reflexivity|]. split; [exact Hc|lia].
Qed.

Lemma mirrored_string self cut :
  cut_before_prompt rest self cut -> mirrored rest 1 _string _string self cut.
Proof.
  intro Hc. unfold _string. apply (mirrored_bind 1 0).
  - apply mirrored_expect; [discriminate|exact Hc].
  - intros. now apply mirrored_ret.
Qed.

Lemma mirrored_cstring self cut :
  cut_before_prompt rest self cut -> mirrored rest 1 _cstring _cstring self cut.
Proof.
  intro Hc. unfold _cstring. apply (mirrored_bind 1 0).
  - apply mirrored_expect; [discriminate|exact Hc].
  - intros. now apply mirrored_ret.
Qed.

Lemma mirrored_token_maybe self cut :
  cut_before_prompt rest self cut ->
  mirrored rest 0 _token_maybe _token_maybe self cut.
Proof.
  intro Hc. unfold _token_maybe. apply (mirrored_bind 0 0).
  - apply mirrored_accept; [discriminate|exact Hc].
  - intros. now apply mirrored_ret.
Qed.

(** A dispatch on the current token, which refuses the prompt. *)
Lemma mirrored_dispatch {A} d (k1 k2 : option kind -> M A) self cut :
  cut_before_prompt rest self cut ->
  (forall a self', k1 (Some PROMPT) self <> Ok (a, self')) ->
  (forall marker,
     marker <> Some PROMPT -> peek self = marker -> peek cut = marker ->
     mirrored rest d (k1 marker) (k2 marker) self cut) ->
  mirrored rest d (bind _lookahead_kind k1) (bind _lookahead_kind k2) self cut.
Proof.
  intros Hc Hprompt Hk a self' Hr.
  change (k1 (peek self) self = Ok (a, self')) in Hr.
  change (bind _lookahead_kind k2 cut) with (k2 (peek cut) cut).
  destruct (cut_peek _ _ _ Hc) as [(_ & H1 & _)|(t & H1 & H2 & Hne & _)].
  - rewrite H1 in Hr. now apply Hprompt in Hr.
  - assert (Hp1 : peek self = Some (kind_of t)) by (unfold peek; now rewrite H1).
    assert (Hp2 : peek cut = Some (kind_of t)) by (unfold peek; now rewrite H2).
    rewrite Hp1 in Hr. rewrite Hp2.
    apply (Hk (Some (kind_of t))); auto. congruence.
Qed.

(** The loop rule: the condition is a test of the current token that agrees
    on the two parsers, and the body consumes a token. *)
Lemma mirrored_while {A} (cond : M bool) (body1 body2 : M A) start :
  (forall self cut,
     cut_before_prompt rest self cut -> mirrored rest 0 cond cond self cut) ->
  (forall self cut,
     cut_before_prompt rest self cut -> size cut <= size start ->
     mirrored rest 1 body1 body2 self cut) ->
  forall n m acc self cut,
    cut_before_prompt rest self cut ->
    size cut <= size start ->
    size cut < m ->
    mirrored rest 0 (while_append n cond body1 acc)
      (while_append m cond body2 acc) self cut.
Proof.
  intros Hcond Hbody n.
  induction n as [|n IH]; intros m acc self cut Hc Hstart Hm; [discriminate|].
  destruct m as [|m]; [lia|]. cbn [while_append].
  apply (mirrored_bind 0 0); [now apply Hcond|].
  intros b self1 cut1 _ Hc1 Hs1. destruct b; [|now apply mirrored_ret].
  apply (mirrored_weaken (1 + 0)); [|lia].
  apply mirrored_bind; [apply Hbody; [exact Hc1|lia]|].
  intros x self2 cut2 _ Hc2 Hs2. apply IH; [exact Hc2|lia|lia].
Qed.

End Mirror.

Ltac mirror_seq d1 d2 :=
  apply (mirrored_weaken _ (d1 + d2)); [apply mirrored_bind|lia].

Lemma value_mirror_step n :
  list_mirror n -> tuple_mirror n -> value_mirror (S n).
Proof.
  intros Hlist Htuple rest m self cut Hc Hm.
  destruct m as [|m]; [lia|]. rewrite !_value_unfold.
  apply mirrored_dispatch; [exact Hc|discriminate|].
  intros marker _ _ _.
  destruct marker as [[]|]; try (intros a s Hr; discriminate Hr).
  - mirror_seq 1 0; [apply Hlist; [exact Hc|lia]|].
    intros. now apply mirrored_ret.
  - mirror_seq 1 0; [apply Htuple; [exact Hc|lia]|].
    intros. now apply mirrored_ret.
  - mirror_seq 1 0; [now apply mirrored_cstring|].
    intros. now apply mirrored_ret.
Qed.

Lemma list_mirror_step n :
  list_values_mirror n -> list_results_mirror n -> list_mirror (S n).
Proof.
  intros Hvalues Hresults rest m self cut Hc Hm.
  destruct m as [|m]; [lia|]. rewrite !_list_unfold.
  mirror_seq 1 0; [apply mirrored_expect; [discriminate|exact Hc]|].
  intros t self1 cut1 _ Hc1 Hs1.
  mirror_seq 0 0; [apply mirrored_accept; [discriminate|exact Hc1]|].
  intros closed self2 cut2 _ Hc2 Hs2.
  destruct closed; [now apply mirrored_ret|].
  mirror_seq 0 0; [apply mirrored_check; [discriminate|exact Hc2]|].
  intros named self3 cut3 _ Hc3 Hs3.
  apply (mirrored_weaken _ 1); [|lia].
  destruct named; [apply Hresults|apply Hvalues]; auto; lia.
Qed.

Lemma comma_loop_mirror rest (body1 body2 : M pyobj) n m acc self cut :
  (forall self' cut',
     cut_before_prompt rest self' cut' -> size cut' < size cut ->
     mirrored rest 1 body1 body2 self' cut') ->
  cut_before_prompt rest self cut ->
  size cut < m ->
  mirrored rest 0
    (while_append n (_check COMMA) (_expect COMMA ;;; body1) acc)
    (while_append m (_check COMMA) (_expect COMMA ;;; body2) acc) self cut.
Proof.
  intros Hbody Hc Hm.
  apply (mirrored_while rest (_check COMMA) _ _ cut); auto.
  - intros. apply mirrored_check; [discriminate|assumption].
  - intros self1 cut1 Hc1 Hs1.
    mirror_seq 1 0; [apply mirrored_expect; [discriminate|exact Hc1]|].
    intros t self2 cut2 _ Hc2 Hs2.
    apply (mirrored_weaken _ 1); [|lia]. apply Hbody; [exact Hc2|lia].
Qed.

Lemma list_values_mirror_step n : value_mirror n -> list_values_mirror (S n).
Proof.
  intros Hvalue rest m self cut Hc Hm.
  destruct m as [|m]; [lia|]. rewrite !_list_values_unfold.
  mirror_seq 1 0; [apply Hvalue; [exact Hc|lia]|].
  intros first self1 cut1 _ Hc1 Hs1.
  mirror_seq 0 0.
  - apply comma_loop_mirror; [|exact Hc1|lia].
    intros self2 cut2 Hc2 Hs2. apply Hvalue; [exact Hc2|lia].
  - intros values self2 cut2 _ Hc2 Hs2.
    mirror_seq 0 0; [|intros; now apply mirrored_ret].
    apply (mirrored_weaken _ 1); [|lia].
    apply mirrored_expect; [discriminate|exact Hc2].
Qed.

Lemma result_mirror_step n : value_mirror n -> result_mirror (S n).
Proof.
  intros Hvalue rest m self cut Hc Hm.
  destruct m as [|m]; [lia|]. rewrite !_result_unfold.
  mirror_seq 1 0; [now apply mirrored_string|].
  intros name self1 cut1 _ Hc1 Hs1.
  mirror_seq 0 0;
    [apply (mirrored_weaken _ 1); [|lia];
     apply mirrored_expect; [discriminate|exact Hc1]|].
  intros t self2 cut2 _ Hc2 Hs2.
  mirror_seq 0 0; [|intros; now apply mirrored_ret].
  apply (mirrored_weaken _ 1); [|lia]. apply Hvalue; [exact Hc2|lia].
Qed.

Lemma comma_prefixed_results_mirror_step n :
  result_mirror n -> comma_prefixed_results_mirror (S n).
Proof.
  intros Hresult rest m closer self cut Hcloser Hc Hm.
  destruct m as [|m]; [lia|]. rewrite !_comma_prefixed_results_unfold.
  mirror_seq 0 1.
  - apply comma_loop_mirror; [|exact Hc|lia].
    intros self2 cut2 Hc2 Hs2. apply Hresult; [exact Hc2|lia].
  - intros rs self1 cut1 _ Hc1 Hs1.
    mirror_seq 1 0; [|intros; now apply mirrored_ret].
    apply mirrored_expect; [exact Hcloser|exact Hc1].
Qed.

Lemma results_list_mirror n rest m closer self cut :
  result_mirror n -> comma_prefixed_results_mirror n ->
  closer <> PROMPT ->
  cut_before_prompt rest self cut -> 3 * size cut + 2 <= m ->
  mirrored rest 1
    (first <- _result n ;;
     others <- _comma_prefixed_results n closer ;;
     ret ([first] ++ others))
    (first <- _result m ;;
     others <- _comma_prefixed_results m closer ;;
     ret ([first] ++ others)) self cut.
Proof.
  intros Hresult Hcpr Hcloser Hc Hm.
  mirror_seq 1 0; [apply Hresult; [exact Hc|lia]|].
  intros first self1 cut1 _ Hc1 Hs1.
  mirror_seq 0 0; [|intros; now apply mirrored_ret].
  apply (mirrored_weaken _ 1); [|lia].
  apply Hcpr; [exact Hcloser|exact Hc1|lia].
Qed.

Lemma list_results_mirror_step n :
  result_mirror n -> comma_prefixed_results_mirror n ->
  list_results_mirror (S n).
Proof.
  intros Hresult Hcpr rest m self cut Hc Hm.
  destruct m as [|m]; [lia|]. rewrite !_list_results_unfold.
  apply results_list_mirror; auto; [discriminate|lia].
Qed.

Lemma tuple_mirror_step n :
  result_mirror n -> comma_prefixed_results_mirror n -> tuple_mirror (S n).
Proof.
  intros Hresult Hcpr rest m self cut Hc Hm.
  destruct m as [|m]; [lia|]. rewrite !_tuple_unfold.
  mirror_seq 1 0; [apply mirrored_expect; [discriminate|exact Hc]|].
  intros t self1 cut1 _ Hc1 Hs1.
  mirror_seq 0 0; [apply mirrored_accept; [discriminate|exact Hc1]|].
  intros closed self2 cut2 _ Hc2 Hs2.
  destruct closed; [now apply mirrored_ret|].
  apply (mirrored_weaken _ 1); [|lia].
  apply results_list_mirror; auto; [discriminate|lia].
Qed.

(** Every grammar rule returns on the cut tokens what it returns on the
    whole, if it returns before the prompt. *)
Lemma grammar_mirror n :
  value_mirror n /\ list_mirror n /\ list_values_mirror n /\
  list_results_mirror n /\ tuple_mirror n /\ result_mirror n /\
  comma_prefixed_results_mirror n.
Proof.
  induction n as [|n (Hv & Hl & Hlv & Hlr & Ht & Hr & Hc)].
  - repeat split; repeat intro;
      match goal with H : _ = Ok _ |- _ => discriminate H end.
  - repeat split.
    + now apply value_mirror_step.
    + now apply list_mirror_step.
    + now apply list_values_mirror_step.
    + now apply list_results_mirror_step.
    + now apply tuple_mirror_step.
    + now apply result_mirror_step.
    + now apply comma_prefixed_results_mirror_step.
Qed.

Lemma async_output_mirror rest n m prefix self cut :
  prefix <> PROMPT ->
  cut_before_prompt rest self cut -> 3 * size cut + 2 <= m ->
  mirrored rest 1 (_async_output n prefix) (_async_output m prefix) self cut.
Proof.
  intros Hp Hc Hm. unfold _async_output.
  mirror_seq 0 1; [now apply mirrored_token_maybe|].
  intros id self1 cut1 _ Hc1 Hs1.
  mirror_seq 1 0; [apply mirrored_expect; [exact Hp|exact Hc1]|].
  intros sigil self2 cut2 _ Hc2 Hs2.
  mirror_seq 0 0;
    [apply (mirrored_weaken _ 1); [|lia]; now apply mirrored_string|].
  intros cls self3 cut3 _ Hc3 Hs3.
  mirror_seq 0 0; [|intros; now apply mirrored_ret].
  apply (mirrored_weaken _ 1); [|lia].
  destruct (grammar_mirror n) as (_ & _ & _ & _ & _ & _ & Hcpr).
  apply Hcpr; [discriminate|exact Hc3|lia].
Qed.

Lemma stream_output_mirror rest pedantic prefix self cut :
  prefix <> PROMPT ->
  cut_before_prompt rest self cut ->
  mirrored rest 1 (_stream_output pedantic prefix)
    (_stream_output pedantic prefix) self cut.
Proof.
  intros Hp Hc. unfold _stream_output.
  mirror_seq 1 0; [apply mirrored_expect; [exact Hp|exact Hc]|].
  intros sigil self1 cut1 _ Hc1 Hs1.
  mirror_seq 0 0;
    [apply (mirrored_weaken _ 1); [|lia]; now apply mirrored_cstring|].
  intros text self2 cut2 _ Hc2 Hs2.
  mirror_seq 0 0; [|intros; now apply mirrored_ret].
  destruct pedantic; simpl; [now apply mirrored_ret|].
  mirror_seq 0 0; [|intros; now apply mirrored_ret].
  apply mirrored_accept; [discriminate|exact Hc2].
Qed.

Lemma out_of_band_record_mirror rest pedantic n m self cut :
  cut_before_prompt rest self cut -> 3 * size cut + 2 <= m ->
  mirrored rest 1 (_out_of_band_record pedantic n)
    (_out_of_band_record pedantic m) self cut.
Proof.
  intros Hc Hm. unfold _out_of_band_record.
  apply mirrored_dispatch; [exact Hc|discriminate|].
  intros marker _ _ _.
  destruct marker as [[]|]; try (intros a s Hr; discriminate Hr);
    first [ apply async_output_mirror; [discriminate|exact Hc|exact Hm]
          | apply stream_output_mirror; [discriminate|exact Hc] ].
Qed.

Lemma result_record_mirror rest n m self cut :
  cut_before_prompt rest self cut -> 3 * size cut + 2 <= m ->
  mirrored rest 1 (_result_record n) (_result_record m) self cut.
Proof.
  intros Hc Hm. unfold _result_record.
  mirror_seq 0 1; [now apply mirrored_token_maybe|].
  intros id self1 cut1 _ Hc1 Hs1.
  mirror_seq 1 0; [apply mirrored_expect; [discriminate|exact Hc1]|].
  intros caret self2 cut2 _ Hc2 Hs2.
  mirror_seq 0 0;
    [apply (mirrored_weaken _ 1); [|lia]; now apply mirrored_string|].
  intros cls self3 cut3 _ Hc3 Hs3.
  mirror_seq 0 0; [apply mirrored_check; [discriminate|exact Hc3]|].
  intros has self4 cut4 _ Hc4 Hs4.
  mirror_seq 0 0.
  - destruct has; [|now apply mirrored_ret].
    mirror_seq 0 0; [|intros; now apply mirrored_ret].
    apply (mirrored_weaken _ 1); [|lia].
    destruct (grammar_mirror n) as (_ & _ & _ & _ & _ & _ & Hcpr).
    apply Hcpr; [discriminate|exact Hc4|lia].
  - intros results self5 cut5 _ Hc5 Hs5.
    mirror_seq 0 0; [|intros; now apply mirrored_ret].
    apply (mirrored_weaken _ 1); [|lia].
    apply mirrored_expect; [discriminate|exact Hc5].
Qed.

Lemma bind_returns {A B} (m : M A) (k : A -> M B) self b self'' :
  bind m k self = Ok (b, self'') ->
  exists a self', m self = Ok (a, self') /\ k a self' = Ok (b, self'').
Proof.
  unfold bind. destruct (m self) as [[a self']|e]; [|discriminate]. eauto.
Qed.

Lemma neither_caret_nor_prompt_eval self :
  neither_caret_nor_prompt self =
  Ok (negb (at_kind CARET self || at_kind PROMPT self), self).
Proof.
  unfold neither_caret_nor_prompt, bind.
  change (_check CARET self) with (@Ok (bool * parser) (at_kind CARET self, self)).
  cbv iota beta. destruct (at_kind CARET self); reflexivity.
Qed.

Lemma not_prompt_eval self :
  not_prompt self = Ok (negb (at_kind PROMPT self), self).
Proof. reflexivity. Qed.

Lemma out_of_band_record_at_end pedantic m cut :
  stream cut = [] ->
  _out_of_band_record pedantic m cut =
  Raise (SyntaxError (ExpectedMarker None)).
Proof.
  intro H. apply stream_empty in H. unfold _out_of_band_record, bind.
  change (_lookahead_kind cut) with (@Ok (option kind * parser) (peek cut, cut)).
  unfold peek. rewrite H. reflexivity.
Qed.

Lemma expect_at_end expected self :
  stream self = [] ->
  _expect expected self = Raise (SyntaxError (ExpectedGot expected None)).
Proof.
  intro H. apply stream_empty in H. destruct self as [tok toks].
  simpl in H. subst tok. reflexivity.
Qed.

Lemma at_kind_token expected self t :
  _token self = Some t ->
  at_kind expected self = kind_eqb (kind_of t) expected.
Proof. intro H. unfold at_kind, peek. now rewrite H. Qed.

Lemma at_kind_at_end expected self :
  stream self = [] -> at_kind expected self = false.
Proof. intro H. apply stream_empty in H. unfold at_kind, peek. now rewrite H. Qed.

Lemma while_append_step {A} (cond : M bool) (body : M A) m acc self b :
  cond self = Ok (b, self) ->
  while_append (S m) cond body acc self =
  if b then bind body (fun x => while_append m cond body (acc ++ [x])) self
  else Ok (acc, self).
Proof.
  intro H. cbn [while_append]. unfold bind at 1. rewrite H.
  destruct b; reflexivity.
Qed.

Lemma not_prompt_kind t : kind_of t <> PROMPT -> kind_eqb (kind_of t) PROMPT = false.
Proof.
  intro H. destruct (kind_eqb (kind_of t) PROMPT) eqn:Hk; [|reflexivity].
  apply kind_eqb_eq in Hk. congruence.
Qed.

(** The first loop of [_output] on the cut tokens: it stops at the caret as
    on the whole, and where the whole stops at the prompt it asks for one
    more record. *)
Lemma output_first_loop_cut rest pedantic n1 m1 :
  forall n m acc self cut acc' self',
    cut_before_prompt rest self cut ->
    size cut < m -> 3 * size cut + 2 <= m1 ->
    while_append n neither_caret_nor_prompt (_out_of_band_record pedantic n1)
      acc self = Ok (acc', self') ->
    (at_kind CARET self' = true /\
     exists cut',
       while_append m neither_caret_nor_prompt
         (_out_of_band_record pedantic m1) acc cut = Ok (acc', cut') /\
       cut_before_prompt rest self' cut' /\ size cut' <= size cut) \/
    (at_kind CARET self' = false /\
     while_append m neither_caret_nor_prompt
       (_out_of_band_record pedantic m1) acc cut =
     Raise (SyntaxError (ExpectedMarker None))).
Proof.
  induction n as [|n IH]; intros m acc self cut acc' self' Hc Hm Hm1 Hrun;
    [discriminate|].
  destruct m as [|m]; [lia|].
  rewrite (while_append_step _ _ _ _ _ _ (neither_caret_nor_prompt_eval self))
    in Hrun.
  rewrite (while_append_step _ _ _ _ _ _ (neither_caret_nor_prompt_eval cut)).
  destruct (cut_peek _ _ _ Hc)
    as [(Hend & Hp1 & Hp2 & _)|(t & H1 & H2 & Hne & Hc' & Hs)].
  - assert (Hcaret : at_kind CARET self = false)
      by (unfold at_kind; rewrite Hp1; reflexivity).
    assert (Hprompt : at_kind PROMPT self = true)
      by (unfold at_kind; rewrite Hp1; reflexivity).
    rewrite Hcaret, Hprompt in Hrun. simpl in Hrun. inversion Hrun; subst.
    right. split; [exact Hcaret|].
    rewrite !(at_kind_at_end _ _ Hend). simpl. unfold bind.
    now rewrite out_of_band_record_at_end.
  - rewrite !(at_kind_token _ _ _ H1) in Hrun.
    rewrite !(at_kind_token _ _ _ H2).
    rewrite (not_prompt_kind _ Hne), orb_false_r in *.
    destruct (kind_eqb (kind_of t) CARET) eqn:Hk; simpl in *.
    + inversion Hrun; subst. left.
      split; [now rewrite (at_kind_token _ _ _ H1)|].
      exists cut. split; [reflexivity|]. split; [exact Hc|lia].
    + apply bind_returns in Hrun. destruct Hrun as (x & s & Hbody & Hrun).
      destruct (out_of_band_record_mirror rest pedantic n1 m1 self cut Hc Hm1
                  x s Hbody) as (cut1 & Hbody2 & Hc1 & Hs1).
      unfold bind at 1. rewrite Hbody2.
      destruct (IH m _ _ _ _ _ Hc1 ltac:(lia) ltac:(lia) Hrun)
        as [(Hcaret & cut' & H & Hc2 & Hs2)|(Hcaret & H)].
      * left. split; [exact Hcaret|]. exists cut'.
        split; [exact H|]. split; [exact Hc2|lia].
      * right. split; [exact Hcaret|].
        unfold bind at 1. now rewrite Hbody2.
Qed.

(** The second loop of [_output], in lenient mode, asks the cut tokens for
    one more record. *)
Lemma output_second_loop_cut rest n1 m1 :
  forall n m acc self cut acc' self',
    cut_before_prompt rest self cut ->
    size cut < m -> 3 * size cut + 2 <= m1 ->
    while_append n not_prompt (_out_of_band_record false n1) acc self =
    Ok (acc', self') ->
    while_append m not_prompt (_out_of_band_record false m1) acc cut =
    Raise (SyntaxError (ExpectedMarker None)).
Proof.
  induction n as [|n IH]; intros m acc self cut acc' self' Hc Hm Hm1 Hrun;
    [discriminate|].
  destruct m as [|m]; [lia|].
  rewrite (while_append_step _ _ _ _ _ _ (not_prompt_eval self)) in Hrun.
  rewrite (while_append_step _ _ _ _ _ _ (not_prompt_eval cut)).
  destruct (cut_peek _ _ _ Hc)
    as [(Hend & Hp1 & Hp2 & _)|(t & H1 & H2 & Hne & Hc' & Hs)].
  - rewrite (at_kind_at_end _ _ Hend). simpl. unfold bind.
    now rewrite out_of_band_record_at_end.
  - rewrite (at_kind_token _ _ _ H1) in Hrun.
    rewrite (at_kind_token _ _ _ H2).
    rewrite (not_prompt_kind _ Hne) in *. simpl in *.
    apply bind_returns in Hrun. destruct Hrun as (x & s & Hbody & Hrun).
    destruct (out_of_band_record_mirror rest false n1 m1 self cut Hc Hm1
                x s Hbody) as (cut1 & Hbody2 & Hc1 & Hs1).
    unfold bind at 1. rewrite Hbody2.
    apply (IH m _ _ _ _ _ Hc1 ltac:(lia) ltac:(lia) Hrun).
Qed.

Lemma output_cut rest pedantic n m self cut doc self' :
  cut_before_prompt rest self cut ->
  3 * size cut + 2 <= m ->
  _output pedantic n self = Ok (doc, self') ->
  _output pedantic m cut =
  Raise (SyntaxError (missing_prompt_error pedantic doc)).
Proof.
  intros Hc Hm Hrun. unfold _output in *.
  apply bind_returns in Hrun. destruct Hrun as (oobs1 & self1 & Hloop & Hrun).
  apply bind_returns in Hrun. destruct Hrun as (caret & s & Hcheck & Hrun).
  change (_check CARET self1)
    with (@Ok (bool * parser) (at_kind CARET self1, self1)) in Hcheck.
  inversion Hcheck; subst caret s. clear Hcheck.
  apply bind_returns in Hrun. destruct Hrun as (res & self2 & Hres & Hrun).
  apply bind_returns in Hrun. destruct Hrun as (oobs2 & self3 & Hloop2 & Hrun).
  apply bind_returns in Hrun. destruct Hrun as (tp & self4 & Hprompt & Hrun).
  apply bind_returns in Hrun. destruct Hrun as (tn & self5 & Hnl & Hrun).
  inversion Hrun; subst doc self5. clear Hrun.
  unfold missing_prompt_error. cbn [snd].
  destruct (output_first_loop_cut rest pedantic n m n m [] self cut oobs1 self1
              Hc ltac:(lia) Hm Hloop)
    as [(Hcaret & cut1 & Hloop1' & Hc1 & Hs1)|(Hcaret & Hloop1')].
  - unfold bind at 1. rewrite Hloop1'.
    rewrite Hcaret in Hres.
    apply bind_returns in Hres. destruct Hres as (r & s & Hrr & Hres).
    inversion Hres; subst res s. clear Hres.
    destruct (mirrored_check rest CARET self1 cut1 ltac:(discriminate) Hc1
                true self1) as (c' & Hcheck' & _);
      [change (_check CARET self1)
         with (@Ok (bool * parser) (at_kind CARET self1, self1));
       now rewrite Hcaret|].
    unfold bind at 1. rewrite Hcheck'.
    change (_check CARET cut1)
      with (@Ok (bool * parser) (at_kind CARET cut1, cut1)) in Hcheck'.
    inversion Hcheck'; subst c'.
    destruct (result_record_mirror rest n m self1 cut1 Hc1 ltac:(lia)
                r self2 Hrr) as (cut2 & Hrr' & Hc2 & Hs2).
    unfold bind at 1. unfold bind at 1. rewrite Hrr'. cbn [ret].
    destruct pedantic; cbn [negb] in *.
    + inversion Hloop2; subst oobs2 self3.
      unfold bind at 1. cbn [ret].
      destruct (cut_peek _ _ _ Hc2)
        as [(Hend & _)|(t & H1 & H2 & Hne & _)].
      * unfold bind at 1. now rewrite (expect_at_end _ _ Hend).
      * exfalso.
        pose proof (wpg_expect False (fun _ => True)
                      (fun _ _ => at_kind PROMPT self2 = true) PROMPT self2)
          as H.
        unfold wpg in H. rewrite Hprompt in H.
        assert (Hat : at_kind PROMPT self2 = true).
        { apply H; [|auto]. intros t0 s0 Hk0 Hs0.
          unfold at_kind, peek. rewrite (stream_token _ _ _ Hs0). simpl.
          now rewrite Hk0, kind_eqb_refl. }
        rewrite (at_kind_token _ _ _ H1) in Hat.
        apply kind_eqb_eq in Hat. congruence.
    + unfold bind at 1.
      now rewrite (output_second_loop_cut rest n m n m oobs1 self2 cut2 oobs2
                     self3 Hc2 ltac:(lia) ltac:(lia) Hloop2).
  - unfold bind at 1. rewrite Hloop1'.
    rewrite Hcaret in Hres. inversion Hres; subst res self2.
    now destruct pedantic.
Qed.

(** Tokens that only lack their prompt line. *)
Lemma MIParser_parse_cut c rest pedantic doc :
  c <> [] ->
  count_kind PROMPT c = 0 ->
  MIParser_parse (c ++ TPROMPT :: rest) pedantic = Ok doc ->
  MIParser_parse c pedantic =
  Raise (SyntaxError (missing_prompt_error pedantic doc)).
Proof.
  intros Hne Hcount Hrun. destruct c as [|t c]; [congruence|].
  unfold MIParser_parse in *. cbn [app] in Hrun.
  destruct (_output pedantic (budget (t :: c ++ TPROMPT :: rest))
              (Parser (Some t) (c ++ TPROMPT :: rest)))
    as [[doc' self']|e] eqn:Hout; [|discriminate].
  inversion Hrun; subst doc'.
  rewrite (output_cut rest pedantic (budget (t :: c ++ TPROMPT :: rest))
             (budget (t :: c)) (Parser (Some t) (c ++ TPROMPT :: rest))
             (Parser (Some t) c) doc self');
    [reflexivity | | | exact Hout].
  - split; [reflexivity|exact Hcount].
  - unfold budget, size, stream. simpl. lia.
Qed.

(** ** Pedantic and lenient mode *)

(** A stream record read in pedantic mode is read the same in lenient mode
    when no newline follows it. *)
Lemma stream_output_lenient prefix self r self' :
  _stream_output true prefix self = Ok (r, self') ->
  at_kind NL self' = false ->
  _stream_output false prefix self = Ok (r, self').
Proof.
  unfold _stream_output. intros Hrun Hnl.
  apply bind_returns in Hrun. destruct Hrun as (sigil & s1 & Hsigil & Hrun).
  apply bind_returns in Hrun. destruct Hrun as (text & s2 & Htext & Hrun).
  cbn [negb] in *. 
  apply bind_returns in Hrun. destruct Hrun as (u & s3 & Hu & Hrun).
  inversion Hu; subst u s3. inversion Hrun; subst r self'.
  unfold bind at 1. rewrite Hsigil.
  unfold bind at 1. rewrite Htext.
  unfold bind at 1. unfold bind at 1. rewrite (accept_refused _ _ Hnl).
  reflexivity.
Qed.

Lemma out_of_band_record_lenient fuel self r self' :
  _out_of_band_record true fuel self = Ok (r, self') ->
  at_kind NL self' = false ->
  _out_of_band_record false fuel self = Ok (r, self').
Proof.
  unfold _out_of_band_record, bind.
  change (_lookahead_kind self)
    with (@Ok (option kind * parser) (peek self, self)).
  cbv iota beta. intros Hrun Hnl.
  destruct (peek self) as [[]|]; try exact Hrun;
    now apply stream_output_lenient.
Qed.

Lemma out_of_band_record_at_newline pedantic fuel self :
  at_kind NL self = true ->
  _out_of_band_record pedantic fuel self =
  Raise (SyntaxError (ExpectedMarker (Some NL))).
Proof.
  intro H. apply at_kind_peek in H. unfold _out_of_band_record, bind.
  change (_lookahead_kind self)
    with (@Ok (option kind * parser) (peek self, self)).
  cbv iota beta. now rewrite H.
Qed.

(** The first loop of [_output] returns in lenient mode what it returns in
    pedantic mode. *)
Lemma output_first_loop_lenient fuel :
  forall n acc self acc' self',
    while_append n neither_caret_nor_prompt (_out_of_band_record true fuel)
      acc self = Ok (acc', self') ->
    while_append n neither_caret_nor_prompt (_out_of_band_record false fuel)
      acc self = Ok (acc', self').
Proof.
  induction n as [|n IH]; intros acc self acc' self' Hrun; [discriminate|].
  rewrite (while_append_step _ _ _ _ _ _ (neither_caret_nor_prompt_eval self))
    in Hrun.
  rewrite (while_append_step _ _ _ _ _ _ (neither_caret_nor_prompt_eval self)).
  destruct (negb (at_kind CARET self || at_kind PROMPT self));
    [|exact Hrun].
  apply bind_returns in Hrun. destruct Hrun as (x & self1 & Hbody & Hrun).
  assert (Hnl : at_kind NL self1 = false).
  { destruct (at_kind NL self1) eqn:Hat; [exfalso|reflexivity].
    destruct n as [|n]; [discriminate|].
    rewrite (while_append_step _ _ _ _ _ _
               (neither_caret_nor_prompt_eval self1)) in Hrun.
    apply at_kind_peek in Hat. unfold at_kind in Hrun. rewrite Hat in Hrun.
    simpl in Hrun. unfold bind in Hrun.
    rewrite out_of_band_record_at_newline in Hrun; [discriminate|].
    now apply at_kind_peek. }
  unfold bind at 1. rewrite (out_of_band_record_lenient _ _ _ _ Hbody Hnl).
  now apply IH.
Qed.

Lemma expect_returns expected self t self' :
  _expect expected self = Ok (t, self') -> at_kind expected self = true.
Proof.
  intro Hrun.
  pose proof (wpg_expect False (fun _ => True)
                (fun _ _ => at_kind expected self = true) expected self) as H.
  unfold wpg in H. rewrite Hrun in H. apply H; [|auto].
  intros t0 s0 Hk0 Hs0. unfold at_kind, peek.
  rewrite (stream_token _ _ _ Hs0). simpl. now rewrite Hk0, kind_eqb_refl.
Qed.

Lemma output_lenient fuel self doc self' :
  _output true fuel self = Ok (doc, self') ->
  _output false fuel self = Ok (doc, self').
Proof.
  unfold _output. intro Hrun.
  apply bind_returns in Hrun. destruct Hrun as (oobs1 & self1 & Hloop & Hrun).
  unfold bind at 1. rewrite (output_first_loop_lenient _ _ _ _ _ _ Hloop).
  apply bind_returns in Hrun. destruct Hrun as (caret & s & Hcheck & Hrun).
  unfold bind at 1. rewrite Hcheck.
  apply bind_returns in Hrun. destruct Hrun as (res & self2 & Hres & Hrun).
  unfold bind at 1. rewrite Hres.
  cbn [negb] in *.
  apply bind_returns in Hrun. destruct Hrun as (oobs2 & self3 & Hret & Hrun).
  inversion Hret; subst oobs2 self3.
  pose proof Hrun as Hprompt.
  apply bind_returns in Hprompt. destruct Hprompt as (t & s4 & Hprompt & _).
  apply expect_returns in Hprompt.
  destruct fuel as [|fuel]; [discriminate Hloop|].
  unfold bind at 1.
  rewrite (while_append_step _ _ _ _ _ _ (not_prompt_eval self2)).
  rewrite Hprompt. simpl negb. cbv iota. exact Hrun.
Qed.

(** ** The claims *)

(** The claims on the two modes, the prompt line, a second result record,
    a stray character and the escapes of a quoted string are proved at the
    end, after the lemmas they rest on. *)

(** C1. The scenario with a numeric id before the caret is not parsed: the
    document rule dispatches on the current token before the result-record
    rule can take the id, so every token sequence that starts with a numeric
    id is a syntax error in both modes.  Without the id the scenario is
    refused too, for want of a second newline after the result list, whose
    closing newline [_comma_prefixed_results] has consumed; with two newlines
    it gives the record the specification lists, less the id. *)
Theorem numeric_id_before_caret_is_rejected :
  (forall names,
     mi_scanner_scan names scenario_token =
     Ok ([TTOKEN 1; TCARET; TSTRING "done"; TCOMMA; TSTRING "bkpt"; TEQUALS;
          TLBRACE; TSTRING "number"; TEQUALS; TCSTRING [49%N]; TRBRACE;
          TNL; TPROMPT; TNL], "")) /\
  (forall names pedantic,
     parse names scenario_token pedantic =
     Raise (SyntaxError (ExpectedMarker (Some TOKEN)))) /\
  (forall n rest pedantic,
     MIParser_parse (TTOKEN n :: rest) pedantic =
     Raise (SyntaxError (ExpectedMarker (Some TOKEN)))) /\
  (forall names pedantic,
     parse names scenario_without_token pedantic =
     Raise (SyntaxError (ExpectedGot NL (Some PROMPT)))) /\
  (forall names pedantic,
     parse names scenario_two_newlines pedantic =
     Ok ([], Some (None, "done",
                   Some [PDict "bkpt" (PList [PDict "number" (PStr [49%N])])]))).
Proof.
  repeat split; intros; try reflexivity.
  all: destruct pedantic; reflexivity.
Qed.

(** C3. A value, a tuple and a comma-introduced result list render to exactly
    the tokens the rule consumed: one entry for each named result, in the
    order of the tokens, whether or not a name occurs twice; and so does the
    whole of a returned document, with every tuple and result list in it. *)
Theorem named_results_keep_order_and_duplicates :
  (forall fuel self v self',
     _value fuel self = Ok (v, self') -> consumed self self' (render v)) /\
  (forall fuel self items self',
     _tuple fuel self = Ok (items, self') ->
     Forall is_named items /\
     consumed self self' (TLBRACKET :: render_items items ++ [TRBRACKET])) /\
  (forall fuel closer self rs self',
     is_closer closer = true ->
     _comma_prefixed_results fuel closer self = Ok (rs, self') ->
     Forall is_named rs /\
     consumed self self' (comma_prefixed rs ++ canon_closer closer)) /\
  (forall tokens pedantic oob_records result,
     MIParser_parse tokens pedantic = Ok (oob_records, result) ->
     exists before after c rest,
       oob_records = before ++ after /\
       tokens = c ++ rest /\
       canon_all c =
         render_oobs before ++ render_result result ++
         render_oobs after ++ [TPROMPT]).
Proof.
  split; [|split; [|split]].
  - intros fuel self v self' H.
    destruct (grammar_spec fuel) as (Hv & _).
    apply (wpg_returns _ _ _ _ _ _ _ (Hv self) H).
  - intros fuel self items self' H.
    destruct (grammar_spec fuel) as (_ & _ & _ & _ & Ht & _).
    destruct (wpg_returns _ _ _ _ _ _ _ (Ht self) H) as [Hc Hn].
    rewrite render_PList in Hc. now split.
  - intros fuel closer self rs self' Hcloser H.
    destruct (grammar_spec fuel) as (_ & _ & _ & _ & _ & _ & Hc).
    destruct (wpg_returns _ _ _ _ _ _ _ (Hc closer self Hcloser) H).
    now split.
  - intros tokens pedantic oob_records result H.
    pose proof (MIParser_parse_outcome tokens pedantic) as Ho.
    rewrite H in Ho.
    destruct Ho as (before & after & c & rest & Hdoc & _ & _ & Ht & Hc).
    exists before, after, c, rest. auto.
Qed.

Lemma named_results_keep_order_and_duplicates_witness :
  _value 9 (Parser (Some TLBRACE) (tl duplicate_names)) =
  Ok (PList [PDict "a" (PStr [49%N]); PDict "a" (PStr [50%N])],
      Parser None []) /\
  consumed (Parser (Some TLBRACE) (tl duplicate_names)) (Parser None [])
    (render (PList [PDict "a" (PStr [49%N]); PDict "a" (PStr [50%N])])).
Proof.
  split; [reflexivity|].
  apply (proj1 named_results_keep_order_and_duplicates 9). reflexivity.
Defined.

(** C4. [parse] has failure modes besides the lexical and the grammar error:
    the empty text raises [StopIteration], from the unguarded first [next],
    and a quoted string with a truncated escape raises [UnicodeDecodeError].
    These four are all; the recursion budget of the embedding never runs
    out. *)
Theorem empty_input_raises_StopIteration :
  (forall names pedantic, parse names "" pedantic = Raise StopIteration) /\
  (forall names pedantic,
     parse names truncated_escape pedantic = Raise UnicodeDecodeError) /\
  (forall names text pedantic,
     match parse names text pedantic with
     | Ok _ => True
     | Raise AssertionError => True
     | Raise (SyntaxError _) => True
     | Raise StopIteration => text = ""
     | Raise UnicodeDecodeError => True
     | Raise OutOfFuel => False
     end).
Proof.
  repeat split; intros; try reflexivity.
  destruct (parse names text pedantic) as [doc|e] eqn:H; [exact I|].
  apply parse_raises in H.
  destruct H as [-> | [[what ->] | [[-> Ht] | ->]]]; auto.
Qed.

(** C8. The first scenario: no out-of-band record, and a result record with
    no numeric id, the class [done] and no result list. *)
Theorem scenario_done_parses names :
  parse names scenario_done false = Ok ([], Some (None, "done", None)).
Proof. reflexivity. Qed.



(** ** Further properties of the two modes *)

(** X1. Every token sequence that pedantic mode accepts, lenient mode accepts
    with the same document. *)
Theorem lenient_mode_accepts_what_pedantic_mode_accepts tokens doc :
  MIParser_parse tokens true = Ok doc -> MIParser_parse tokens false = Ok doc.
Proof.
  unfold MIParser_parse. destruct tokens as [|t rest]; [discriminate|].
  destruct (_output true (budget (t :: rest)) (Parser (Some t) rest))
    as [[d s]|e] eqn:H; [|discriminate].
  intro Hd. inversion Hd; subst d.
  now rewrite (output_lenient _ _ _ _ H).
Qed.

Lemma lenient_mode_accepts_what_pedantic_mode_accepts_witness :
  MIParser_parse [TCARET; TSTRING "done"; TNL; TPROMPT; TNL] true =
  Ok ([], Some done_record) /\
  MIParser_parse [TCARET; TSTRING "done"; TNL; TPROMPT; TNL] false =
  Ok ([], Some done_record).
Proof.
  split; [reflexivity|].
  apply (lenient_mode_accepts_what_pedantic_mode_accepts
           [TCARET; TSTRING "done"; TNL; TPROMPT; TNL]).
  reflexivity.
Defined.

(** ** Texts without backslash or without quote *)

Lemma all_chars_app p a b :
  all_chars p (a ++ b)%string = all_chars p a && all_chars p b.
Proof.
  induction a as [|c a IH]; simpl; [reflexivity|].
  now rewrite IH, andb_assoc.
Qed.

Lemma utf8_encode_char_not_backslash c :
  not_backslash c = true ->
  all_chars not_backslash (utf8_encode_char c) = true.
Proof.
  destruct c as [[] [] [] [] [] [] [] []]; intro H;
    try discriminate H; reflexivity.
Qed.

Lemma utf8_encode_not_backslash s :
  all_chars not_backslash s = true ->
  all_chars not_backslash (utf8_encode s) = true.
Proof.
  induction s as [|c s IH]; simpl; [reflexivity|].
  intro H. apply andb_true_iff in H. destruct H as [Hc Hs].
  rewrite all_chars_app, (utf8_encode_char_not_backslash c Hc). now apply IH.
Qed.

Lemma unicode_escape_decode_bytes names b :
  all_chars not_backslash b = true ->
  unicode_escape_decode names b = Some (codepoints b).
Proof.
  induction b as [|c b IH]; simpl; [reflexivity|].
  intro H. apply andb_true_iff in H. destruct H as [Hc Hb].
  unfold not_backslash in Hc. rewrite Hc, (IH Hb). reflexivity.
Qed.

Lemma utf8_encode_ascii s :
  all_chars is_ascii s = true -> utf8_encode s = s.
Proof.
  induction s as [|c s IH]; simpl; [reflexivity|].
  intro H. apply andb_true_iff in H. destruct H as [Hc Hs].
  unfold utf8_encode_char. unfold is_ascii in Hc. rewrite Hc. simpl.
  now rewrite IH.
Qed.

Lemma decode_string_without_backslash names s :
  all_chars not_backslash s = true ->
  decode_string names s = Ok (codepoints (utf8_encode s)).
Proof.
  intro H. unfold decode_string.
  now rewrite (unicode_escape_decode_bytes names _
                 (utf8_encode_not_backslash s H)).
Qed.

Lemma codepoints_app a b : codepoints (a ++ b) = codepoints a ++ codepoints b.
Proof. induction a as [|c a IH]; simpl; [reflexivity|now rewrite IH]. Qed.

Lemma code_bounded c : (code c < 256)%N.
Proof. apply N_ascii_bounded. Qed.

(** The code points of the UTF-8 encoding of a character: itself below 128,
    a leading byte and a continuation byte from 128 to 255. *)
Lemma codepoints_utf8_encode_char c :
  codepoints (utf8_encode_char c) =
  if (code c <? 128)%N then [code c]
  else [192 + code c / 64; 128 + code c mod 64]%N.
Proof.
  unfold utf8_encode_char. pose proof (code_bounded c) as Hc.
  destruct (code c <? 128)%N; [reflexivity|].
  assert (H1 : (code c / 64 < 4)%N)
    by (apply N.Div0.div_lt_upper_bound; lia).
  assert (H2 : (code c mod 64 < 64)%N) by (apply N.mod_lt; lia).
  cbn [codepoints]. unfold code at 1 3.
  rewrite !N_ascii_embedding by lia. reflexivity.
Qed.

Lemma codepoints_utf8_encode s :
  codepoints (utf8_encode s) =
  flat_map (fun n => if (n <? 128)%N then [n]
                     else [192 + n / 64; 128 + n mod 64]%N) (codepoints s).
Proof.
  induction s as [|c s IH]; [reflexivity|].
  simpl. rewrite codepoints_app, codepoints_utf8_encode_char, IH. reflexivity.
Qed.

(** ** The scanner on a text without backslash *)

Lemma all_chars_substring p n k s :
  all_chars p s = true -> all_chars p (substring n k s) = true.
Proof.
  revert n k. induction s as [|c s IH]; intros n k H.
  - destruct n, k; reflexivity.
  - simpl in H. apply andb_true_iff in H. destruct H as [Hc Hs].
    destruct n as [|n]; destruct k as [|k]; simpl; auto.
    rewrite Hc. simpl. now apply IH.
Qed.

Lemma strip_ends_chars p t :
  all_chars p t = true -> all_chars p (strip_ends t) = true.
Proof.
  destruct t as [|c t]; [reflexivity|]. simpl. intro H.
  apply andb_true_iff in H. destruct H as [_ H].
  now apply all_chars_substring.
Qed.

Lemma lexicon_decodes_without_backslash names :
  Forall (fun rule => action_decodes_without_backslash (snd rule))
    (lexicon names).
Proof.
  unfold lexicon.
  repeat (constructor; [intros t Ht; simpl; try (eexists; reflexivity)|]).
  - unfold cstring_token.
    rewrite (decode_string_without_backslash names _
               (strip_ends_chars _ _ Ht)).
    eexists. reflexivity.
  - constructor.
Qed.

Lemma first_match_in rules text act m r :
  first_match rules text = Some (act, m, r) ->
  exists p, In (p, act) rules /\ p text = Some (m, r).
Proof.
  induction rules as [|[p a] rules IH]; simpl; [discriminate|].
  destruct (p text) as [[m0 r0]|] eqn:Hm.
  - intro H. inversion H; subst. exists p. auto.
  - intro H. destruct (IH H) as [p' [Hin Hp]]. exists p'. auto.
Qed.

(** The scanner returns whenever the action of every match does, on a class
    of texts closed under taking what a match leaves. *)
Lemma scan_returns names (P : string -> Prop) (Q : string -> Prop) :
  Q "" ->
  (forall text act m r,
     P text -> first_match (lexicon names) text = Some (act, m, r) ->
     (exists tok, act m = Ok tok) /\ P r /\ Q m) ->
  (forall a b, Q a -> Q b -> Q (a ++ b)%string) ->
  forall fuel text, P text ->
  exists tokens scanned remainder,
    scan names fuel text = Ok (tokens, remainder) /\
    text = (scanned ++ remainder)%string /\ Q scanned.
Proof.
  intros Hnil Hstep Happ fuel.
  induction fuel as [|fuel IH]; intros text HP.
  - exists [], "", text. auto.
  - cbn [scan].
    destruct (first_match (lexicon names) text) as [[[act m] r]|] eqn:Hm.
    + destruct (Hstep _ _ _ _ HP Hm) as [[tok Htok] [HPr HQm]].
      destruct (first_match_lexicon _ _ _ _ _ Hm) as [-> Hne].
      destruct m as [|c m]; [congruence|].
      rewrite Htok. simpl.
      destruct (IH r HPr) as [toks [scanned [rem [-> [-> HQ]]]]]. simpl.
      exists (tok :: toks), (String c m ++ scanned)%string, rem.
      split; [reflexivity|].
      split; [apply (string_app_assoc (String c m))|]. now apply Happ.
    + exists [], "", text. auto.
Qed.

Lemma scan_without_backslash names fuel text :
  all_chars not_backslash text = true ->
  exists tokens remainder, scan names fuel text = Ok (tokens, remainder).
Proof.
  intro H.
  destruct (scan_returns names
              (fun t => all_chars not_backslash t = true) (fun _ => True))
    with (fuel := fuel) (text := text)
    as [tokens [scanned [rem [Hs _]]]]; auto.
  - intros t act m r Ht Hm.
    destruct (first_match_lexicon _ _ _ _ _ Hm) as [-> _].
    rewrite all_chars_app in Ht. apply andb_true_iff in Ht.
    destruct Ht as [Hm' Hr].
    destruct (first_match_in _ _ _ _ _ Hm) as [p [Hin _]].
    pose proof (lexicon_decodes_without_backslash names) as Hall.
    rewrite Forall_forall in Hall. specialize (Hall _ Hin). simpl in Hall.
    split; [now apply Hall|]. auto.
  - eauto.
Qed.


(** ** The scanner on a text without quote *)

Lemma all_chars_weaken (p q : ascii -> bool) s :
  (forall c, p c = true -> q c = true) ->
  all_chars p s = true -> all_chars q s = true.
Proof.
  intro Hpq. induction s as [|c s IH]; simpl; [reflexivity|].
  intro H. apply andb_true_iff in H. destruct H as [Hc Hs].
  now rewrite (Hpq c Hc), IH.
Qed.

Lemma span_chars p s m r : span p s = (m, r) -> all_chars p m = true.
Proof.
  revert m r. induction s as [|c s IH]; simpl; intros m r H.
  - now inversion H.
  - destruct (p c) eqn:Hc.
    + destruct (span p s) as [m' r']. inversion H; subst. simpl.
      rewrite Hc. exact (IH m' r eq_refl).
    + now inversion H.
Qed.

Lemma re_literal_matched lit text m r :
  re_literal lit text = Some (m, r) -> m = lit.
Proof.
  revert text m r. induction lit as [|a lit IH]; simpl; intros text m r H.
  - now inversion H.
  - destruct text as [|c text]; [discriminate|].
    destruct (Ascii.eqb a c) eqn:Hac; [|discriminate].
    destruct (re_literal lit text) as [[m' r']|] eqn:Hl; [|discriminate].
    inversion H; subst. apply Ascii.eqb_eq in Hac. subst.
    f_equal. now apply (IH text m' r).
Qed.

Lemma is_digit_token_char c : is_digit c = true -> token_char c = true.
Proof. unfold token_char. now intros ->. Qed.

Lemma is_ident_char_token_char c :
  is_ident_char c = true -> token_char c = true.
Proof. unfold token_char. intros ->. now rewrite orb_true_r. Qed.

Lemma is_ident_start_char c :
  is_ident_start c = true -> is_ident_char c = true.
Proof.
  destruct c as [[] [] [] [] [] [] [] []]; intro H;
    try discriminate H; reflexivity.
Qed.

Lemma lexicon_without_quote names :
  Forall rule_without_quote (lexicon names).
Proof.
  unfold lexicon.
  repeat (constructor;
    [intros text m r Hq Hm; cbn [fst snd] in Hm |- *;
     first [ apply re_literal_matched in Hm; subst m;
             split; [reflexivity | eexists; reflexivity]
           | idtac ] |]).
  - split; [|eexists; reflexivity]. unfold re_digits in Hm.
    destruct (span is_digit text) as [md rd] eqn:Hd.
    destruct md as [|c md]; [discriminate|]. inversion Hm; subst.
    apply span_chars in Hd.
    exact (all_chars_weaken _ _ _ is_digit_token_char Hd).
  - split; [|eexists; reflexivity]. unfold re_identifier in Hm.
    destruct text as [|c text]; [discriminate|].
    destruct (is_ident_start c) eqn:Hc; [|discriminate Hm].
    destruct (span is_ident_char text) as [mi ri] eqn:Hi.
    inversion Hm; subst. apply span_chars in Hi. simpl.
    rewrite (is_ident_char_token_char c (is_ident_start_char c Hc)).
    exact (all_chars_weaken _ _ _ is_ident_char_token_char Hi).
  - unfold re_cstring in Hm. destruct text as [|c text]; [discriminate|].
    simpl in Hq. unfold not_quote at 1 in Hq.
    destruct (Ascii.eqb c DQUOTE); [discriminate Hq | discriminate Hm].
  - constructor.
Qed.

Lemma scan_without_quote names fuel text :
  all_chars not_quote text = true ->
  exists tokens scanned remainder,
    scan names fuel text = Ok (tokens, remainder) /\
    text = (scanned ++ remainder)%string /\
    all_chars token_char scanned = true.
Proof.
  intro H.
  apply (scan_returns names (fun t => all_chars not_quote t = true)
           (fun t => all_chars token_char t = true)); auto.
  - intros t act m r Ht Hm.
    destruct (first_match_in _ _ _ _ _ Hm) as [p [Hin Hp]].
    pose proof (lexicon_without_quote names) as Hall.
    rewrite Forall_forall in Hall.
    destruct (Hall _ Hin t m r Ht Hp) as [Hchars Htok].
    destruct (first_match_lexicon _ _ _ _ _ Hm) as [-> _].
    rewrite all_chars_app in Ht. apply andb_true_iff in Ht.
    destruct Ht as [_ Hr]. auto.
  - intros a b Ha Hb. now rewrite all_chars_app, Ha, Hb.
Qed.

Lemma string_app_empty (s : string) : (s ++ "")%string = s.
Proof. induction s as [|c s IH]; simpl; [reflexivity | now rewrite IH]. Qed.

(** ** Tokens after the prompt line *)

Lemma size_stream self : size self = 0 <-> stream self = [].
Proof. unfold size. destruct (stream self); simpl; split; congruence. Qed.

Lemma extended_advanced more self :
  stream (advanced self) <> [] ->
  advanced (extended more self) = extended more (advanced self).
Proof.
  destruct self as [tok toks]. unfold advanced, extended, stream. simpl.
  destruct toks as [|t toks]; simpl; [congruence|reflexivity].
Qed.

Lemma size_advanced self t :
  _token self = Some t -> size self = S (size (advanced self)).
Proof. intro H. unfold size. now rewrite (stream_advanced _ _ H). Qed.

Section Unaffected.

Variable more : list token.

Lemma unaffected_ret {A} (a : A) self : unaffected more (ret a) (ret a) self.
Proof. intros a' self' H. inversion H; subst. split; [lia|reflexivity]. Qed.

Lemma unaffected_bind {A B} (m1 m2 : M A) (k1 k2 : A -> M B) self :
  unaffected more m1 m2 self ->
  (forall a self', m1 self = Ok (a, self') ->
                   unaffected more (k1 a) (k2 a) self') ->
  unaffected more (bind m1 k1) (bind m2 k2) self.
Proof.
  intros Hm Hk b self'' Hr. unfold bind in Hr.
  destruct (m1 self) as [[a self']|e] eqn:H1; [|discriminate].
  destruct (Hm a self' H1) as [Hs1 He1].
  destruct (Hk a self' eq_refl b self'' Hr) as [Hs2 He2].
  split; [lia|]. intro Hne. unfold bind. rewrite He1.
  - now apply He2.
  - intro Hnil. apply size_stream in Hnil. apply Hne, size_stream. lia.
Qed.

Lemma unaffected_check expected self :
  unaffected more (_check expected) (_check expected) self.
Proof.
  intros b self' Hr.
  change (Ok (at_kind expected self, self) = Ok (b, self')) in Hr.
  inversion Hr; subst. split; [lia|reflexivity].
Qed.

Lemma unaffected_accept expected self :
  unaffected more (_accept expected) (_accept expected) self.
Proof.
  intros o self' Hr. destruct (at_kind expected self) eqn:Hat.
  - destruct (at_kind_true _ _ Hat) as (t & Ht & Hk).
    rewrite (accept_forward _ _ _ Ht Hk) in Hr. inversion Hr; subst.
    split; [rewrite (size_advanced _ _ Ht); lia|]. intro Hne.
    rewrite (accept_forward _ (extended more self) t Ht eq_refl).
    now rewrite extended_advanced.
  - rewrite (accept_refused _ _ Hat) in Hr. inversion Hr; subst.
    split; [lia|]. intros _. now apply accept_refused.
Qed.

Lemma unaffected_expect expected self :
  unaffected more (_expect expected) (_expect expected) self.
Proof.
  intros t self' Hr. pose proof (expect_returns _ _ _ _ Hr) as Hat.
  destruct (at_kind_true _ _ Hat) as (t' & Ht & Hk).
  rewrite (expect_forward _ _ _ Ht Hk) in Hr. inversion Hr; subst.
  split; [rewrite (size_advanced _ _ Ht); lia|]. intro Hne.
  rewrite (expect_forward (kind_of t) (extended more self) t Ht eq_refl).
  now rewrite extended_advanced.
Qed.

Lemma unaffected_string self : unaffected more _string _string self.
Proof.
  apply unaffected_bind; [apply unaffected_expect|].
  intros. apply unaffected_ret.
Qed.

Lemma unaffected_cstring self : unaffected more _cstring _cstring self.
Proof.
  apply unaffected_bind; [apply unaffected_expect|].
  intros. apply unaffected_ret.
Qed.

Lemma unaffected_token_maybe self :
  unaffected more _token_maybe _token_maybe self.
Proof.
  apply unaffected_bind; [apply unaffected_accept|].
  intros. apply unaffected_ret.
Qed.

(** A dispatch on the current token. *)
Lemma unaffected_dispatch {A} (k1 k2 : option kind -> M A) self :
  unaffected more (k1 (peek self)) (k2 (peek self)) self ->
  unaffected more (bind _lookahead_kind k1) (bind _lookahead_kind k2) self.
Proof. intro H. exact H. Qed.

Lemma unaffected_while {A} (cond : M bool) (body1 body2 : M A) :
  (forall self, unaffected more cond cond self) ->
  (forall self, unaffected more body1 body2 self) ->
  forall n m acc self,
    n <= m ->
    unaffected more (while_append n cond body1 acc)
      (while_append m cond body2 acc) self.
Proof.
  intros Hcond Hbody n.
  induction n as [|n IH]; intros m acc self Hm; [discriminate|].
  destruct m as [|m]; [lia|]. cbn [while_append].
  apply unaffected_bind; [apply Hcond|].
  intros b self1 _. destruct b; [|apply unaffected_ret].
  apply unaffected_bind; [apply Hbody|].
  intros x self2 _. apply IH. lia.
Qed.

End Unaffected.

Ltac unaffected_seq := apply unaffected_bind; [|intros ? ? _].

Lemma value_unaffected_step n :
  list_unaffected n -> tuple_unaffected n -> value_unaffected (S n).
Proof.
  intros Hlist Htuple more m self Hm.
  destruct m as [|m]; [lia|]. rewrite !_value_unfold.
  apply unaffected_dispatch.
  destruct (peek self) as [[]|]; try (intros a s Hr; discriminate Hr).
  - unaffected_seq; [apply Hlist; lia|apply unaffected_ret].
  - unaffected_seq; [apply Htuple; lia|apply unaffected_ret].
  - unaffected_seq; [apply unaffected_cstring|apply unaffected_ret].
Qed.

Lemma list_unaffected_step n :
  list_values_unaffected n -> list_results_unaffected n ->
  list_unaffected (S n).
Proof.
  intros Hvalues Hresults more m self Hm.
  destruct m as [|m]; [lia|]. rewrite !_list_unfold.
  unaffected_seq; [apply unaffected_expect|].
  apply unaffected_bind; [apply unaffected_accept|intros closed ? _].
  destruct closed; [apply unaffected_ret|].
  apply unaffected_bind; [apply unaffected_check|intros named ? _].
  destruct named; [apply Hresults|apply Hvalues]; lia.
Qed.

Lemma comma_loop_unaffected more (body1 body2 : M pyobj) n m acc self :
  (forall self', unaffected more body1 body2 self') ->
  n <= m ->
  unaffected more
    (while_append n (_check COMMA) (_expect COMMA ;;; body1) acc)
    (while_append m (_check COMMA) (_expect COMMA ;;; body2) acc) self.
Proof.
  intros Hbody Hm. apply unaffected_while; [| |exact Hm].
  - intro. apply unaffected_check.
  - intro self1. unaffected_seq; [apply unaffected_expect|apply Hbody].
Qed.

Lemma list_values_unaffected_step n :
  value_unaffected n -> list_values_unaffected (S n).
Proof.
  intros Hvalue more m self Hm.
  destruct m as [|m]; [lia|]. rewrite !_list_values_unfold.
  unaffected_seq; [apply Hvalue; lia|].
  unaffected_seq;
    [apply comma_loop_unaffected; [intro; apply Hvalue|]; lia|].
  unaffected_seq; [apply unaffected_expect|apply unaffected_ret].
Qed.

Lemma result_unaffected_step n : value_unaffected n -> result_unaffected (S n).
Proof.
  intros Hvalue more m self Hm.
  destruct m as [|m]; [lia|]. rewrite !_result_unfold.
  unaffected_seq; [apply unaffected_string|].
  unaffected_seq; [apply unaffected_expect|].
  unaffected_seq; [apply Hvalue; lia|apply unaffected_ret].
Qed.

Lemma comma_prefixed_results_unaffected_step n :
  result_unaffected n -> comma_prefixed_results_unaffected (S n).
Proof.
  intros Hresult more m closer self Hm.
  destruct m as [|m]; [lia|]. rewrite !_comma_prefixed_results_unfold.
  unaffected_seq;
    [apply comma_loop_unaffected; [intro; apply Hresult|]; lia|].
  unaffected_seq; [apply unaffected_expect|apply unaffected_ret].
Qed.

Lemma results_list_unaffected n more m closer self :
  result_unaffected n -> comma_prefixed_results_unaffected n -> n <= m ->
  unaffected more
    (first <- _result n ;;
     others <- _comma_prefixed_results n closer ;;
     ret ([first] ++ others))
    (first <- _result m ;;
     others <- _comma_prefixed_results m closer ;;
     ret ([first] ++ others)) self.
Proof.
  intros Hresult Hcpr Hm.
  unaffected_seq; [now apply Hresult|].
  unaffected_seq; [now apply Hcpr|apply unaffected_ret].
Qed.

Lemma list_results_unaffected_step n :
  result_unaffected n -> comma_prefixed_results_unaffected n ->
  list_results_unaffected (S n).
Proof.
  intros Hresult Hcpr more m self Hm.
  destruct m as [|m]; [lia|]. rewrite !_list_results_unfold.
  apply results_list_unaffected; auto; lia.
Qed.

Lemma tuple_unaffected_step n :
  result_unaffected n -> comma_prefixed_results_unaffected n ->
  tuple_unaffected (S n).
Proof.
  intros Hresult Hcpr more m self Hm.
  destruct m as [|m]; [lia|]. rewrite !_tuple_unfold.
  unaffected_seq; [apply unaffected_expect|].
  apply unaffected_bind; [apply unaffected_accept|intros closed ? _].
  destruct closed; [apply unaffected_ret|].
  apply results_list_unaffected; auto; lia.
Qed.

(** No grammar rule that returns before the tokens are exhausted depends on
    what follows, nor on a larger recursion budget. *)
Lemma grammar_unaffected n :
  value_unaffected n /\ list_unaffected n /\ list_values_unaffected n /\
  list_results_unaffected n /\ tuple_unaffected n /\ result_unaffected n /\
  comma_prefixed_results_unaffected n.
Proof.
  induction n as [|n (Hv & Hl & Hlv & Hlr & Ht & Hr & Hc)].
  - repeat split; repeat intro;
      match goal with H : _ = Ok _ |- _ => discriminate H end.
  - repeat apply conj.
    + now apply value_unaffected_step.
    + now apply list_unaffected_step.
    + now apply list_values_unaffected_step.
    + now apply list_results_unaffected_step.
    + now apply tuple_unaffected_step.
    + now apply result_unaffected_step.
    + now apply comma_prefixed_results_unaffected_step.
Qed.

Lemma async_output_unaffected more n m prefix self :
  n <= m ->
  unaffected more (_async_output n prefix) (_async_output m prefix) self.
Proof.
  intros Hm. unfold _async_output.
  unaffected_seq; [apply unaffected_token_maybe|].
  unaffected_seq; [apply unaffected_expect|].
  unaffected_seq; [apply unaffected_string|].
  unaffected_seq; [|apply unaffected_ret].
  destruct (grammar_unaffected n) as (_ & _ & _ & _ & _ & _ & Hcpr).
  now apply Hcpr.
Qed.

Lemma stream_output_unaffected more pedantic prefix self :
  unaffected more (_stream_output pedantic prefix)
    (_stream_output pedantic prefix) self.
Proof.
  unfold _stream_output.
  unaffected_seq; [apply unaffected_expect|].
  unaffected_seq; [apply unaffected_cstring|].
  unaffected_seq; [|apply unaffected_ret].
  destruct pedantic; simpl; [apply unaffected_ret|].
  unaffected_seq; [apply unaffected_accept|apply unaffected_ret].
Qed.

Lemma out_of_band_record_unaffected more pedantic n m self :
  n <= m ->
  unaffected more (_out_of_band_record pedantic n)
    (_out_of_band_record pedantic m) self.
Proof.
  intros Hm. unfold _out_of_band_record. apply unaffected_dispatch.
  destruct (peek self) as [[]|]; try (intros a s Hr; discriminate Hr);
    first [ now apply async_output_unaffected
          | apply stream_output_unaffected ].
Qed.

Lemma result_record_unaffected more n m self :
  n <= m -> unaffected more (_result_record n) (_result_record m) self.
Proof.
  intros Hm. unfold _result_record.
  unaffected_seq; [apply unaffected_token_maybe|].
  unaffected_seq; [apply unaffected_expect|].
  unaffected_seq; [apply unaffected_string|].
  apply unaffected_bind; [apply unaffected_check|intros has_results ? _].
  unaffected_seq.
  - destruct has_results; [|apply unaffected_ret].
    unaffected_seq; [|apply unaffected_ret].
    destruct (grammar_unaffected n) as (_ & _ & _ & _ & _ & _ & Hcpr).
    now apply Hcpr.
  - unaffected_seq; [apply unaffected_expect|apply unaffected_ret].
Qed.

Lemma neither_caret_nor_prompt_unaffected more self :
  unaffected more neither_caret_nor_prompt neither_caret_nor_prompt self.
Proof.
  unfold neither_caret_nor_prompt.
  apply unaffected_bind; [apply unaffected_check|intros caret ? _].
  destruct caret; [apply unaffected_ret|].
  unaffected_seq; [apply unaffected_check|apply unaffected_ret].
Qed.

Lemma not_prompt_unaffected more self :
  unaffected more not_prompt not_prompt self.
Proof.
  unfold not_prompt.
  unaffected_seq; [apply unaffected_check|apply unaffected_ret].
Qed.

Lemma same_result_bind {A B} more (m1 m2 : M A) (k1 k2 : A -> M B) self :
  unaffected more m1 m2 self ->
  (forall a self', m1 self = Ok (a, self') ->
                   same_result more (k1 a) (k2 a) self') ->
  same_result more (bind m1 k1) (bind m2 k2) self.
Proof.
  intros Hm Hk b self'' Hr. unfold bind in Hr.
  destruct (m1 self) as [[a self']|e] eqn:H1; [|discriminate].
  destruct (Hm a self' H1) as [Hs1 He1].
  destruct (Hk a self' eq_refl b self'' Hr) as [Hne [s Hs]].
  split.
  - intro Hnil. apply size_stream in Hnil. apply Hne, size_stream. lia.
  - exists s. unfold bind. now rewrite (He1 Hne).
Qed.

Lemma same_result_expect {A} more expected (a : A) self :
  same_result more (_expect expected ;;; ret a) (_expect expected ;;; ret a)
    self.
Proof.
  intros a' self' Hr. apply bind_returns in Hr.
  destruct Hr as (t & self1 & Hexp & Hret). inversion Hret; subst.
  pose proof (expect_returns _ _ _ _ Hexp) as Hat.
  destruct (at_kind_true _ _ Hat) as (t' & Ht & Hk).
  split; [rewrite (stream_advanced _ _ Ht); discriminate|].
  exists (advanced (extended more self)). unfold bind.
  now rewrite (expect_forward _ (extended more self) t' Ht Hk).
Qed.

Lemma output_same_result more pedantic n m self :
  n <= m -> same_result more (_output pedantic n) (_output pedantic m) self.
Proof.
  intro Hm. unfold _output.
  apply same_result_bind.
  { apply unaffected_while; [| |exact Hm].
    - intro. apply neither_caret_nor_prompt_unaffected.
    - intro. now apply out_of_band_record_unaffected. }
  intros oobs self1 _.
  apply same_result_bind; [apply unaffected_check|].
  intros caret self2 _.
  apply same_result_bind.
  { destruct caret; [|apply unaffected_ret].
    unaffected_seq; [now apply result_record_unaffected|apply unaffected_ret]. }
  intros res self3 _.
  apply same_result_bind.
  { destruct pedantic; simpl; [apply unaffected_ret|].
    apply unaffected_while; [| |exact Hm].
    - intro. apply not_prompt_unaffected.
    - intro. now apply out_of_band_record_unaffected. }
  intros oobs' self4 _.
  apply same_result_bind; [apply unaffected_expect|].
  intros t self5 _. apply same_result_expect.
Qed.

Lemma budget_app tokens more : budget tokens <= budget (tokens ++ more).
Proof. unfold budget. rewrite length_app. lia. Qed.

(** ** The shape of the values returned *)

Lemma returns_ret {A} (a : A) self (Q : A -> parser -> Prop) :
  Q a self -> returns (ret a) self Q.
Proof. intros H a' self' Hr. inversion Hr; subst. exact H. Qed.

Lemma returns_bind {A B} (m : M A) (k : A -> M B) self
    (P : A -> parser -> Prop) (Q : B -> parser -> Prop) :
  returns m self P ->
  (forall a self', P a self' -> returns (k a) self' Q) ->
  returns (bind m k) self Q.
Proof.
  intros Hm Hk b self'' Hr. apply bind_returns in Hr.
  destruct Hr as (a & self' & H1 & H2).
  exact (Hk a self' (Hm a self' H1) b self'' H2).
Qed.

Lemma returns_weaken {A} (m : M A) self (P Q : A -> parser -> Prop) :
  returns m self P -> (forall a self', P a self' -> Q a self') ->
  returns m self Q.
Proof. intros Hm HPQ a self' Hr. exact (HPQ _ _ (Hm a self' Hr)). Qed.

Lemma returns_anything {A} (m : M A) self : returns m self (fun _ _ => True).
Proof. intros a self' _. exact I. Qed.

Lemma returns_failed {A} (e : syntax_error) self (Q : A -> parser -> Prop) :
  returns (error e) self Q.
Proof. intros a self' Hr. discriminate Hr. Qed.

Lemma returns_check expected self :
  returns (_check expected) self
    (fun b self' => b = at_kind expected self /\ self' = self).
Proof.
  intros b self' Hr.
  change (Ok (at_kind expected self, self) = Ok (b, self')) in Hr.
  inversion Hr; auto.
Qed.

Lemma returns_lookahead_kind self :
  returns _lookahead_kind self (fun k self' => k = peek self /\ self' = self).
Proof.
  intros k self' Hr. change (Ok (peek self, self) = Ok (k, self')) in Hr.
  inversion Hr; auto.
Qed.

Lemma returns_expect expected self :
  returns (_expect expected) self
    (fun t _ => kind_of t = expected /\ at_kind expected self = true).
Proof.
  intros t self' Hr. pose proof (expect_returns _ _ _ _ Hr) as Hat.
  destruct (at_kind_true _ _ Hat) as (t' & Ht & Hk).
  rewrite (expect_forward _ _ _ Ht Hk) in Hr. inversion Hr; subst. auto.
Qed.

Lemma returns_token_maybe self :
  at_kind TOKEN self = false ->
  returns _token_maybe self (fun id self' => id = None /\ self' = self).
Proof.
  intros Hat id self' Hr. unfold _token_maybe, bind in Hr.
  rewrite (accept_refused _ _ Hat) in Hr. inversion Hr; auto.
Qed.

Lemma returns_while {A} (cond : M bool) (body : M A) (P : A -> Prop) :
  (forall self, returns body self (fun x _ => P x)) ->
  forall n acc self,
    Forall P acc ->
    returns (while_append n cond body acc) self (fun l _ => Forall P l).
Proof.
  intros Hbody n.
  induction n as [|n IH]; intros acc self Hacc; [discriminate|].
  cbn [while_append].
  apply (returns_bind _ _ _ (fun _ _ => True)); [apply returns_anything|].
  intros b self1 _. destruct b; [|now apply returns_ret].
  apply (returns_bind _ _ _ (fun x _ => P x)); [apply Hbody|].
  intros x self2 Hx. apply IH. apply Forall_app. auto.
Qed.

(** A loop that starts with its condition true returns a list that is not
    empty. *)
Lemma returns_while_nonempty {A} (cond : M bool) (body : M A) n self :
  (exists self', cond self = Ok (true, self')) ->
  returns (while_append n cond body []) self (fun l _ => l <> []).
Proof.
  assert (Hgrow : forall k acc start,
            returns (while_append k cond body acc) start
              (fun l _ => length acc <= length l)).
  { intro k.
    induction k as [|k IH]; intros acc start; [discriminate|].
    cbn [while_append].
    apply (returns_bind _ _ _ (fun _ _ => True)); [apply returns_anything|].
    intros b self1 _. destruct b; [|now apply returns_ret].
    apply (returns_bind _ _ _ (fun _ _ => True)); [apply returns_anything|].
    intros x self2 _. eapply returns_weaken; [apply IH|].
    intros l s Hl. rewrite length_app in Hl. simpl in Hl. lia. }
  intros [self1 Hcond] l self' Hr.
  destruct n as [|n]; [discriminate|]. cbn [while_append] in Hr.
  unfold bind at 1 in Hr. rewrite Hcond in Hr.
  apply bind_returns in Hr. destruct Hr as (x & self2 & _ & Hr).
  apply Hgrow in Hr. simpl in Hr. destruct l; [simpl in Hr; lia|discriminate].
Qed.

Lemma is_result_list items :
  Forall is_result items -> well_formed_results items = true.
Proof.
  unfold well_formed_results. induction 1 as [|x l [Hd Hw] _ IH];
    [reflexivity|].
  apply andb_true_iff in IH. destruct IH as [IH1 IH2].
  simpl. now rewrite Hd, Hw, IH1, IH2.
Qed.

Lemma is_value_list items :
  Forall is_value items ->
  forallb (fun x => negb (is_dict x)) items && forallb well_formed items = true.
Proof.
  induction 1 as [|x l [Hd Hw] _ IH]; [reflexivity|].
  apply andb_true_iff in IH. destruct IH as [IH1 IH2].
  simpl. now rewrite Hd, Hw, IH1, IH2.
Qed.

Lemma results_list_well_formed items :
  Forall is_result items -> well_formed (PList items) = true.
Proof.
  intro H. apply is_result_list in H. unfold well_formed_results in H.
  apply andb_true_iff in H. destruct H as [H1 H2].
  cbn [well_formed]. fold well_formed. now rewrite H1, H2.
Qed.

Lemma values_list_well_formed items :
  Forall is_value items -> well_formed (PList items) = true.
Proof.
  intro H. apply is_value_list in H.
  apply andb_true_iff in H. destruct H as [H1 H2].
  cbn [well_formed]. fold well_formed. rewrite H1, H2.
  now rewrite orb_true_r.
Qed.

Lemma value_shape_step n : list_shape n -> tuple_shape n -> value_shape (S n).
Proof.
  intros Hlist Htuple self. rewrite _value_unfold.
  apply (returns_bind _ _ _ (fun _ _ => True)); [apply returns_anything|].
  intros marker self1 _.
  destruct marker as [[]|]; try apply returns_failed.
  - eapply returns_bind; [apply Hlist|].
    intros items self2 Hw. apply returns_ret. now split.
  - eapply returns_bind; [apply Htuple|].
    intros items self2 Hw. apply returns_ret.
    split; [reflexivity|now apply results_list_well_formed].
  - apply (returns_bind _ _ _ (fun _ _ => True)); [apply returns_anything|].
    intros s self2 _. apply returns_ret. now split.
Qed.

Lemma list_shape_step n :
  list_values_shape n -> list_results_shape n -> list_shape (S n).
Proof.
  intros Hvalues Hresults self. rewrite _list_unfold.
  apply (returns_bind _ _ _ (fun _ _ => True)); [apply returns_anything|].
  intros t self1 _.
  apply (returns_bind _ _ _ (fun _ _ => True)); [apply returns_anything|].
  intros closed self2 _. destruct closed; [now apply returns_ret|].
  apply (returns_bind _ _ _ (fun _ _ => True)); [apply returns_anything|].
  intros named self3 _. destruct named.
  - eapply returns_weaken; [apply Hresults|].
    intros items s. apply results_list_well_formed.
  - eapply returns_weaken; [apply Hvalues|].
    intros items s. apply values_list_well_formed.
Qed.

Lemma comma_loop_shape (body : M pyobj) (P : pyobj -> Prop) n acc self :
  (forall self', returns body self' (fun x _ => P x)) ->
  Forall P acc ->
  returns (while_append n (_check COMMA) (_expect COMMA ;;; body) acc) self
    (fun l _ => Forall P l).
Proof.
  intros Hbody Hacc. apply returns_while; [|exact Hacc].
  intro self1.
  apply (returns_bind _ _ _ (fun _ _ => True)); [apply returns_anything|].
  intros t self2 _. apply Hbody.
Qed.

Lemma list_values_shape_step n : value_shape n -> list_values_shape (S n).
Proof.
  intros Hvalue self. rewrite _list_values_unfold.
  eapply returns_bind; [apply Hvalue|]. intros first self1 Hfirst.
  eapply returns_bind; [apply comma_loop_shape; [exact Hvalue|]|].
  { constructor; [exact Hfirst|constructor]. }
  intros values self2 Hvalues.
  apply (returns_bind _ _ _ (fun _ _ => True)); [apply returns_anything|].
  intros t self3 _. now apply returns_ret.
Qed.

Lemma result_shape_step n : value_shape n -> result_shape (S n).
Proof.
  intros Hvalue self. rewrite _result_unfold.
  apply (returns_bind _ _ _ (fun _ _ => True)); [apply returns_anything|].
  intros name self1 _.
  apply (returns_bind _ _ _ (fun _ _ => True)); [apply returns_anything|].
  intros t self2 _.
  eapply returns_bind; [apply Hvalue|]. intros v self3 [Hd Hw].
  apply returns_ret. split; [reflexivity|]. simpl. now rewrite Hd, Hw.
Qed.

Lemma comma_prefixed_results_shape_step n :
  result_shape n -> comma_prefixed_results_shape (S n).
Proof.
  intros Hresult closer self. rewrite _comma_prefixed_results_unfold.
  eapply returns_bind; [apply comma_loop_shape; [exact Hresult|constructor]|].
  intros rs self1 Hrs.
  apply (returns_bind _ _ _ (fun _ _ => True)); [apply returns_anything|].
  intros t self2 _. now apply returns_ret.
Qed.

Lemma results_list_shape n closer self :
  result_shape n -> comma_prefixed_results_shape n ->
  returns
    (first <- _result n ;;
     others <- _comma_prefixed_results n closer ;;
     ret ([first] ++ others)) self
    (fun items _ => Forall is_result items).
Proof.
  intros Hresult Hcpr.
  eapply returns_bind; [apply Hresult|]. intros first self1 Hfirst.
  eapply returns_bind; [apply Hcpr|]. intros others self2 Hothers.
  apply returns_ret. now constructor.
Qed.

Lemma list_results_shape_step n :
  result_shape n -> comma_prefixed_results_shape n ->
  list_results_shape (S n).
Proof.
  intros Hresult Hcpr self. rewrite _list_results_unfold.
  now apply results_list_shape.
Qed.

Lemma tuple_shape_step n :
  result_shape n -> comma_prefixed_results_shape n -> tuple_shape (S n).
Proof.
  intros Hresult Hcpr self. rewrite _tuple_unfold.
  apply (returns_bind _ _ _ (fun _ _ => True)); [apply returns_anything|].
  intros t self1 _.
  apply (returns_bind _ _ _ (fun _ _ => True)); [apply returns_anything|].
  intros closed self2 _. destruct closed; [now apply returns_ret|].
  now apply results_list_shape.
Qed.

(** The values every grammar rule returns are well formed. *)
Lemma grammar_shape n :
  value_shape n /\ list_shape n /\ list_values_shape n /\
  list_results_shape n /\ tuple_shape n /\ result_shape n /\
  comma_prefixed_results_shape n.
Proof.
  induction n as [|n (Hv & Hl & Hlv & Hlr & Ht & Hr & Hc)].
  - repeat apply conj; repeat intro;
      match goal with H : _ = Ok _ |- _ => discriminate H end.
  - repeat apply conj.
    + now apply value_shape_step.
    + now apply list_shape_step.
    + now apply list_values_shape_step.
    + now apply list_results_shape_step.
    + now apply tuple_shape_step.
    + now apply result_shape_step.
    + now apply comma_prefixed_results_shape_step.
Qed.

Lemma at_kind_other k k' self :
  peek self = Some k -> k <> k' -> at_kind k' self = false.
Proof.
  intros Hp Hne. unfold at_kind. rewrite Hp.
  destruct (kind_eqb k k') eqn:Hk; [|reflexivity].
  apply kind_eqb_eq in Hk. congruence.
Qed.

Lemma check_true expected self :
  at_kind expected self = true ->
  exists self', _check expected self = Ok (true, self').
Proof.
  intro H. exists self.
  change (_check expected self)
    with (@Ok (bool * parser) (at_kind expected self, self)).
  now rewrite H.
Qed.

Lemma async_output_shape n prefix self :
  peek self = Some prefix -> is_async_sigil prefix = true ->
  returns (_async_output n prefix) self
    (fun r _ => well_formed_oob r = true).
Proof.
  intros Hp Hsigil. unfold _async_output.
  eapply returns_bind.
  { apply returns_token_maybe. apply (at_kind_other prefix); [exact Hp|].
    intros ->. discriminate Hsigil. }
  intros id self1 [-> ->].
  eapply returns_bind; [apply returns_expect|]. intros sigil self2 [Hk _].
  apply (returns_bind _ _ _ (fun _ _ => True)); [apply returns_anything|].
  intros cls self3 _.
  destruct (grammar_shape n) as (_ & _ & _ & _ & _ & _ & Hcpr).
  eapply returns_bind; [apply Hcpr|]. intros rs self4 Hrs.
  apply returns_ret. simpl. rewrite (is_result_list _ Hrs).
  subst prefix. destruct sigil; try discriminate Hsigil; reflexivity.
Qed.

Lemma stream_output_shape pedantic prefix self :
  is_stream_sigil prefix = true ->
  returns (_stream_output pedantic prefix) self
    (fun r _ => well_formed_oob r = true).
Proof.
  intros Hsigil. unfold _stream_output.
  eapply returns_bind; [apply returns_expect|]. intros sigil self1 [Hk _].
  apply (returns_bind _ _ _ (fun _ _ => True)); [apply returns_anything|].
  intros text self2 _.
  apply (returns_bind _ _ _ (fun _ _ => True)); [apply returns_anything|].
  intros u self3 _. apply returns_ret. simpl.
  subst prefix. destruct sigil; try discriminate Hsigil; reflexivity.
Qed.

Lemma out_of_band_record_shape pedantic n self :
  returns (_out_of_band_record pedantic n) self
    (fun r _ => well_formed_oob r = true).
Proof.
  unfold _out_of_band_record.
  eapply returns_bind; [apply returns_lookahead_kind|].
  intros marker self1 [-> ->].
  destruct (peek self) as [[]|] eqn:Hp; try apply returns_failed;
    first [ now apply async_output_shape | now apply stream_output_shape ].
Qed.

Lemma result_record_shape n self :
  at_kind CARET self = true ->
  returns (_result_record n) self
    (fun r _ => well_formed_result_record (Some r) = true).
Proof.
  intros Hat. unfold _result_record.
  eapply returns_bind.
  { apply returns_token_maybe. apply at_kind_peek in Hat.
    apply (at_kind_other CARET); [exact Hat|discriminate]. }
  intros id self1 [-> ->].
  apply (returns_bind _ _ _ (fun _ _ => True)); [apply returns_anything|].
  intros t self2 _.
  apply (returns_bind _ _ _ (fun _ _ => True)); [apply returns_anything|].
  intros cls self3 _.
  eapply returns_bind; [apply returns_check|]. intros b self4 [-> ->].
  apply (returns_bind _ _ _
           (fun rs _ => well_formed_result_record (Some (None, cls, rs))
                        = true)).
  - destruct (at_kind COMMA self3) eqn:Hcomma; [|now apply returns_ret].
    intros rs self5 Hr. apply bind_returns in Hr.
    destruct Hr as (l & self6 & Hl & Hret). inversion Hret; subst.
    destruct (grammar_shape n) as (_ & _ & _ & _ & _ & _ & Hcpr).
    pose proof (Hcpr NL self3 l self5 Hl) as Hshape. simpl in Hshape.
    simpl. rewrite (is_result_list _ Hshape), andb_true_r.
    destruct n as [|n]; [discriminate Hl|].
    rewrite _comma_prefixed_results_unfold in Hl.
    apply bind_returns in Hl. destruct Hl as (l' & self7 & Hloop & Hrest).
    apply bind_returns in Hrest. destruct Hrest as (t' & self8 & _ & Hret').
    inversion Hret'; subst.
    assert (Hne : l <> []).
    { apply (returns_while_nonempty _ _ _ _ (check_true _ _ Hcomma)
               _ _ Hloop). }
    destruct l; [congruence|reflexivity].
  - intros rs self5 Hw.
    apply (returns_bind _ _ _ (fun _ _ => True)); [apply returns_anything|].
    intros t' self6 _. now apply returns_ret.
Qed.

Lemma output_shape pedantic n self :
  returns (_output pedantic n) self
    (fun doc _ => well_formed_document doc = true).
Proof.
  unfold _output.
  eapply returns_bind.
  { apply (returns_while _ _ (fun r => well_formed_oob r = true));
      [|constructor].
    intro. apply out_of_band_record_shape. }
  intros oobs self1 Hoobs.
  eapply returns_bind; [apply returns_check|]. intros b self2 [-> ->].
  apply (returns_bind _ _ _
           (fun r _ => well_formed_result_record r = true)).
  { destruct (at_kind CARET self1) eqn:Hat; [|now apply returns_ret].
    eapply returns_bind; [now apply result_record_shape|].
    intros r self3 Hr. now apply returns_ret. }
  intros res self3 Hres.
  apply (returns_bind _ _ _
           (fun l _ => Forall (fun r => well_formed_oob r = true) l)).
  { destruct pedantic; simpl; [now apply returns_ret|].
    apply returns_while; [|exact Hoobs].
    intro. apply out_of_band_record_shape. }
  intros oobs' self4 Hoobs'.
  apply (returns_bind _ _ _ (fun _ _ => True)); [apply returns_anything|].
  intros t self5 _.
  apply (returns_bind _ _ _ (fun _ _ => True)); [apply returns_anything|].
  intros t' self6 _. apply returns_ret.
  unfold well_formed_document. simpl. rewrite Hres, andb_true_r.
  apply forallb_forall. now apply Forall_forall.
Qed.

(** ** Reading the spelling of a document *)

Lemma spell_PList braces items :
  spell braces (PList items) =
  if braces && forallb is_dict items
  then TLBRACE :: spell_items braces items ++ [TRBRACE]
  else TLBRACKET :: spell_items braces items ++ [TRBRACKET].
Proof.
  destruct items; cbn [spell]; destruct (braces && forallb is_dict _);
    reflexivity.
Qed.

Lemma stream_at_kind self t s expected :
  stream self = t :: s ->
  at_kind expected self = kind_eqb (kind_of t) expected.
Proof. intro H. apply at_kind_token. now apply stream_token in H. Qed.

Lemma stream_peek self t s :
  stream self = t :: s -> peek self = Some (kind_of t).
Proof. intro H. apply stream_token in H. unfold peek. now rewrite H. Qed.

Lemma stream_after self t s :
  stream self = t :: s -> stream (advanced self) = s.
Proof.
  intro H. pose proof (stream_advanced _ _ (stream_token _ _ _ H)) as Ha.
  congruence.
Qed.

Section Reading.

Context {A : Type}.
Variable Q : A -> parser -> Prop.

(** A rule that reads its tokens, followed by what reads the rest. *)
Lemma wpg_reads {B} (m : M B) (k : B -> M A) ts b rest self :
  reads m ts b ->
  stream self = ts ++ rest ->
  (forall self',
     stream self' = rest -> wpg True (k b) Q (fun _ => False) self') ->
  wpg True (bind m k) Q (fun _ => False) self.
Proof.
  intros Hm Hs Hk. apply wpg_bind.
  eapply wpg_weaken; [apply (Hm rest self Hs) | auto | | auto].
  intros b' self' [-> Hs']. now apply Hk.
Qed.

(** A rule that reads its tokens, and what holds afterwards. *)
Lemma wpg_read (m : M A) ts a rest self :
  reads m ts a ->
  stream self = ts ++ rest ->
  (forall self', stream self' = rest -> Q a self') ->
  wpg True m Q (fun _ => False) self.
Proof.
  intros Hm Hs HQ.
  eapply wpg_weaken; [apply (Hm rest self Hs) | auto | | auto].
  intros a' self' [-> Hs']. now apply HQ.
Qed.

End Reading.

Lemma wpg_expect_token {F E} (Q : token -> parser -> Prop) self t s :
  stream self = t :: s ->
  (forall self', stream self' = s -> Q t self') ->
  wpg F (_expect (kind_of t)) Q E self.
Proof.
  intros Hs HQ. unfold wpg.
  rewrite (expect_forward _ _ _ (stream_token _ _ _ Hs) eq_refl).
  apply HQ. now apply (stream_after _ t).
Qed.

Lemma wpg_accept_token {F E} (Q : option token -> parser -> Prop) self t s :
  stream self = t :: s ->
  (forall self', stream self' = s -> Q (Some t) self') ->
  wpg F (_accept (kind_of t)) Q E self.
Proof.
  intros Hs HQ. unfold wpg.
  rewrite (accept_forward _ _ _ (stream_token _ _ _ Hs) eq_refl).
  apply HQ. now apply (stream_after _ t).
Qed.

Lemma wpg_accept_other {F E} (Q : option token -> parser -> Prop)
    expected self :
  at_kind expected self = false -> Q None self ->
  wpg F (_accept expected) Q E self.
Proof. intros Hat HQ. unfold wpg. now rewrite (accept_refused _ _ Hat). Qed.

Lemma reads_expect t : reads (_expect (kind_of t)) [t] t.
Proof.
  intros rest self Hs. apply (wpg_expect_token _ self t rest Hs). auto.
Qed.

Lemma reads_string s : reads _string [TSTRING s] s.
Proof.
  intros rest self Hs. unfold _string.
  apply (wpg_reads _ _ _ _ _ _ _ (reads_expect (TSTRING s)) Hs).
  intros self' Hs'. now apply wpg_ret.
Qed.

Lemma reads_cstring u : reads _cstring [TCSTRING u] u.
Proof.
  intros rest self Hs. unfold _cstring.
  apply (wpg_reads _ _ _ _ _ _ _ (reads_expect (TCSTRING u)) Hs).
  intros self' Hs'. now apply wpg_ret.
Qed.

(** The numeric id is not there. *)
Lemma wpg_no_token {F E} (Q : option Z -> parser -> Prop) self :
  at_kind TOKEN self = false -> Q None self -> wpg F _token_maybe Q E self.
Proof.
  intros Hat HQ. apply wpg_token_maybe; [|auto].
  intros n self' Hs. rewrite (stream_at_kind _ _ _ _ Hs) in Hat.
  discriminate Hat.
Qed.

Lemma forallb_Forall_true {A} (p : A -> bool) l :
  forallb p l = true <-> Forall (fun x => p x = true) l.
Proof. rewrite forallb_forall, Forall_forall. reflexivity. Qed.

Lemma Forall_is_result items :
  forallb is_dict items = true -> forallb well_formed items = true ->
  Forall is_result items.
Proof.
  rewrite !forallb_Forall_true. intros Hd Hw.
  induction items as [|x items IH]; constructor;
    inversion Hd; inversion Hw; subst.
  - now split.
  - now apply IH.
Qed.

Lemma Forall_is_value items :
  forallb (fun x => negb (is_dict x)) items = true ->
  forallb well_formed items = true ->
  Forall is_value items.
Proof.
  rewrite !forallb_Forall_true. intros Hd Hw.
  induction items as [|x items IH]; constructor;
    inversion Hd; inversion Hw; subst.
  - split; [now apply negb_true_iff|assumption].
  - now apply IH.
Qed.

(** The first token of a named result, and of a value. *)
Lemma spell_result_head braces v :
  is_dict v = true -> exists name s, spell braces v = TSTRING name :: s.
Proof. destruct v; try discriminate. intros _. simpl. eauto. Qed.

Lemma spell_value_head braces v :
  is_dict v = false ->
  exists t s, spell braces v = t :: s /\
              (kind_of t = CSTRING \/ kind_of t = LBRACKET \/
               kind_of t = LBRACE).
Proof.
  destruct v as [u|items|name v]; try discriminate; intros _.
  - simpl. eauto 6.
  - rewrite spell_PList. destruct (braces && forallb is_dict items);
      eexists _, _; (split; [reflexivity|]); simpl; auto.
Qed.

(** The loop [while self._check("COMMA"): self._expect("COMMA");
    acc.append(body())] on a run of [, item] groups that no comma
    follows. *)
Lemma comma_loop_reads braces (body : M pyobj) (P : pyobj -> Prop) :
  (forall x, P x -> reads body (spell braces x) x) ->
  forall l k acc rest self,
    Forall P l ->
    stream self = spell_after_commas braces l ++ rest ->
    (forall s, rest <> TCOMMA :: s) ->
    wpg True (while_append k (_check COMMA) (_expect COMMA ;;; body) acc)
      (fun res self' => res = acc ++ l /\ stream self' = rest)
      (fun _ => False) self.
Proof.
  intros Hbody l.
  induction l as [|x l IH]; intros k acc rest self Hl Hs Hrest;
    (destruct k as [|k]; [exact I|]); cbn [while_append];
    apply wpg_bind, wpg_check.
  - simpl in Hs.
    assert (Hat : at_kind COMMA self = false).
    { destruct rest as [|t s].
      - now apply at_kind_at_end.
      - rewrite (stream_at_kind _ _ _ _ Hs).
        destruct t; try reflexivity. now destruct (Hrest s). }
    rewrite Hat. apply wpg_ret. now rewrite app_nil_r.
  - inversion Hl as [|x' l' Hx Hl']; subst.
    change (spell_after_commas braces (x :: l))
      with (TCOMMA :: spell braces x ++ spell_after_commas braces l) in Hs.
    simpl in Hs. rewrite <- app_assoc in Hs.
    rewrite (stream_at_kind _ _ _ _ Hs). simpl.
    apply wpg_bind.
    apply (wpg_reads _ _ _ _ _ _ _ (reads_expect TCOMMA) Hs).
    intros self1 Hs1.
    apply (wpg_read _ _ _ _ _ _ (Hbody x Hx) Hs1).
    intros self2 Hs2.
    eapply wpg_weaken; [apply (IH k (acc ++ [x]) rest self2 Hl' Hs2 Hrest)
                       | auto | | auto].
    intros res self3 [-> Hs3]. now rewrite <- app_assoc.
Qed.

Lemma value_reads_step braces n :
  list_reads braces n -> tuple_reads braces n -> value_reads braces (S n).
Proof.
  intros Hlist Htuple v [Hd Hw] rest self Hs. rewrite _value_unfold.
  apply wpg_bind, wpg_lookahead_kind.
  destruct v as [u|items|name v]; [| |discriminate Hd].
  - rewrite (stream_peek _ _ _ Hs). simpl.
    apply (wpg_reads _ _ _ _ _ _ _ (reads_cstring u) Hs).
    intros self' Hs'. now apply wpg_ret.
  - rewrite spell_PList in Hs.
    destruct (braces && forallb is_dict items) eqn:Hb.
    + rewrite (stream_peek _ _ _ Hs). simpl.
      apply andb_true_iff in Hb. destruct Hb as [_ Hb].
      cbn [well_formed] in Hw. apply andb_true_iff in Hw.
      destruct Hw as [_ Hw].
      apply (wpg_reads _ _ _ _ _ _ _
               (Htuple items (Forall_is_result _ Hb Hw)) Hs).
      intros self' Hs'. now apply wpg_ret.
    + rewrite (stream_peek _ _ _ Hs). simpl.
      apply (wpg_reads _ _ _ _ _ _ _ (Hlist items Hw) Hs).
      intros self' Hs'. now apply wpg_ret.
Qed.

Lemma result_reads_step braces n :
  value_reads braces n -> result_reads braces (S n).
Proof.
  intros Hvalue v [Hd Hw] rest self Hs. rewrite _result_unfold.
  destruct v as [u|items|name v]; try discriminate Hd.
  cbn [well_formed] in Hw. apply andb_true_iff in Hw.
  destruct Hw as [Hv Hw]. apply negb_true_iff in Hv.
  cbn [spell] in Hs.
  apply (wpg_reads _ _ _ _ _ (TEQUALS :: spell braces v ++ rest) _
           (reads_string name) Hs).
  intros self1 Hs1.
  apply (wpg_reads _ _ _ _ _ (spell braces v ++ rest) _
           (reads_expect TEQUALS) Hs1).
  intros self2 Hs2.
  apply (wpg_reads _ _ _ _ _ _ _ (Hvalue v (conj Hv Hw)) Hs2).
  intros self3 Hs3. now apply wpg_ret.
Qed.

Lemma comma_prefixed_results_reads_step braces n :
  result_reads braces n -> comma_prefixed_results_reads braces (S n).
Proof.
  intros Hresult closer rs Hrs Hcloser rest self Hs.
  rewrite _comma_prefixed_results_unfold. rewrite <- app_assoc in Hs.
  apply wpg_bind.
  eapply wpg_weaken;
    [apply (comma_loop_reads braces (_result n) is_result Hresult rs n []
              ([closer] ++ rest) self Hrs Hs)
    | auto | | auto].
  - intros s Heq. inversion Heq; subst. now apply Hcloser.
  - intros res self1 [-> Hs1]. simpl in Hs1.
    apply (wpg_reads _ _ _ _ _ rest _ (reads_expect closer) Hs1).
    intros self2 Hs2. now apply wpg_ret.
Qed.

Lemma results_list_reads braces n closer x items :
  result_reads braces n -> comma_prefixed_results_reads braces n ->
  Forall is_result (x :: items) -> kind_of closer <> COMMA ->
  reads
    (first <- _result n ;;
     others <- _comma_prefixed_results n (kind_of closer) ;;
     ret ([first] ++ others))
    (spell_items braces (x :: items) ++ [closer]) (x :: items).
Proof.
  intros Hresult Hcpr Hall Hcloser rest self Hs.
  inversion Hall as [|x' l' Hx Hitems]; subst.
  cbn [spell_items] in Hs. rewrite <- !app_assoc in Hs.
  apply (wpg_reads _ _ _ _ _ _ _ (Hresult x Hx) Hs).
  intros self1 Hs1. rewrite app_assoc in Hs1.
  apply (wpg_reads _ _ _ _ _ _ _ (Hcpr closer items Hitems Hcloser) Hs1).
  intros self2 Hs2. now apply wpg_ret.
Qed.

Lemma list_results_reads_step braces n :
  result_reads braces n -> comma_prefixed_results_reads braces n ->
  list_results_reads braces (S n).
Proof.
  intros Hresult Hcpr x items Hall. rewrite _list_results_unfold.
  apply (results_list_reads braces n TRBRACKET); auto. discriminate.
Qed.

Lemma list_values_reads_step braces n :
  value_reads braces n -> list_values_reads braces (S n).
Proof.
  intros Hvalue x items Hall rest self Hs. rewrite _list_values_unfold.
  inversion Hall as [|x' l' Hx Hitems]; subst.
  cbn [spell_items] in Hs. rewrite <- !app_assoc in Hs.
  apply (wpg_reads _ _ _ _ _ _ _ (Hvalue x Hx) Hs).
  intros self1 Hs1. apply wpg_bind.
  eapply wpg_weaken;
    [apply (comma_loop_reads braces (_value n) is_value Hvalue items n [x]
              ([TRBRACKET] ++ rest) self1 Hitems Hs1)
    | auto | | auto].
  - intros s Heq. discriminate Heq.
  - intros res self2 [-> Hs2].
    apply (wpg_reads _ _ _ _ _ rest _ (reads_expect TRBRACKET) Hs2).
    intros self3 Hs3. now apply wpg_ret.
Qed.

Lemma tuple_reads_step braces n :
  result_reads braces n -> comma_prefixed_results_reads braces n ->
  tuple_reads braces (S n).
Proof.
  intros Hresult Hcpr items Hall rest self Hs. rewrite _tuple_unfold.
  apply (wpg_reads _ _ _ _ _
           ((spell_items braces items ++ [TRBRACE]) ++ rest) _
           (reads_expect TLBRACE) Hs).
  intros self1 Hs1. apply wpg_bind.
  destruct items as [|x items].
  - apply (wpg_accept_token _ self1 TRBRACE rest Hs1).
    intros self2 Hs2. now apply wpg_ret.
  - inversion Hall as [|x' l' [Hd Hw] _]; subst.
    destruct (spell_result_head braces x Hd) as (name & s & Hhead).
    apply wpg_accept_other.
    { cbn [spell_items] in Hs1. rewrite Hhead in Hs1. simpl in Hs1.
      now rewrite (stream_at_kind _ _ _ _ Hs1). }
    now apply (results_list_reads braces n TRBRACE x items Hresult Hcpr Hall).
Qed.

Lemma list_reads_step braces n :
  list_values_reads braces n -> list_results_reads braces n ->
  list_reads braces (S n).
Proof.
  intros Hvalues Hresults items Hw rest self Hs. rewrite _list_unfold.
  apply (wpg_reads _ _ _ _ _
           ((spell_items braces items ++ [TRBRACKET]) ++ rest) _
           (reads_expect TLBRACKET) Hs).
  intros self1 Hs1. apply wpg_bind.
  destruct items as [|x items].
  - apply (wpg_accept_token _ self1 TRBRACKET rest Hs1).
    intros self2 Hs2. now apply wpg_ret.
  - cbn [well_formed] in Hw. apply andb_true_iff in Hw.
    destruct Hw as [Hkind Hw].
    destruct (is_dict x) eqn:Hd.
    + destruct (spell_result_head braces x Hd) as (name & s & Hhead).
      assert (Hs1' : stream self1 =
                     TSTRING name ::
                     s ++ spell_after_commas braces items ++
                     [TRBRACKET] ++ rest).
      { rewrite Hs1. cbn [spell_items]. rewrite Hhead.
        simpl. now rewrite <- !app_assoc. }
      apply wpg_accept_other; [now rewrite (stream_at_kind _ _ _ _ Hs1')|].
      apply wpg_bind, wpg_check. rewrite (stream_at_kind _ _ _ _ Hs1').
      simpl. apply (Hresults x items); [|exact Hs1].
      apply Forall_is_result; [|exact Hw].
      apply orb_true_iff in Hkind. destruct Hkind as [H|H]; [exact H|].
      simpl in H. rewrite Hd in H. discriminate H.
    + destruct (spell_value_head braces x Hd) as (t & s & Hhead & Hk).
      assert (Hs1' : stream self1 =
                     t :: s ++ spell_after_commas braces items ++
                     [TRBRACKET] ++ rest).
      { rewrite Hs1. cbn [spell_items]. rewrite Hhead.
        simpl. now rewrite <- !app_assoc. }
      apply wpg_accept_other.
      { rewrite (stream_at_kind _ _ _ _ Hs1').
        destruct Hk as [-> | [-> | ->]]; reflexivity. }
      apply wpg_bind, wpg_check. rewrite (stream_at_kind _ _ _ _ Hs1').
      replace (kind_eqb (kind_of t) STRING) with false
        by (destruct Hk as [-> | [-> | ->]]; reflexivity).
      apply (Hvalues x items); [|exact Hs1].
      apply Forall_is_value; [|exact Hw].
      apply orb_true_iff in Hkind. destruct Hkind as [H|H]; [|exact H].
      simpl in H. rewrite Hd in H. discriminate H.
Qed.

(** Every grammar rule reads the spelling of a well-formed value and returns
    the value. *)
Lemma grammar_reads braces n :
  value_reads braces n /\ list_reads braces n /\
  list_values_reads braces n /\ list_results_reads braces n /\
  tuple_reads braces n /\ result_reads braces n /\
  comma_prefixed_results_reads braces n.
Proof.
  induction n as [|n (Hv & Hl & Hlv & Hlr & Ht & Hr & Hc)].
  - repeat apply conj; repeat intro; exact I.
  - repeat apply conj.
    + now apply value_reads_step.
    + now apply list_reads_step.
    + now apply list_values_reads_step.
    + now apply list_results_reads_step.
    + now apply tuple_reads_step.
    + now apply result_reads_step.
    + now apply comma_prefixed_results_reads_step.
Qed.

Lemma async_output_reads braces n t async_class results :
  kind_of t <> TOKEN -> Forall is_result results ->
  reads (_async_output n (kind_of t))
    (t :: TSTRING async_class ::
     spell_after_commas braces results ++ [TNL])
    (AsyncRecord None (token_text t) async_class results).
Proof.
  intros Hk Hall rest self Hs. unfold _async_output. simpl in Hs.
  apply wpg_bind, wpg_no_token.
  { rewrite (stream_at_kind _ _ _ _ Hs).
    destruct (kind_eqb (kind_of t) TOKEN) eqn:Heq; [|reflexivity].
    now apply kind_eqb_eq in Heq. }
  apply (wpg_reads _ _ _ _ _ _ _ (reads_expect t) Hs).
  intros self1 Hs1.
  apply (wpg_reads _ _ _ _ _ _ _ (reads_string async_class) Hs1).
  intros self2 Hs2.
  destruct (grammar_reads braces n) as (_ & _ & _ & _ & _ & _ & Hcpr).
  assert (Hnl : kind_of TNL <> COMMA) by discriminate.
  apply (wpg_reads _ _ _ _ _ _ _ (Hcpr TNL results Hall Hnl) Hs2).
  intros self3 Hs3. now apply wpg_ret.
Qed.

Lemma stream_output_reads pedantic t text :
  reads (_stream_output pedantic (kind_of t))
    (t :: TCSTRING text :: (if pedantic then [] else [TNL]))
    (StreamRecord (token_text t) text).
Proof.
  intros rest self Hs. unfold _stream_output. simpl in Hs.
  apply (wpg_reads _ _ _ _ _ _ _ (reads_expect t) Hs).
  intros self1 Hs1.
  apply (wpg_reads _ _ _ _ _ _ _ (reads_cstring text) Hs1).
  intros self2 Hs2. apply wpg_bind.
  destruct pedantic; simpl in Hs2 |- *.
  - apply wpg_ret. now apply wpg_ret.
  - apply wpg_bind. apply (wpg_accept_token _ self2 TNL rest Hs2).
    intros self3 Hs3. apply wpg_ret. now apply wpg_ret.
Qed.

Lemma one_of_three a b c sigil :
  one_of [a; b; c] sigil = true -> sigil = a \/ sigil = b \/ sigil = c.
Proof.
  unfold one_of. simpl. rewrite !orb_true_iff, !String.eqb_eq.
  intuition discriminate.
Qed.

Lemma out_of_band_record_reads braces pedantic n r :
  well_formed_oob r = true ->
  reads (_out_of_band_record pedantic n) (spell_oob braces pedantic r) r.
Proof.
  intros Hw rest self Hs. unfold _out_of_band_record.
  apply wpg_bind, wpg_lookahead_kind.
  destruct r as [id sigil async_class results|sigil text]; simpl in Hw.
  - apply andb_true_iff in Hw. destruct Hw as [Hw Hresults].
    apply andb_true_iff in Hw. destruct Hw as [Hid Hsigil].
    destruct id; [discriminate Hid|].
    unfold well_formed_results in Hresults.
    apply andb_true_iff in Hresults. destruct Hresults as [Hd Hwf].
    pose proof (Forall_is_result _ Hd Hwf) as Hall.
    destruct (one_of_three _ _ _ _ Hsigil) as [-> | [-> | ->]];
      rewrite (stream_peek _ _ _ Hs); simpl.
    + refine (async_output_reads braces n TASTERISK _ _ _ Hall _ _ Hs).
      discriminate.
    + refine (async_output_reads braces n TPLUS _ _ _ Hall _ _ Hs).
      discriminate.
    + refine (async_output_reads braces n TEQUALS _ _ _ Hall _ _ Hs).
      discriminate.
  - destruct (one_of_three _ _ _ _ Hw) as [-> | [-> | ->]];
      rewrite (stream_peek _ _ _ Hs); simpl.
    + exact (stream_output_reads pedantic TTILDE text _ _ Hs).
    + exact (stream_output_reads pedantic TAT text _ _ Hs).
    + exact (stream_output_reads pedantic TAMPERSAND text _ _ Hs).
Qed.

(** The first token of a record is its sigil. *)
Lemma spell_oob_head braces pedantic r :
  well_formed_oob r = true ->
  exists t s, spell_oob braces pedantic r = t :: s /\
              kind_eqb (kind_of t) CARET = false /\
              kind_eqb (kind_of t) PROMPT = false.
Proof.
  destruct r as [id sigil async_class results|sigil text]; simpl; intro Hw.
  - apply andb_true_iff in Hw. destruct Hw as [Hw _].
    apply andb_true_iff in Hw. destruct Hw as [_ Hsigil].
    destruct (one_of_three _ _ _ _ Hsigil) as [-> | [-> | ->]];
      eexists _, _; repeat split.
  - destruct (one_of_three _ _ _ _ Hw) as [-> | [-> | ->]];
      eexists _, _; repeat split.
Qed.

(** The first loop of [_output] on the records before a caret or the
    prompt. *)
Lemma oob_loop_reads braces pedantic n l :
  forall k acc t s self,
    Forall (fun r => well_formed_oob r = true) l ->
    stream self = spell_oobs braces pedantic l ++ t :: s ->
    kind_of t = CARET \/ kind_of t = PROMPT ->
    wpg True
      (while_append k neither_caret_nor_prompt
         (_out_of_band_record pedantic n) acc)
      (fun res self' => res = acc ++ l /\ stream self' = t :: s)
      (fun _ => False) self.
Proof.
  induction l as [|r l IH]; intros k acc t s self Hl Hs Ht;
    (destruct k as [|k]; [exact I|]); unfold wpg;
    rewrite (while_append_step _ _ _ _ _ _
               (neither_caret_nor_prompt_eval self)).
  - simpl in Hs. rewrite !(stream_at_kind _ _ _ _ Hs).
    replace (kind_eqb (kind_of t) CARET || kind_eqb (kind_of t) PROMPT)
      with true by (destruct Ht as [-> | ->]; reflexivity).
    simpl. now rewrite app_nil_r.
  - inversion Hl as [|r' l' Hr Hl']; subst.
    destruct (spell_oob_head braces pedantic r Hr)
      as (t' & s' & Hhead & Hc & Hp).
    change (spell_oobs braces pedantic (r :: l))
      with (spell_oob braces pedantic r ++ spell_oobs braces pedantic l) in Hs.
    rewrite <- app_assoc in Hs.
    assert (Hs' : stream self =
                  t' :: s' ++ spell_oobs braces pedantic l ++ t :: s).
    { now rewrite Hs, Hhead. }
    rewrite !(stream_at_kind _ _ _ _ Hs'), Hc, Hp. simpl.
    apply (wpg_reads _ _ _ _ _ _ _
             (out_of_band_record_reads braces pedantic n r Hr) Hs).
    intros self1 Hs1.
    eapply wpg_weaken; [apply (IH k (acc ++ [r]) t s self1 Hl' Hs1 Ht)
                       | auto | | auto].
    intros res self2 [-> Hs2]. now rewrite <- app_assoc.
Qed.

(** The second loop of [_output] at the prompt. *)
Lemma prompt_loop_stops {A} (body : M A) k acc s self :
  stream self = TPROMPT :: s ->
  wpg True (while_append k not_prompt body acc)
    (fun res self' => res = acc /\ self' = self) (fun _ => False) self.
Proof.
  intro Hs. destruct k as [|k]; [exact I|]. unfold wpg.
  rewrite (while_append_step _ _ _ _ _ _ (not_prompt_eval self)).
  rewrite (stream_at_kind _ _ _ _ Hs). simpl. auto.
Qed.

Lemma result_record_reads braces n r :
  well_formed_result_record (Some r) = true ->
  reads (_result_record n) (spell_result_record braces (Some r)) r.
Proof.
  destruct r as [[id result_class] results]. intros Hw rest self Hs.
  unfold _result_record.
  assert (Hid : id = None).
  { simpl in Hw. destruct results; destruct id; auto; discriminate Hw. }
  subst id.
  assert (Hs' : exists s, stream self = TCARET :: TSTRING result_class :: s).
  { destruct results; simpl in Hs; eauto. }
  destruct Hs' as [s Hs'].
  apply wpg_bind, wpg_no_token; [now rewrite (stream_at_kind _ _ _ _ Hs')|].
  destruct results as [rs|]; simpl in Hw, Hs.
  - apply andb_true_iff in Hw. destruct Hw as [Hne Hrs].
    unfold well_formed_results in Hrs.
    apply andb_true_iff in Hrs. destruct Hrs as [Hd Hwf].
    pose proof (Forall_is_result _ Hd Hwf) as Hall.
    apply (wpg_reads _ _ _ _ _ _ _ (reads_expect TCARET) Hs).
    intros self1 Hs1.
    apply (wpg_reads _ _ _ _ _ _ _ (reads_string result_class) Hs1).
    intros self2 Hs2.
    apply wpg_bind, wpg_check.
    destruct rs as [|x rs]; [discriminate Hne|].
    assert (Hc : at_kind COMMA self2 = true).
    { simpl in Hs2. now rewrite (stream_at_kind _ _ _ _ Hs2). }
    rewrite Hc. apply wpg_bind.
    destruct (grammar_reads braces n) as (_ & _ & _ & _ & _ & _ & Hcpr).
    assert (Hnl : kind_of TNL <> COMMA) by discriminate.
    assert (Hs2' : stream self2 =
                   (spell_after_commas braces (x :: rs) ++ [TNL]) ++
                   TNL :: rest).
    { rewrite Hs2, <- !app_assoc. reflexivity. }
    apply (wpg_reads _ _ _ _ _ _ _ (Hcpr TNL (x :: rs) Hall Hnl) Hs2').
    intros self3 Hs3. apply wpg_ret.
    apply (wpg_reads _ _ _ _ _ rest _ (reads_expect TNL) Hs3).
    intros self4 Hs4. now apply wpg_ret.
  - apply (wpg_reads _ _ _ _ _ _ _ (reads_expect TCARET) Hs).
    intros self1 Hs1.
    apply (wpg_reads _ _ _ _ _ _ _ (reads_string result_class) Hs1).
    intros self2 Hs2.
    apply wpg_bind, wpg_check. rewrite (stream_at_kind _ _ _ _ Hs2). simpl.
    apply wpg_bind, wpg_ret.
    apply (wpg_reads _ _ _ _ _ rest _ (reads_expect TNL) Hs2).
    intros self3 Hs3. now apply wpg_ret.
Qed.

Lemma output_reads braces pedantic n doc :
  well_formed_document doc = true ->
  reads (_output pedantic n) (spell_document braces pedantic doc) doc.
Proof.
  destruct doc as [oobs res]. unfold well_formed_document. simpl.
  intros Hw rest self Hs. apply andb_true_iff in Hw.
  destruct Hw as [Hoobs Hres]. apply forallb_Forall_true in Hoobs.
  unfold spell_document in Hs. simpl in Hs. rewrite <- !app_assoc in Hs.
  assert (Hnext : exists t s,
            spell_result_record braces res ++ [TPROMPT; TNL] ++ rest = t :: s
            /\ (kind_of t = CARET \/ kind_of t = PROMPT)).
  { destruct res as [[[id cls] [rs|]]|]; simpl; eauto 6. }
  destruct Hnext as (t & s & Hnext & Ht). rewrite Hnext in Hs.
  unfold _output. apply wpg_bind.
  eapply wpg_weaken;
    [apply (oob_loop_reads braces pedantic n oobs n [] t s self Hoobs Hs Ht)
    | auto | | auto].
  intros acc self1 [-> Hs1]. simpl. rewrite <- Hnext in Hs1.
  apply wpg_bind, wpg_check.
  assert (Htail : forall res' self2,
            res' = res -> stream self2 = [TPROMPT; TNL] ++ rest ->
            wpg True
              (oob_records <- (if negb pedantic
                               then while_append n not_prompt
                                      (_out_of_band_record pedantic n) oobs
                               else ret oobs) ;;
               _expect PROMPT ;;;
               _expect NL ;;;
               ret (oob_records, res'))
              (fun a' self' => a' = (oobs, res) /\ stream self' = rest)
              (fun _ => False) self2).
  { intros res' self2 -> Hs2. apply wpg_bind.
    assert (Hprompt :
              wpg True (_expect PROMPT ;;; _expect NL ;;; ret (oobs, res))
                (fun a' self' => a' = (oobs, res) /\ stream self' = rest)
                (fun _ => False) self2).
    { apply (wpg_reads _ _ _ _ _ _ _ (reads_expect TPROMPT) Hs2).
      intros self3 Hs3.
      apply (wpg_reads _ _ _ _ _ rest _ (reads_expect TNL) Hs3).
      intros self4 Hs4. now apply wpg_ret. }
    destruct pedantic; simpl; [exact Hprompt|].
    eapply wpg_weaken; [apply (prompt_loop_stops _ n oobs _ self2 Hs2)
                       | auto | | auto].
    intros res' self3 [-> ->]. exact Hprompt. }
  destruct res as [r|].
  - assert (Hc : at_kind CARET self1 = true).
    { destruct r as [[id cls] [rs|]]; simpl in Hs1;
        now rewrite (stream_at_kind _ _ _ _ Hs1). }
    rewrite Hc. apply wpg_bind.
    apply (wpg_reads _ _ _ _ _ _ _ (result_record_reads braces n r Hres) Hs1).
    intros self2 Hs2. apply wpg_ret. now apply Htail.
  - simpl in Hs1. rewrite (stream_at_kind _ _ _ _ Hs1). simpl.
    apply wpg_bind, wpg_ret. now apply Htail.
Qed.

Lemma spell_document_nonempty braces pedantic doc :
  spell_document braces pedantic doc <> [].
Proof.
  unfold spell_document.
  destruct (spell_oobs braces pedantic (fst doc)); [|discriminate].
  destruct (spell_result_record braces (snd doc)); discriminate.
Qed.

(** What [_output] reads and returns, [MIParser.parse] returns. *)
Lemma MIParser_parse_reads tokens pedantic doc :
  tokens <> [] ->
  reads (_output pedantic (budget tokens)) tokens doc ->
  MIParser_parse tokens pedantic = Ok doc.
Proof.
  intros Hne Hreads.
  pose proof (MIParser_parse_outcome tokens pedantic) as Hout.
  destruct tokens as [|t ts]; [congruence|].
  assert (Hs : stream (Parser (Some t) ts) = (t :: ts) ++ []).
  { now rewrite app_nil_r. }
  pose proof (Hreads _ _ Hs) as Hrun.
  unfold MIParser_parse in *. unfold wpg in Hrun.
  destruct (_output pedantic (budget (t :: ts)) (Parser (Some t) ts))
    as [[doc' self']|[]]; try contradiction.
  now destruct Hrun as [-> _].
Qed.

(** ** Scanning the text of a spelled document *)

Lemma plain_text_of_codepoints u :
  forallb plain_codepoint u = true ->
  plain (text_of_codepoints u) = true /\
  codepoints (text_of_codepoints u) = u.
Proof.
  induction u as [|n u IH]; simpl; [auto|].
  intro H. apply andb_true_iff in H. destruct H as [Hn Hu].
  destruct (IH Hu) as [Hp Hc]. unfold plain_codepoint in Hn.
  rewrite !andb_true_iff, !negb_true_iff in Hn.
  destruct Hn as [[Hlt Hq] Hb].
  apply N.ltb_lt in Hlt. apply N.eqb_neq in Hq, Hb.
  assert (Hcode : code (ascii_of_N n) = n).
  { unfold code. apply N_ascii_embedding. lia. }
  rewrite Hc, Hcode. split; [|reflexivity].
  rewrite Hp, andb_true_r. unfold plain_char. rewrite Hcode.
  rewrite !andb_true_iff, !negb_true_iff, N.ltb_lt.
  repeat split; [| |exact Hlt].
  - apply Ascii.eqb_neq. intro Heq. apply Hq.
    rewrite <- Hcode, Heq. reflexivity.
  - apply Ascii.eqb_neq. intro Heq. apply Hb.
    rewrite <- Hcode, Heq. reflexivity.
Qed.

Lemma span_all p s rest :
  all_chars p s = true ->
  match rest with
  | "" => True
  | String c _ => p c = false
  end ->
  span p (s ++ rest)%string = (s, rest).
Proof.
  intros Hs Hrest. induction s as [|c s IH]; simpl.
  - destruct rest as [|c rest]; [reflexivity|]. simpl. now rewrite Hrest.
  - simpl in Hs. apply andb_true_iff in Hs. destruct Hs as [Hc Hs].
    now rewrite Hc, (IH Hs).
Qed.

Lemma ident_start_rules c :
  is_ident_start c = true ->
  is_digit c = false /\ Ascii.eqb LF c = false /\ Ascii.eqb "(" c = false.
Proof.
  destruct c as [[] [] [] [] [] [] [] []]; intro H;
    try discriminate H; repeat split.
Qed.

Lemma first_match_identifier names s rest :
  identifier s = true ->
  match rest with
  | "" => True
  | String c _ => is_ident_char c = false
  end ->
  first_match (lexicon names) (s ++ rest)%string =
  Some ((fun t => Ok (TSTRING t)) : action, s, rest).
Proof.
  intros Hs Hrest. destruct s as [|c s]; [discriminate Hs|].
  simpl in Hs. apply andb_true_iff in Hs. destruct Hs as [Hc Hs].
  destruct (ident_start_rules c Hc) as (Hd & Hnl & Hp).
  unfold lexicon. cbn [first_match append].
  unfold re_digits. cbn [span]. rewrite Hd.
  unfold nl. cbn [re_literal]. rewrite Hnl, Hp.
  unfold re_identifier. rewrite Hc, (span_all _ _ _ Hs Hrest). reflexivity.
Qed.

Lemma first_match_cstring names u rest :
  forallb plain_codepoint u = true ->
  first_match (lexicon names) (source (TCSTRING u) ++ rest)%string =
  Some (cstring_token names, source (TCSTRING u), rest) /\
  cstring_token names (source (TCSTRING u)) = Ok (TCSTRING u).
Proof.
  intro Hu. destruct (plain_text_of_codepoints u Hu) as [Hp Hc].
  change (source (TCSTRING u))
    with (String DQUOTE (text_of_codepoints u ++ dq)%string).
  cbn [append]. split.
  - apply first_match_quoted. rewrite <- string_app_assoc.
    rewrite (re_cstring_body_plain _ _ Hp). reflexivity.
  - unfold cstring_token, decode_string.
    rewrite strip_ends_quoted, (codepoints_plain_decode names _ Hp), Hc.
    reflexivity.
Qed.

(** The first character of the text of a token that does not continue an
    identifier. *)
Lemma write_head t ts :
  continues_identifier t = false -> scannable (t :: ts) = true ->
  match write (t :: ts) with
  | "" => True
  | String c _ => is_ident_char c = false
  end.
Proof.
  intros Ht Hs. destruct t; try discriminate Ht; try exact eq_refl.
Qed.

(** The scanner reads back the text of a scannable token sequence. *)
Lemma scan_write names ts :
  scannable ts = true -> mi_scanner_scan names (write ts) = Ok (ts, "").
Proof.
  induction ts as [|t ts IH]; [reflexivity|].
  intro Hs. cbn [scannable] in Hs. apply andb_true_iff in Hs.
  destruct Hs as [Ht Hts]. specialize (IH Hts). cbn [write].
  assert (Hstep : forall act,
            first_match (lexicon names) (source t ++ write ts)%string =
            Some (act, source t, write ts) ->
            act (source t) = Ok t ->
            mi_scanner_scan names (source t ++ write ts)%string =
            Ok (t :: ts, "")).
  { intros act Hm Hact.
    rewrite (mi_scanner_scan_step names _ act _ _ t Hm Hact), IH.
    reflexivity. }
  destruct t; try discriminate Ht;
    try (match goal with
         | |- mi_scanner_scan _ (source ?t ++ _)%string = _ =>
             apply (Hstep (fun _ => Ok t)); reflexivity
         end).
  - apply andb_true_iff in Ht. destruct Ht as [Hid Hnext].
    apply (Hstep (fun t => Ok (TSTRING t))); [|reflexivity].
    apply first_match_identifier; [exact Hid|].
    destruct ts as [|t' ts']; [exact I|].
    apply negb_true_iff in Hnext. now apply write_head.
  - destruct (first_match_cstring names decoded (write ts) Ht) as [Hm Hact].
    now apply (Hstep (cstring_token names)).
Qed.

Lemma after_commas_scannable braces items :
  Forall (fun v => writable v = true ->
                   forall rest, scannable rest = true ->
                                scannable (spell braces v ++ rest) = true)
    items ->
  forallb writable items = true ->
  forall rest,
    scannable rest = true ->
    scannable (spell_after_commas braces items ++ rest) = true.
Proof.
  induction 1 as [|x items Hx _ IH]; intros Hw rest Hrest; [exact Hrest|].
  simpl in Hw. apply andb_true_iff in Hw. destruct Hw as [Hwx Hw].
  change (spell_after_commas braces (x :: items))
    with (TCOMMA :: spell braces x ++ spell_after_commas braces items).
  simpl. rewrite <- app_assoc. apply (Hx Hwx). now apply IH.
Qed.

Lemma spell_scannable braces v :
  writable v = true ->
  forall rest, scannable rest = true ->
               scannable (spell braces v ++ rest) = true.
Proof.
  induction v as [u|items IH|name v IH] using pyobj_induction;
    intros Hw rest Hrest.
  - simpl in Hw |- *. now rewrite Hw, Hrest.
  - rewrite spell_PList. cbn [writable] in Hw.
    assert (Hitems : forall close,
              scannable (close :: rest) = true ->
              scannable (spell_items braces items ++ close :: rest) = true).
    { intros close Hclose. destruct items as [|x items]; [exact Hclose|].
      inversion IH as [|x' l' Hx Hl]; subst.
      simpl in Hw. apply andb_true_iff in Hw. destruct Hw as [Hwx Hw].
      cbn [spell_items]. rewrite <- app_assoc. apply (Hx Hwx).
      now apply after_commas_scannable. }
    destruct (braces && forallb is_dict items);
      simpl; rewrite <- app_assoc; now apply Hitems.
  - cbn [writable] in Hw. apply andb_true_iff in Hw.
    destruct Hw as [Hname Hv]. simpl. rewrite Hname. simpl.
    now apply IH.
Qed.

Lemma results_scannable braces rs rest :
  forallb writable rs = true -> scannable rest = true ->
  scannable (spell_after_commas braces rs ++ rest) = true.
Proof.
  intros Hw Hrest. apply after_commas_scannable; [|exact Hw|exact Hrest].
  apply Forall_forall. intros v _. apply spell_scannable.
Qed.

(** A class name, its results and the newline. *)
Lemma class_scannable braces name rs rest :
  identifier name = true -> forallb writable rs = true ->
  scannable rest = true ->
  scannable (TSTRING name :: spell_after_commas braces rs ++ TNL :: rest)
  = true.
Proof.
  intros Hname Hrs Hrest.
  assert (Htail : scannable (spell_after_commas braces rs ++ TNL :: rest)
                  = true).
  { apply results_scannable; [exact Hrs|exact Hrest]. }
  cbn [scannable]. rewrite Hname, Htail.
  destruct rs; reflexivity.
Qed.

Lemma spell_oob_scannable braces pedantic r rest :
  well_formed_oob r = true -> writable_oob r = true ->
  scannable rest = true ->
  scannable (spell_oob braces pedantic r ++ rest) = true.
Proof.
  intros Hwf Hw Hrest.
  destruct r as [id sigil async_class results|sigil text];
    simpl in Hwf, Hw.
  - apply andb_true_iff in Hwf. destruct Hwf as [Hwf _].
    apply andb_true_iff in Hwf. destruct Hwf as [_ Hsigil].
    apply andb_true_iff in Hw. destruct Hw as [Hclass Hresults].
    pose proof (class_scannable braces async_class results rest Hclass
                  Hresults Hrest) as Hline.
    cbn [spell_oob app]. rewrite <- app_assoc. cbn [app].
    destruct (one_of_three _ _ _ _ Hsigil) as [-> | [-> | ->]];
      exact Hline.
  - cbn [spell_oob].
    destruct (one_of_three _ _ _ _ Hwf) as [-> | [-> | ->]];
      destruct pedantic; simpl; now rewrite Hw, Hrest.
Qed.

Lemma spell_oobs_scannable braces pedantic rs rest :
  forallb well_formed_oob rs = true -> forallb writable_oob rs = true ->
  scannable rest = true ->
  scannable (spell_oobs braces pedantic rs ++ rest) = true.
Proof.
  intros Hwf Hw Hrest. induction rs as [|r rs IH]; [exact Hrest|].
  simpl in Hwf, Hw. apply andb_true_iff in Hwf, Hw.
  destruct Hwf as [Hwfr Hwf]. destruct Hw as [Hwr Hw].
  change (spell_oobs braces pedantic (r :: rs))
    with (spell_oob braces pedantic r ++ spell_oobs braces pedantic rs).
  rewrite <- app_assoc. apply spell_oob_scannable; auto.
Qed.

Lemma spell_result_record_scannable braces r rest :
  writable_result_record r = true -> scannable rest = true ->
  scannable (spell_result_record braces r ++ rest) = true.
Proof.
  intros Hw Hrest. destruct r as [[[id result_class] [rs|]]|];
    simpl in Hw; [| |exact Hrest].
  - apply andb_true_iff in Hw. destruct Hw as [Hclass Hrs].
    cbn [spell_result_record app]. rewrite <- app_assoc. cbn [app].
    apply (class_scannable braces result_class rs (TNL :: rest) Hclass Hrs).
    exact Hrest.
  - simpl. now rewrite Hw, Hrest.
Qed.

Lemma spell_document_scannable braces pedantic doc :
  well_formed_document doc = true -> writable_document doc = true ->
  scannable (spell_document braces pedantic doc) = true.
Proof.
  unfold well_formed_document, writable_document, spell_document.
  intros Hwf Hw. apply andb_true_iff in Hwf, Hw.
  destruct Hwf as [Hwf _]. destruct Hw as [Hoobs Hres].
  apply spell_oobs_scannable; [exact Hwf|exact Hoobs|].
  now apply spell_result_record_scannable.
Qed.

(** ** Spelled records that the parser rejects *)

(** A rule that reads its tokens, followed by what may fail on the rest. *)
Lemma wpg_reads_then {A B} (Q : A -> parser -> Prop)
    (E : syntax_error -> Prop) (m : M B) (k : B -> M A) ts b rest self :
  reads m ts b ->
  stream self = ts ++ rest ->
  (forall self', stream self' = rest -> wpg True (k b) Q E self') ->
  wpg True (bind m k) Q E self.
Proof.
  intros Hm Hs Hk. apply wpg_bind.
  eapply wpg_weaken; [apply (Hm rest self Hs) | auto | | contradiction].
  intros b' self' [-> Hs']. now apply Hk.
Qed.

Lemma fails_bind {A B} e (m : M B) (k : B -> M A) self :
  fails_with e m self -> fails_with e (bind m k) self.
Proof.
  intro H. apply wpg_bind.
  eapply wpg_weaken; [exact H | auto | contradiction | auto].
Qed.

Lemma expect_fails {A} expected (k : token -> M A) self t s :
  stream self = t :: s -> kind_of t <> expected ->
  fails_with (ExpectedGot expected (Some (kind_of t)))
    (bind (_expect expected) k) self.
Proof.
  intros Hs Hk. apply wpg_bind, wpg_expect.
  - intros t' self' Hk' Hs'. rewrite Hs in Hs'. inversion Hs'; subst.
    now destruct Hk.
  - intros _. now rewrite (stream_peek _ _ _ Hs).
Qed.

(** What [_output] fails with, [MIParser.parse] raises. *)
Lemma MIParser_parse_fails tokens pedantic e :
  tokens <> [] ->
  (forall self, stream self = tokens ->
                fails_with e (_output pedantic (budget tokens)) self) ->
  MIParser_parse tokens pedantic = Raise (SyntaxError e).
Proof.
  intros Hne Hfails.
  pose proof (MIParser_parse_outcome tokens pedantic) as Hout.
  destruct tokens as [|t ts]; [congruence|].
  pose proof (Hfails (Parser (Some t) ts) eq_refl) as Hrun.
  unfold MIParser_parse in *. unfold fails_with, wpg in Hrun.
  destruct (_output pedantic (budget (t :: ts)) (Parser (Some t) ts))
    as [[doc' self']|[]]; try contradiction.
  now subst.
Qed.

(** The first loop of [_output] on records that another record follows. *)
Lemma oob_loop_fails braces pedantic n e l :
  forall k acc rest self,
    Forall (fun r => well_formed_oob r = true) l ->
    stream self = spell_oobs braces pedantic l ++ rest ->
    (forall k' acc' self',
       stream self' = rest ->
       fails_with e
         (while_append k' neither_caret_nor_prompt
            (_out_of_band_record pedantic n) acc') self') ->
    fails_with e
      (while_append k neither_caret_nor_prompt
         (_out_of_band_record pedantic n) acc) self.
Proof.
  induction l as [|r l IH]; intros k acc rest self Hl Hs Hrest;
    [now apply Hrest|].
  destruct k as [|k]; [exact I|]. unfold fails_with, wpg.
  rewrite (while_append_step _ _ _ _ _ _
             (neither_caret_nor_prompt_eval self)).
  inversion Hl as [|r' l' Hr Hl']; subst.
  destruct (spell_oob_head braces pedantic r Hr)
    as (t' & s' & Hhead & Hc & Hp).
  change (spell_oobs braces pedantic (r :: l))
    with (spell_oob braces pedantic r ++ spell_oobs braces pedantic l) in Hs.
  rewrite <- app_assoc in Hs.
  assert (Hs' : stream self =
                t' :: s' ++ spell_oobs braces pedantic l ++ rest).
  { now rewrite Hs, Hhead. }
  rewrite !(stream_at_kind _ _ _ _ Hs'), Hc, Hp. simpl.
  apply (wpg_reads_then _ _ _ _ _ _ _ _
           (out_of_band_record_reads braces pedantic n r Hr) Hs).
  intros self1 Hs1. now apply (IH k (acc ++ [r]) rest self1 Hl' Hs1).
Qed.

Lemma result_record_fails braces n result_class rs t more self :
  well_formed_results rs = true -> rs <> [] -> kind_of t <> NL ->
  stream self =
    TCARET :: TSTRING result_class ::
    spell_after_commas braces rs ++ TNL :: t :: more ->
  fails_with (ExpectedGot NL (Some (kind_of t))) (_result_record n) self.
Proof.
  intros Hrs Hne Ht Hs. unfold _result_record.
  unfold well_formed_results in Hrs.
  apply andb_true_iff in Hrs. destruct Hrs as [Hd Hwf].
  pose proof (Forall_is_result _ Hd Hwf) as Hall.
  apply wpg_bind, wpg_no_token; [now rewrite (stream_at_kind _ _ _ _ Hs)|].
  change (TCARET :: TSTRING result_class ::
          spell_after_commas braces rs ++ TNL :: t :: more)
    with ([TCARET] ++ TSTRING result_class ::
          spell_after_commas braces rs ++ TNL :: t :: more) in Hs.
  apply (wpg_reads_then _ _ _ _ _ _ _ _ (reads_expect TCARET) Hs).
  intros self1 Hs1.
  change (TSTRING result_class ::
          spell_after_commas braces rs ++ TNL :: t :: more)
    with ([TSTRING result_class] ++
          spell_after_commas braces rs ++ TNL :: t :: more) in Hs1.
  apply (wpg_reads_then _ _ _ _ _ _ _ _ (reads_string result_class) Hs1).
  intros self2 Hs2.
  apply wpg_bind, wpg_check.
  destruct rs as [|x rs]; [congruence|].
  assert (Hc : at_kind COMMA self2 = true).
  { simpl in Hs2. now rewrite (stream_at_kind _ _ _ _ Hs2). }
  rewrite Hc. apply wpg_bind.
  destruct (grammar_reads braces n) as (_ & _ & _ & _ & _ & _ & Hcpr).
  assert (Hnl : kind_of TNL <> COMMA) by discriminate.
  assert (Hs2' : stream self2 =
                 (spell_after_commas braces (x :: rs) ++ [TNL]) ++ t :: more).
  { rewrite Hs2, <- !app_assoc. reflexivity. }
  apply (wpg_reads_then _ _ _ _ _ _ _ _ (Hcpr TNL (x :: rs) Hall Hnl) Hs2').
  intros self3 Hs3. apply wpg_ret.
  now apply (expect_fails NL _ self3 t more).
Qed.

(** In pedantic mode the token after the result record must be the prompt. *)
Lemma output_fails_after_the_result braces n before r t more self :
  Forall (fun r => well_formed_oob r = true) before ->
  well_formed_result_record (Some r) = true ->
  kind_of t <> PROMPT ->
  stream self =
    spell_oobs braces true before ++
    spell_result_record braces (Some r) ++ t :: more ->
  fails_with (ExpectedGot PROMPT (Some (kind_of t))) (_output true n) self.
Proof.
  intros Hb Hr Ht Hs.
  assert (Hnext : exists s,
            spell_result_record braces (Some r) ++ t :: more = TCARET :: s).
  { destruct r as [[id cls] [rs|]]; simpl; eauto. }
  destruct Hnext as [s Hnext]. rewrite Hnext in Hs.
  unfold _output. apply wpg_bind.
  eapply wpg_weaken;
    [apply (oob_loop_reads braces true n before n [] TCARET s self Hb Hs);
     now left
    | auto | | contradiction].
  intros acc self1 [-> Hs1]. simpl app.
  apply wpg_bind, wpg_check.
  rewrite (stream_at_kind _ _ _ _ Hs1). simpl kind_eqb. cbv iota.
  rewrite <- Hnext in Hs1.
  apply wpg_bind.
  apply (wpg_reads_then _ _ _ _ _ _ _ _ (result_record_reads braces n r Hr)
           Hs1).
  intros self2 Hs2. apply wpg_ret. cbn [negb]. apply wpg_bind, wpg_ret.
  now apply (expect_fails PROMPT _ self2 t more).
Qed.

(** ** Numeric ids among the tokens read *)

Lemma count_token_canon ts :
  count_kind TOKEN (canon_all ts) = count_kind TOKEN ts.
Proof.
  induction ts as [|t ts IH]; [reflexivity|].
  change (canon_all (t :: ts)) with (canon t ++ canon_all ts).
  change (t :: ts) with ([t] ++ ts).
  rewrite !count_kind_app, IH. f_equal. destruct t; reflexivity.
Qed.

Lemma count_token_comma_prefixed rs :
  Forall (fun v => count_kind TOKEN (render v) = 0) rs ->
  count_kind TOKEN (comma_prefixed rs) = 0.
Proof.
  intro H. induction H as [|r rs Hr _ IH]; [reflexivity|].
  change (comma_prefixed (r :: rs))
    with ([TCOMMA] ++ render r ++ comma_prefixed rs).
  now rewrite !count_kind_app, Hr, IH.
Qed.

Lemma count_token_render v : count_kind TOKEN (render v) = 0.
Proof.
  induction v as [u|items IH|name v IH] using pyobj_induction.
  - reflexivity.
  - rewrite render_PList.
    change (TLBRACKET :: render_items items ++ [TRBRACKET])
      with ([TLBRACKET] ++ render_items items ++ [TRBRACKET]).
    rewrite !count_kind_app.
    assert (count_kind TOKEN (render_items items) = 0) as ->.
    { destruct IH as [|x rest Hx Hrest]; [reflexivity|].
      unfold render_items. rewrite count_kind_app, Hx.
      now rewrite count_token_comma_prefixed. }
    reflexivity.
  - change (render (PDict name v))
      with ([TSTRING name; TEQUALS] ++ render v).
    now rewrite count_kind_app, IH.
Qed.

Lemma count_token_results rs : count_kind TOKEN (comma_prefixed rs) = 0.
Proof.
  apply count_token_comma_prefixed, Forall_forall.
  intros v _. apply count_token_render.
Qed.

Lemma count_token_sigil sigil : count_kind TOKEN [sigil_token sigil] = 0.
Proof.
  unfold sigil_token.
  repeat match goal with
         | |- context [String.eqb ?a ?b] => destruct (String.eqb a b)
         end; reflexivity.
Qed.

Lemma count_token_oobs rs :
  forallb well_formed_oob rs = true ->
  count_kind TOKEN (render_oobs rs) = 0.
Proof.
  induction rs as [|r rs IH]; [reflexivity|].
  simpl. intro H. apply andb_true_iff in H. destruct H as [Hr Hrs].
  change (render_oobs (r :: rs)) with (render_oob r ++ render_oobs rs).
  rewrite count_kind_app, (IH Hrs), Nat.add_0_r.
  destruct r as [id sigil cls results|sigil text].
  - simpl in Hr. destruct id; [discriminate Hr|].
    change (render_oob (AsyncRecord None sigil cls results))
      with ([sigil_token sigil] ++ [TSTRING cls] ++ comma_prefixed results).
    now rewrite !count_kind_app, count_token_sigil, count_token_results.
  - change (render_oob (StreamRecord sigil text))
      with ([sigil_token sigil] ++ [TCSTRING text]).
    now rewrite count_kind_app, count_token_sigil.
Qed.

Lemma count_token_result res :
  well_formed_result_record res = true ->
  count_kind TOKEN (render_result res) = 0.
Proof.
  destruct res as [[[id cls] rs]|]; [|reflexivity].
  intro H. assert (Hid : id = None).
  { simpl in H. destruct rs; destruct id; auto; discriminate H. }
  subst id.
  change (render_result (Some (None, cls, rs)))
    with ([TCARET; TSTRING cls] ++
          match rs with Some rs' => comma_prefixed rs' | None => [] end).
  rewrite count_kind_app.
  destruct rs as [rs|]; [now rewrite count_token_results|reflexivity].
Qed.

(** ** Records after the result record *)

(** The second loop of [_output] on the records before the prompt. *)
Lemma oob_loop_reads_to_prompt braces n l :
  forall k acc s self,
    Forall (fun r => well_formed_oob r = true) l ->
    stream self = spell_oobs braces false l ++ TPROMPT :: s ->
    wpg True
      (while_append k not_prompt (_out_of_band_record false n) acc)
      (fun res self' => res = acc ++ l /\ stream self' = TPROMPT :: s)
      (fun _ => False) self.
Proof.
  induction l as [|r l IH]; intros k acc s self Hl Hs;
    (destruct k as [|k]; [exact I|]); unfold wpg;
    rewrite (while_append_step _ _ _ _ _ _ (not_prompt_eval self)).
  - simpl in Hs. rewrite (stream_at_kind _ _ _ _ Hs). simpl.
    now rewrite app_nil_r.
  - inversion Hl as [|r' l' Hr Hl']; subst.
    destruct (spell_oob_head braces false r Hr)
      as (t' & s' & Hhead & _ & Hp).
    change (spell_oobs braces false (r :: l))
      with (spell_oob braces false r ++ spell_oobs braces false l) in Hs.
    rewrite <- app_assoc in Hs.
    assert (Hs' : stream self =
                  t' :: s' ++ spell_oobs braces false l ++ TPROMPT :: s).
    { now rewrite Hs, Hhead. }
    rewrite (stream_at_kind _ _ _ _ Hs'), Hp. simpl.
    apply (wpg_reads _ _ _ _ _ _ _
             (out_of_band_record_reads braces false n r Hr) Hs).
    intros self1 Hs1.
    eapply wpg_weaken; [apply (IH k (acc ++ [r]) s self1 Hl' Hs1)
                       | auto | | auto].
    intros res self2 [-> Hs2]. now rewrite <- app_assoc.
Qed.

Lemma output_reads_records_after_the_result braces n before r after :
  forallb well_formed_oob before = true ->
  well_formed_result_record (Some r) = true ->
  forallb well_formed_oob after = true ->
  reads (_output false n)
    (spell_oobs braces false before ++
     spell_result_record braces (Some r) ++
     spell_oobs braces false after ++ [TPROMPT; TNL])
    (before ++ after, Some r).
Proof.
  intros Hbefore Hr Hafter rest self Hs.
  apply forallb_Forall_true in Hbefore, Hafter.
  rewrite <- !app_assoc in Hs.
  assert (Hnext : exists s,
            spell_result_record braces (Some r) ++
            spell_oobs braces false after ++ [TPROMPT; TNL] ++ rest
            = TCARET :: s).
  { destruct r as [[id cls] [rs|]]; simpl; eauto. }
  destruct Hnext as (s & Hnext). rewrite Hnext in Hs.
  unfold _output. apply wpg_bind.
  eapply wpg_weaken;
    [apply (oob_loop_reads braces false n before n [] TCARET s self
              Hbefore Hs); now left
    | auto | | auto].
  intros acc self1 [-> Hs1]. simpl. rewrite <- Hnext in Hs1.
  apply wpg_bind, wpg_check.
  rewrite Hnext in Hs1. rewrite (stream_at_kind _ _ _ _ Hs1). simpl.
  rewrite <- Hnext in Hs1. apply wpg_bind.
  apply (wpg_reads _ _ _ _ _ _ _ (result_record_reads braces n r Hr) Hs1).
  intros self2 Hs2. apply wpg_ret. apply wpg_bind. simpl.
  eapply wpg_weaken;
    [apply (oob_loop_reads_to_prompt braces n after n before (TNL :: rest)
              self2 Hafter Hs2)
    | auto | | auto].
  intros acc self3 [-> Hs3].
  apply (wpg_reads _ _ _ _ _ (TNL :: rest) _ (reads_expect TPROMPT) Hs3).
  intros self4 Hs4.
  apply (wpg_reads _ _ _ _ _ rest _ (reads_expect TNL) Hs4).
  intros self5 Hs5. now apply wpg_ret.
Qed.

(** ** Further properties of the scanner and the parser *)

(** X2. A document returned in pedantic mode has no out-of-band record after
    its result record: the tokens read are the records, the result record
    and the prompt, in this order; and whatever token but the prompt follows
    a well-formed result record, an out-of-band record or any other, pedantic
    mode fails with expected PROMPT, got the kind of that token. *)
Theorem pedantic_document_has_no_record_after_the_result :
  (forall tokens oob_records result,
     MIParser_parse tokens true = Ok (oob_records, result) ->
     exists c rest,
       tokens = c ++ rest /\
       canon_all c =
         render_oobs oob_records ++ render_result result ++ [TPROMPT]) /\
  (forall braces before r t more,
     forallb well_formed_oob before = true ->
     well_formed_result_record (Some r) = true ->
     kind_of t <> PROMPT ->
     MIParser_parse
       (spell_oobs braces true before ++
        spell_result_record braces (Some r) ++ t :: more) true =
     Raise (SyntaxError (ExpectedGot PROMPT (Some (kind_of t))))).
Proof.
  split.
  - intros tokens oob_records result H.
    pose proof (MIParser_parse_outcome tokens true) as Ho.
    rewrite H in Ho.
    destruct Ho as (before & after & c & rest & Hdoc & Hped & _ & Ht & Hc).
    simpl in *. rewrite (Hped eq_refl) in *. rewrite app_nil_r in Hdoc.
    subst before. exists c, rest. split; [exact Ht|]. exact Hc.
  - intros braces before r t more Hb Hr Ht.
    apply forallb_Forall_true in Hb. apply MIParser_parse_fails.
    { destruct (spell_oobs braces true before); [|discriminate].
      destruct r as [[id cls] [rs|]]; discriminate. }
    intros self Hs.
    now apply (output_fails_after_the_result braces _ before r t more).
Qed.

Lemma pedantic_document_has_no_record_after_the_result_witness :
  MIParser_parse async_before_result true =
  Ok ([AsyncRecord None "*" "stopped" []], Some done_record) /\
  (exists c rest,
     async_before_result = c ++ rest /\
     canon_all c =
       render_oobs [AsyncRecord None "*" "stopped" []] ++
       render_result (Some done_record) ++ [TPROMPT]) /\
  MIParser_parse async_after_result true =
  Raise (SyntaxError (ExpectedGot PROMPT (Some ASTERISK))).
Proof.
  split; [reflexivity|]. split.
  - apply (proj1 pedantic_document_has_no_record_after_the_result
             async_before_result).
    reflexivity.
  - apply (proj2 pedantic_document_has_no_record_after_the_result
             false [] done_record TASTERISK
             [TSTRING "stopped"; TNL; TPROMPT; TNL]);
      [reflexivity | reflexivity | discriminate].
Defined.

(** X3. [decode_string] on a text without backslash never raises: it returns
    every code point below 128 as it is and, in place of every code point
    [n] from 128 to 255, the two code points [192 + n / 64] and
    [128 + n mod 64] of the bytes of its UTF-8 encoding; so a text of ASCII
    characters is returned as it is. *)
Theorem text_without_backslash_decodes_to_its_utf8_bytes names s :
  all_chars not_backslash s = true ->
  decode_string names s =
  Ok (flat_map (fun n => if (n <? 128)%N then [n]
                         else [192 + n / 64; 128 + n mod 64]%N)
        (codepoints s)) /\
  decode_string names s = Ok (codepoints (utf8_encode s)) /\
  (all_chars is_ascii s = true -> decode_string names s = Ok (codepoints s)).
Proof.
  intro H. pose proof (decode_string_without_backslash names s H) as Hd.
  split; [now rewrite Hd, codepoints_utf8_encode|].
  split; [exact Hd|]. intro Ha. now rewrite Hd, (utf8_encode_ascii s Ha).
Qed.

Lemma text_without_backslash_decodes_to_its_utf8_bytes_witness :
  all_chars not_backslash accented_word = true /\
  decode_string no_names accented_word = Ok [99; 97; 102; 195; 169]%N.
Proof.
  split; [reflexivity|].
  apply (text_without_backslash_decodes_to_its_utf8_bytes no_names
           accented_word).
  reflexivity.
Defined.

(** X4. [parse] raises UnicodeDecodeError only on a text that holds a
    backslash: without one, every quoted string the scanner matches is
    decoded. *)
Theorem text_without_backslash_raises_no_decoding_error names text pedantic :
  all_chars not_backslash text = true ->
  parse names text pedantic <> Raise UnicodeDecodeError.
Proof.
  intros H. unfold parse, mi_scanner_scan.
  destruct (scan_without_backslash names (String.length text) text H)
    as [tokens [rem ->]].
  destruct rem as [|c rem]; [|discriminate].
  pose proof (MIParser_parse_outcome tokens pedantic) as Ho.
  intro Hp. rewrite Hp in Ho. exact Ho.
Qed.

Lemma text_without_backslash_raises_no_decoding_error_witness :
  all_chars not_backslash accented_stream = true /\
  parse no_names accented_stream false <> Raise UnicodeDecodeError.
Proof.
  split; [reflexivity|].
  apply (text_without_backslash_raises_no_decoding_error no_names
           accented_stream false).
  reflexivity.
Defined.

(** X5. The scanner skips nothing: a text without quoted string that holds
    a character no rule of the lexicon can match (a space, a tab, a [#])
    leaves a remainder, and [parse] fails its assertion, in either mode. *)
Theorem character_outside_the_alphabet_is_a_lexical_error
    names text pedantic :
  all_chars not_quote text = true ->
  all_chars token_char text = false ->
  parse names text pedantic = Raise AssertionError.
Proof.
  intros Hq Ha. unfold parse, mi_scanner_scan.
  destruct (scan_without_quote names (String.length text) text Hq)
    as [tokens [scanned [rem [-> [Htext Hs]]]]].
  destruct rem as [|c rem]; [|reflexivity].
  rewrite string_app_empty in Htext. subst scanned. congruence.
Qed.

Lemma character_outside_the_alphabet_is_a_lexical_error_witness :
  parse no_names stray_space true = Raise AssertionError.
Proof.
  apply character_outside_the_alphabet_is_a_lexical_error; reflexivity.
Defined.

(** X6. [MIParser.parse] reads no further than the newline of the prompt
    line: whatever tokens follow an accepted sequence, the sequence with
    them is accepted with the same document. *)
Theorem tokens_after_the_prompt_line_are_ignored tokens more pedantic doc :
  MIParser_parse tokens pedantic = Ok doc ->
  MIParser_parse (tokens ++ more) pedantic = Ok doc.
Proof.
  intro H. destruct tokens as [|t ts]; [discriminate H|].
  unfold MIParser_parse in H.
  destruct (_output pedantic (budget (t :: ts)) (Parser (Some t) ts))
    as [[doc' s]|e] eqn:Hrun; [|discriminate H].
  inversion H; subst doc'.
  destruct (output_same_result more pedantic _ _ _
              (budget_app (t :: ts) more) doc s Hrun) as [_ [s' Hs']].
  change (MIParser_parse ((t :: ts) ++ more) pedantic)
    with (match _output pedantic (budget ((t :: ts) ++ more))
                  (extended more (Parser (Some t) ts)) with
          | Ok (d, _) => Ok d
          | Raise e => Raise e
          end).
  now rewrite Hs'.
Qed.

Lemma tokens_after_the_prompt_line_are_ignored_witness :
  MIParser_parse (done_tokens ++ [TRBRACE; TTOKEN 7; TCARET]) true =
  Ok ([], Some done_record).
Proof.
  apply (tokens_after_the_prompt_line_are_ignored done_tokens).
  reflexivity.
Defined.

(** X7. Every document [MIParser.parse] returns is well formed: no record
    carries a numeric id; an async record has the sigil [*], [+] or [=] and a
    stream record [~], [@] or [&]; the results of a record are dictionaries
    of one named result, and those of a result record, if any, are not empty;
    the value of a named result is a string or a list, and a list holds
    either named results only or none. *)
Theorem returned_document_is_well_formed tokens pedantic doc :
  MIParser_parse tokens pedantic = Ok doc -> well_formed_document doc = true.
Proof.
  destruct tokens as [|t ts]; [discriminate|]. unfold MIParser_parse.
  destruct (_output pedantic (budget (t :: ts)) (Parser (Some t) ts))
    as [[doc' s]|e] eqn:Hrun; [|discriminate].
  intro H. inversion H; subst doc'.
  exact (output_shape pedantic _ _ doc s Hrun).
Qed.

Lemma returned_document_is_well_formed_witness :
  MIParser_parse stopped_tokens false = Ok stopped_document /\
  well_formed_document stopped_document = true.
Proof.
  split; [reflexivity|].
  apply (returned_document_is_well_formed stopped_tokens false).
  reflexivity.
Defined.

(** X8. Every well-formed document is returned for the tokens that spell
    it: its records in order, each async record on a line, each stream
    record followed by a newline in lenient mode and by none in pedantic
    mode, then the result record, with a second newline after a list of
    results, then the prompt line; lists of named results and empty lists
    written with braces or with brackets. *)
Theorem well_formed_document_parses_back braces pedantic doc :
  well_formed_document doc = true ->
  MIParser_parse (spell_document braces pedantic doc) pedantic = Ok doc.
Proof.
  intro Hw. apply MIParser_parse_reads.
  - apply spell_document_nonempty.
  - now apply output_reads.
Qed.

Lemma well_formed_document_parses_back_witness :
  well_formed_document stopped_document = true /\
  MIParser_parse (spell_document true false stopped_document) false =
  Ok stopped_document.
Proof.
  split; [reflexivity|].
  apply (well_formed_document_parses_back true false stopped_document).
  reflexivity.
Defined.

(** X9. [parse] returns every well-formed document whose names are
    identifiers and whose strings hold only ASCII code points other than
    quote and backslash, for the text of the tokens that spell it, written
    with nothing between the tokens. *)
Theorem written_document_parses_back names braces pedantic doc :
  well_formed_document doc = true -> writable_document doc = true ->
  parse names (write (spell_document braces pedantic doc)) pedantic = Ok doc.
Proof.
  intros Hwf Hw. unfold parse.
  rewrite (scan_write names _
             (spell_document_scannable braces pedantic doc Hwf Hw)).
  apply MIParser_parse_reads.
  - apply spell_document_nonempty.
  - now apply output_reads.
Qed.

Lemma written_document_parses_back_witness :
  write (spell_document true false stopped_document) = stopped_text /\
  parse no_names stopped_text false = Ok stopped_document.
Proof.
  split; [reflexivity|].
  apply (written_document_parses_back no_names true false stopped_document);
    reflexivity.
Defined.

(** X10. A result record with a list of results is rejected when one
    newline only ends it, whatever records precede it and in either mode:
    [_comma_prefixed_results] takes the newline and [_result_record] asks
    for another; the error names the token found in its place. *)
Theorem result_list_with_one_newline_is_rejected
    braces pedantic oobs result_class rs t more :
  forallb well_formed_oob oobs = true ->
  well_formed_results rs = true -> rs <> [] ->
  kind_of t <> NL ->
  MIParser_parse
    (spell_oobs braces pedantic oobs ++
     TCARET :: TSTRING result_class ::
     spell_after_commas braces rs ++ TNL :: t :: more) pedantic =
  Raise (SyntaxError (ExpectedGot NL (Some (kind_of t)))).
Proof.
  intros Hoobs Hrs Hne Ht. apply forallb_Forall_true in Hoobs.
  apply MIParser_parse_fails.
  { destruct (spell_oobs braces pedantic oobs); discriminate. }
  intros self Hs. unfold _output. apply wpg_bind.
  eapply wpg_weaken;
    [apply (oob_loop_reads braces pedantic _ oobs _ [] TCARET _ self
              Hoobs Hs); now left
    | auto | | contradiction].
  intros acc self1 [-> Hs1]. simpl.
  apply wpg_bind, wpg_check.
  rewrite (stream_at_kind _ _ _ _ Hs1). simpl.
  do 2 apply fails_bind.
  now apply (result_record_fails braces _ result_class rs t more self1).
Qed.

Lemma result_list_with_one_newline_is_rejected_witness :
  MIParser_parse one_newline_result false =
  Raise (SyntaxError (ExpectedGot NL (Some PROMPT))).
Proof.
  apply (result_list_with_one_newline_is_rejected false false []
           "done" [PDict "a" (PStr [49%N])] TPROMPT [TNL]);
    [reflexivity | reflexivity | discriminate | discriminate].
Defined.

(** X11. Pedantic mode rejects every stream record that is followed by a
    newline before the result record, whatever records precede it: the
    document rule takes the newline for the start of a record. *)
Theorem pedantic_mode_rejects_a_stream_record_with_its_newline
    braces oobs sigil text more :
  forallb well_formed_oob oobs = true ->
  one_of ["~"; "@"; "&"] sigil = true ->
  MIParser_parse
    (spell_oobs braces true oobs ++
     sigil_token sigil :: TCSTRING text :: TNL :: more) true =
  Raise (SyntaxError (ExpectedMarker (Some NL))).
Proof.
  intros Hoobs Hsigil. apply forallb_Forall_true in Hoobs.
  apply MIParser_parse_fails.
  { destruct (spell_oobs braces true oobs); discriminate. }
  intros self Hs. unfold _output. apply fails_bind.
  assert (Hall : Forall (fun r => well_formed_oob r = true)
                   (oobs ++ [StreamRecord sigil text])).
  { apply Forall_app. split; [exact Hoobs|]. now repeat constructor. }
  apply (oob_loop_fails braces true _ _ (oobs ++ [StreamRecord sigil text])
           _ [] (TNL :: more) self Hall).
  { rewrite Hs. unfold spell_oobs. rewrite flat_map_app, <- app_assoc.
    reflexivity. }
  intros k' acc' self' Hs'. destruct k' as [|k']; [exact I|].
  unfold fails_with, wpg.
  rewrite (while_append_step _ _ _ _ _ _
             (neither_caret_nor_prompt_eval self')).
  rewrite !(stream_at_kind _ _ _ _ Hs'). simpl.
  unfold bind, _out_of_band_record, bind.
  change (_lookahead_kind self')
    with (@Ok (option kind * parser) (peek self', self')).
  rewrite (stream_peek _ _ _ Hs'). reflexivity.
Qed.

Lemma pedantic_mode_rejects_a_stream_record_with_its_newline_witness :
  MIParser_parse stream_line_after_record true =
  Raise (SyntaxError (ExpectedMarker (Some NL))).
Proof.
  apply (pedantic_mode_rejects_a_stream_record_with_its_newline false
           [AsyncRecord None "*" "stopped" []] "~" [97%N]
           [TCARET; TSTRING "done"; TNL; TPROMPT; TNL]);
    reflexivity.
Defined.

(** X12. A numeric id is accepted nowhere: the tokens of an accepted
    sequence, up to its prompt, hold no TOKEN token. *)
Theorem accepted_tokens_hold_no_numeric_id tokens pedantic doc :
  MIParser_parse tokens pedantic = Ok doc ->
  exists c rest,
    tokens = c ++ rest /\
    count_kind PROMPT c = 1 /\ count_kind TOKEN c = 0.
Proof.
  intro H.
  assert (Hw : well_formed_document doc = true).
  { destruct tokens as [|t ts]; [discriminate H|].
    unfold MIParser_parse in H.
    destruct (_output pedantic (budget (t :: ts)) (Parser (Some t) ts))
      as [[doc' s]|e] eqn:Hrun; [|discriminate H].
    inversion H; subst doc'.
    exact (output_shape pedantic _ _ doc s Hrun). }
  pose proof (MIParser_parse_outcome tokens pedantic) as Ho.
  rewrite H in Ho.
  destruct Ho as (before & after & c & rest & Hdoc & _ & _ & Ht & Hc).
  exists c, rest. split; [exact Ht|].
  split; [now apply (returned_document_tokens _ _ _ _ Hc)|].
  unfold well_formed_document in Hw. rewrite Hdoc in Hw.
  apply andb_true_iff in Hw. destruct Hw as [Hoobs Hres].
  rewrite forallb_app in Hoobs. apply andb_true_iff in Hoobs.
  destruct Hoobs as [Hb Ha].
  rewrite <- count_token_canon, Hc, !count_kind_app.
  now rewrite (count_token_oobs _ Hb), (count_token_oobs _ Ha),
    (count_token_result _ Hres).
Qed.

Lemma accepted_tokens_hold_no_numeric_id_witness :
  exists c rest,
    stopped_tokens = c ++ rest /\
    count_kind PROMPT c = 1 /\ count_kind TOKEN c = 0.
Proof.
  apply (accepted_tokens_hold_no_numeric_id stopped_tokens false
           stopped_document).
  reflexivity.
Defined.

(** X13. In lenient mode well-formed out-of-band records spelled after the
    result record are read as well, and returned in one list after those
    spelled before it: the document does not tell on which side of the
    result record a record stood. *)
Theorem lenient_mode_reads_records_after_the_result
    braces before r after :
  forallb well_formed_oob before = true ->
  well_formed_result_record (Some r) = true ->
  forallb well_formed_oob after = true ->
  MIParser_parse
    (spell_oobs braces false before ++
     spell_result_record braces (Some r) ++
     spell_oobs braces false after ++ [TPROMPT; TNL]) false =
  Ok (before ++ after, Some r).
Proof.
  intros Hbefore Hr Hafter. apply MIParser_parse_reads.
  - destruct (spell_oobs braces false before); [|discriminate].
    destruct r as [[id cls] [rs|]]; discriminate.
  - now apply output_reads_records_after_the_result.
Qed.

Lemma lenient_mode_reads_records_after_the_result_witness :
  MIParser_parse record_after_result false =
  Ok ([StreamRecord "~" [97%N]; StreamRecord "@" [98%N]], Some done_record).
Proof.
  apply (lenient_mode_reads_records_after_the_result false
           [StreamRecord "~" [97%N]] done_record [StreamRecord "@" [98%N]]);
    reflexivity.
Defined.

(** ** Tokens after an accepted sequence *)

(** What follows an accepted token sequence is not read. *)
Lemma MIParser_parse_app tokens more pedantic doc :
  MIParser_parse tokens pedantic = Ok doc ->
  MIParser_parse (tokens ++ more) pedantic = Ok doc.
Proof.
  intro H. destruct tokens as [|t ts]; [discriminate H|].
  unfold MIParser_parse in H.
  destruct (_output pedantic (budget (t :: ts)) (Parser (Some t) ts))
    as [[doc' s]|e] eqn:Hrun; [|discriminate H].
  inversion H; subst doc'.
  destruct (output_same_result more pedantic _ _ _
              (budget_app (t :: ts) more) doc s Hrun) as [_ [s' Hs']].
  change (MIParser_parse ((t :: ts) ++ more) pedantic)
    with (match _output pedantic (budget ((t :: ts) ++ more))
                  (extended more (Parser (Some t) ts)) with
          | Ok (d, _) => Ok d
          | Raise e => Raise e
          end).
  now rewrite Hs'.
Qed.

(** Two carets before the first prompt are a syntax error. *)
Lemma MIParser_parse_two_carets a b c pedantic :
  count_kind PROMPT (a ++ b) = 0 ->
  exists what,
    MIParser_parse (a ++ TCARET :: b ++ TCARET :: c) pedantic =
    Raise (SyntaxError what).
Proof.
  intro Hprompt.
  pose proof (MIParser_parse_outcome (a ++ TCARET :: b ++ TCARET :: c)
                pedantic) as Ho.
  destruct (MIParser_parse (a ++ TCARET :: b ++ TCARET :: c) pedantic)
    as [doc|[]]; try contradiction.
  - exfalso.
    destruct Ho as (before & after & cs & rest & _ & _ & _ & Htokens & Hc).
    destruct (returned_document_tokens _ _ _ _ Hc) as [Hp Hcaret].
    replace (a ++ TCARET :: b ++ TCARET :: c)
      with ((a ++ TCARET :: b ++ [TCARET]) ++ c) in Htokens
      by (rewrite <- !app_assoc; simpl; rewrite <- app_assoc; reflexivity).
    assert (Hhead : count_kind PROMPT (a ++ TCARET :: b ++ [TCARET]) = 0 /\
                    count_kind CARET (a ++ TCARET :: b ++ [TCARET]) >= 2).
    { rewrite count_kind_app in Hprompt.
      change (TCARET :: b ++ [TCARET]) with ([TCARET] ++ b ++ [TCARET]).
      rewrite !count_kind_app. unfold count_kind at 2 4 6 8. simpl. lia. }
    destruct Hhead as [Hp0 Hc2].
    destruct (app_eq_app _ _ _ _ Htokens) as [l [[H1 H2]|[H1 H2]]].
    + rewrite H1, count_kind_app in Hp0. lia.
    + rewrite H1, count_kind_app in Hcaret. lia.
  - eauto.
  - destruct a; discriminate Ho.
Qed.

(** C7, amended. A document holds at most one result record, and the tokens
    it was read from, up to their prompt, hold at most one caret.  A second
    caret before the first prompt is a syntax error in both modes; a
    caret-introduced record after the prompt line of an accepted text is not
    read, and [parse] returns the document of what precedes it. *)
Theorem second_result_record_is_rejected names text tokens pedantic :
  mi_scanner_scan names text = Ok (tokens, "") ->
  (forall doc,
     parse names text pedantic = Ok doc ->
     exists c rest,
       tokens = c ++ rest /\
       count_kind PROMPT c = 1 /\ count_kind CARET c <= 1) /\
  (forall a b c,
     tokens = a ++ TCARET :: b ++ TCARET :: c ->
     count_kind PROMPT (a ++ b) = 0 ->
     exists what, parse names text pedantic = Raise (SyntaxError what)) /\
  (forall front more doc,
     tokens = front ++ TCARET :: more ->
     MIParser_parse front pedantic = Ok doc ->
     parse names text pedantic = Ok doc).
Proof.
  intro Hscan. unfold parse. rewrite Hscan. repeat split.
  - intros doc H.
    pose proof (MIParser_parse_outcome tokens pedantic) as Ho.
    rewrite H in Ho.
    destruct Ho as (before & after & c & rest & _ & _ & _ & Ht & Hc).
    exists c, rest. split; [exact Ht|].
    exact (returned_document_tokens _ _ _ _ Hc).
  - intros a b c -> Hp. now apply MIParser_parse_two_carets.
  - intros front more doc -> H. now apply MIParser_parse_app.
Qed.

Lemma second_result_record_is_rejected_witness :
  mi_scanner_scan no_names two_results_one_prompt =
  Ok ([TCARET; TSTRING "done"; TNL; TCARET; TSTRING "error"; TNL;
       TPROMPT; TNL], "") /\
  (exists what,
     parse no_names two_results_one_prompt false = Raise (SyntaxError what)) /\
  parse no_names two_results_one_prompt false =
  Raise (SyntaxError (ExpectedMarker (Some CARET))) /\
  parse no_names two_results_one_prompt true =
  Raise (SyntaxError (ExpectedGot PROMPT (Some CARET))).
Proof.
  split; [reflexivity|]. split; [|split; reflexivity].
  apply (proj1 (proj2 (second_result_record_is_rejected no_names
                         two_results_one_prompt _ false eq_refl))
           [] [TSTRING "done"; TNL] [TSTRING "error"; TNL; TPROMPT; TNL]);
    reflexivity.
Defined.

(** C7 as stated fails: a second caret-introduced record after the first
    result record does not make [parse] fail when the prompt line stands
    between the two; in both modes the text is accepted and the second record
    ignored. *)
Lemma second_result_after_prompt_counterexample :
  mi_scanner_scan no_names result_after_prompt =
  Ok ([TCARET; TSTRING "done"; TNL; TPROMPT; TNL;
       TCARET; TSTRING "error"; TNL; TPROMPT; TNL], "") /\
  parse no_names result_after_prompt false = Ok ([], Some done_record) /\
  parse no_names result_after_prompt true = Ok ([], Some done_record).
Proof. repeat split. Qed.

(** ** What a returning rule has read *)

Lemma expect_inv expected self t self' :
  _expect expected self = Ok (t, self') ->
  kind_of t = expected /\ stream self = t :: stream self' /\
  self' = advanced self.
Proof.
  intro Hrun. pose proof (expect_returns _ _ _ _ Hrun) as Hat.
  destruct (at_kind_true _ _ Hat) as (t0 & Ht0 & Hk).
  rewrite (expect_forward _ _ _ Ht0 Hk) in Hrun.
  inversion Hrun; subst t0 self'.
  split; [exact Hk|]. split; [now apply stream_advanced|reflexivity].
Qed.

Lemma accept_inv expected self o self' :
  _accept expected self = Ok (o, self') ->
  (o = None /\ self' = self /\ at_kind expected self = false) \/
  (exists t, o = Some t /\ kind_of t = expected /\
             stream self = t :: stream self').
Proof.
  intro Hrun. destruct (at_kind expected self) eqn:Hat.
  - right. destruct (at_kind_true _ _ Hat) as (t & Ht & Hk).
    rewrite (accept_forward _ _ _ Ht Hk) in Hrun. inversion Hrun; subst.
    exists t. split; [reflexivity|]. split; [reflexivity|].
    now apply stream_advanced.
  - left. rewrite (accept_refused _ _ Hat) in Hrun. inversion Hrun; subst.
    auto.
Qed.

Lemma cstring_inv self u self' :
  _cstring self = Ok (u, self') -> stream self = TCSTRING u :: stream self'.
Proof.
  unfold _cstring. intro Hrun.
  apply bind_returns in Hrun. destruct Hrun as (t & s & Ht & Hret).
  inversion Hret; subst. apply expect_inv in Ht.
  destruct Ht as (Hk & Hs & _). now token_kind.
Qed.

(** A stream record read in either mode: what pedantic mode reads of it, and
    the newline that lenient mode reads besides. *)
Lemma stream_output_modes prefix self r self' :
  is_stream_sigil prefix = true ->
  _stream_output false prefix self = Ok (r, self') ->
  exists c mid,
    stream self = c ++ stream self' /\ record_tokens (r, c) /\
    _stream_output true prefix self = Ok (r, mid) /\
    (if with_newline (r, c) then stream mid = TNL :: stream self'
     else mid = self').
Proof.
  intros Hsigil Hrun. unfold _stream_output in *.
  apply bind_returns in Hrun. destruct Hrun as (t & s1 & Ht & Hrun).
  apply bind_returns in Hrun. destruct Hrun as (text & s2 & Htext & Hrun).
  cbn [negb] in Hrun.
  apply bind_returns in Hrun. destruct Hrun as (u & s3 & Hnl & Hret).
  inversion Hret; subst r self'. clear Hret.
  apply bind_returns in Hnl. destruct Hnl as (o & s4 & Hnl & Hret).
  inversion Hret; subst u s4. clear Hret.
  assert (Hped : (sigil <- _expect prefix ;;
                  text0 <- _cstring ;;
                  (if negb true then _accept NL ;;; ret tt else ret tt) ;;;
                  ret (StreamRecord (token_text sigil) text0)) self =
                 Ok (StreamRecord (token_text t) text, s2)).
  { unfold bind at 1. rewrite Ht. unfold bind at 1. rewrite Htext.
    reflexivity. }
  destruct (expect_inv _ _ _ _ Ht) as (Hk & Hs & _).
  apply cstring_inv in Htext.
  assert (Hsig : sigil_token (token_text t) = t).
  { apply sigil_token_text. rewrite Hk, Hsigil. apply orb_true_r. }
  destruct (accept_inv _ _ _ _ Hnl) as [(-> & -> & Hat) | (t' & -> & Hk' & Hs')].
  - exists [t; TCSTRING text], s2. split; [now rewrite Hs, Htext|].
    split; [|split; [exact Hped|]].
    + unfold record_tokens. cbn [fst snd]. rewrite Hsig. split; [|now left].
      subst prefix. destruct t; try discriminate; reflexivity.
    + reflexivity.
  - token_kind.
    exists [t; TCSTRING text; TNL], s2. split; [now rewrite Hs, Htext, Hs'|].
    split; [|split; [exact Hped|exact Hs']].
    unfold record_tokens. cbn [fst snd]. rewrite Hsig. split; [|now right].
    subst prefix. destruct t; try discriminate; reflexivity.
Qed.

(** An out-of-band record read in lenient mode, and what pedantic mode reads
    of it. *)
Lemma out_of_band_record_modes n self r self' :
  _out_of_band_record false n self = Ok (r, self') ->
  exists c mid,
    stream self = c ++ stream self' /\ record_tokens (r, c) /\
    _out_of_band_record true n self = Ok (r, mid) /\
    (if with_newline (r, c) then stream mid = TNL :: stream self'
     else mid = self').
Proof.
  intro Hrun.
  pose proof (wpg_returns _ _ _ _ _ _ _
                (out_of_band_record_spec false n self) Hrun) as (c & Hs & Hc).
  revert Hrun. unfold _out_of_band_record, bind.
  change (_lookahead_kind self)
    with (@Ok (option kind * parser) (peek self, self)).
  cbv iota beta. intro Hrun.
  assert (Hasync : forall prefix,
            is_async_sigil prefix = true ->
            _async_output n prefix self = Ok (r, self') ->
            exists c mid,
              stream self = c ++ stream self' /\ record_tokens (r, c) /\
              _async_output n prefix self = Ok (r, mid) /\
              (if with_newline (r, c) then stream mid = TNL :: stream self'
               else mid = self')).
  { intros prefix Hp Ha0. exists c, self'. split; [exact Hs|].
    pose proof Ha0 as Ha. unfold _async_output in Ha.
    apply bind_returns in Ha. destruct Ha as (id & s1 & _ & Ha).
    apply bind_returns in Ha. destruct Ha as (sg & s2 & _ & Ha).
    apply bind_returns in Ha. destruct Ha as (cls & s3 & _ & Ha).
    apply bind_returns in Ha. destruct Ha as (rs & s4 & _ & Ha).
    inversion Ha; subst r s4.
    split; [split; [exact Hc|exact I]|]. split; [exact Ha0|reflexivity]. }
  destruct (peek self) as [[]|]; try discriminate Hrun;
    first [ now apply Hasync | now apply stream_output_modes ].
Qed.

Lemma record_tokens_nonempty r c : record_tokens (r, c) -> c <> [].
Proof.
  intros [Hc _] ->. cbn [fst snd] in Hc.
  pose proof (render_oob_nonempty r) as Hn. rewrite <- Hc in Hn.
  simpl in Hn. lia.
Qed.

(** ** The two modes on the same tokens *)

(** The first loop of [_output]: pedantic mode reads the same records, up to
    the first stream record that a newline follows. *)
Lemma output_first_loop_modes n :
  forall k acc self acc' self',
    while_append k neither_caret_nor_prompt (_out_of_band_record false n)
      acc self = Ok (acc', self') ->
    exists pieces,
      acc' = acc ++ map fst pieces /\
      stream self = concat (map snd pieces) ++ stream self' /\
      Forall record_tokens pieces /\
      while_append k neither_caret_nor_prompt (_out_of_band_record true n)
        acc self =
      pedantic_outcome pieces [] (acc', self').
Proof.
  induction k as [|k IH]; intros acc self acc' self' Hrun; [discriminate|].
  rewrite (while_append_step _ _ _ _ _ _ (neither_caret_nor_prompt_eval self))
    in Hrun.
  rewrite (while_append_step _ _ _ _ _ _ (neither_caret_nor_prompt_eval self)).
  destruct (negb (at_kind CARET self || at_kind PROMPT self)).
  - apply bind_returns in Hrun. destruct Hrun as (r & s1 & Hbody & Hrun).
    destruct (out_of_band_record_modes _ _ _ _ Hbody)
      as (c & mid & Hs & Hc & Hped & Hmid).
    destruct (IH _ _ _ _ Hrun) as (pieces & Hacc & Hs1 & Hall & Hrest).
    exists ((r, c) :: pieces). split; [|split; [|split]].
    + rewrite Hacc, <- app_assoc. reflexivity.
    + simpl. rewrite <- app_assoc, <- Hs1. exact Hs.
    + now constructor.
    + unfold bind at 1. rewrite Hped. unfold pedantic_outcome.
      cbn [existsb]. destruct (with_newline (r, c)).
      * cbn [orb]. destruct k as [|k]; [discriminate Hrun|].
        rewrite (while_append_step _ _ _ _ _ _
                   (neither_caret_nor_prompt_eval mid)).
        rewrite !(stream_at_kind _ _ _ _ Hmid). simpl. unfold bind.
        rewrite out_of_band_record_at_newline; [reflexivity|].
        now rewrite (stream_at_kind _ _ _ _ Hmid).
      * subst mid. cbn [orb]. exact Hrest.
  - inversion Hrun; subst acc' self'. exists []. simpl.
    rewrite app_nil_r. repeat split; auto.
Qed.

(** The second loop of [_output], which only lenient mode runs. *)
Lemma output_second_loop_pieces n :
  forall k acc self acc' self',
    while_append k not_prompt (_out_of_band_record false n) acc self =
    Ok (acc', self') ->
    exists pieces,
      acc' = acc ++ map fst pieces /\
      stream self = concat (map snd pieces) ++ stream self' /\
      Forall record_tokens pieces /\
      (pieces = [] -> self' = self) /\
      (pieces <> [] -> at_kind PROMPT self = false).
Proof.
  induction k as [|k IH]; intros acc self acc' self' Hrun; [discriminate|].
  rewrite (while_append_step _ _ _ _ _ _ (not_prompt_eval self)) in Hrun.
  destruct (at_kind PROMPT self) eqn:Hat; cbn [negb] in Hrun.
  - inversion Hrun; subst acc' self'. exists []. simpl.
    rewrite app_nil_r. repeat split; auto. congruence.
  - apply bind_returns in Hrun. destruct Hrun as (r & s1 & Hbody & Hrun).
    destruct (out_of_band_record_modes _ _ _ _ Hbody)
      as (c & mid & Hs & Hc & _ & _).
    destruct (IH _ _ _ _ Hrun) as (pieces & Hacc & Hs1 & Hall & _).
    exists ((r, c) :: pieces). split; [|split; [|split; [|split]]].
    + rewrite Hacc, <- app_assoc. reflexivity.
    + simpl. rewrite <- app_assoc, <- Hs1. exact Hs.
    + now constructor.
    + discriminate.
    + reflexivity.
Qed.

(** The tokens that lenient mode accepts, laid out, and what pedantic mode
    makes of them. *)
Lemma output_modes n self doc self' :
  _output false n self = Ok (doc, self') ->
  exists before cr after,
    stream self =
      concat (map snd before) ++ cr ++ concat (map snd after) ++
      TPROMPT :: TNL :: stream self' /\
    fst doc = map fst before ++ map fst after /\
    canon_all cr = render_result (snd doc) /\
    (snd doc = None -> after = []) /\
    Forall record_tokens before /\ Forall record_tokens after /\
    _output true n self = pedantic_outcome before after (doc, self').
Proof.
  unfold _output. intro Hrun.
  apply bind_returns in Hrun. destruct Hrun as (oobs1 & self1 & Hloop & Hrun).
  destruct (output_first_loop_modes _ _ _ _ _ _ Hloop)
    as (before & Hacc & Hs1 & Hbefore & Hped1).
  simpl in Hacc. subst oobs1.
  apply bind_returns in Hrun. destruct Hrun as (caret & s & Hcheck & Hrun).
  assert (s = self1 /\ caret = at_kind CARET self1) as [-> ->].
  { change (_check CARET self1)
      with (@Ok (bool * parser) (at_kind CARET self1, self1)) in Hcheck.
    inversion Hcheck; auto. }
  apply bind_returns in Hrun. destruct Hrun as (res & self2 & Hres & Hrun).
  cbn [negb] in Hrun.
  apply bind_returns in Hrun. destruct Hrun as (oobs2 & self3 & Hloop2 & Hrun).
  destruct (output_second_loop_pieces _ _ _ _ _ _ Hloop2)
    as (after & Hacc2 & Hs2 & Hafter & Hnil & Hcons).
  apply bind_returns in Hrun. destruct Hrun as (tp & self4 & Hprompt & Hrun).
  apply bind_returns in Hrun. destruct Hrun as (tn & self5 & Hnl & Hret).
  inversion Hret; subst doc self5. clear Hret. cbn [fst snd].
  destruct (expect_inv _ _ _ _ Hprompt) as (Hkp & Hs3 & _).
  destruct (expect_inv _ _ _ _ Hnl) as (Hkn & Hs4 & _).
  repeat token_kind.
  assert (Hcr : exists cr,
            stream self1 = cr ++ stream self2 /\
            canon_all cr = render_result res /\
            (res = None -> self2 = self1 /\ at_kind CARET self1 = false)).
  { destruct (at_kind CARET self1).
    - apply bind_returns in Hres. destruct Hres as (r & s & Hr & Hret).
      inversion Hret; subst res s.
      destruct (wpg_returns _ _ _ _ _ _ _ (result_record_spec n self1) Hr)
        as (cr & Hcr & Hcanon).
      exists cr. split; [exact Hcr|]. split; [exact Hcanon|discriminate].
    - inversion Hres; subst res self2. exists []. auto. }
  destruct Hcr as (cr & Hscr & Hcanon & Hnone).
  exists before, cr, after. split; [|split; [|split; [|split; [|split; [|split]]]]].
  - now rewrite Hs1, Hscr, Hs2, Hs3, Hs4.
  - now rewrite Hacc2.
  - exact Hcanon.
  - intro Hn. destruct (Hnone Hn) as [-> Hcaret].
    destruct after as [|p after]; [reflexivity|exfalso].
    assert (Hp : at_kind PROMPT self1 = false) by (apply Hcons; discriminate).
    (* the first loop stopped at a caret or at the prompt *)
    clear - Hloop Hp Hcaret.
    assert (Hstop : forall k acc s acc' s',
              while_append k neither_caret_nor_prompt
                (_out_of_band_record false n) acc s = Ok (acc', s') ->
              at_kind CARET s' || at_kind PROMPT s' = true).
    { induction k as [|k IH]; intros acc s acc' s' H; [discriminate|].
      rewrite (while_append_step _ _ _ _ _ _
                 (neither_caret_nor_prompt_eval s)) in H.
      destruct (at_kind CARET s || at_kind PROMPT s) eqn:Hat; cbn [negb] in H.
      - inversion H; subst. exact Hat.
      - apply bind_returns in H. destruct H as (r & s1 & _ & H).
        exact (IH _ _ _ _ H). }
    pose proof (Hstop _ _ _ _ _ Hloop) as H. rewrite Hp, Hcaret in H.
    discriminate H.
  - exact Hbefore.
  - exact Hafter.
  - unfold bind at 1. rewrite Hped1. unfold pedantic_outcome.
    destruct (existsb with_newline before); [reflexivity|].
    unfold bind at 1.
    change (_check CARET self1)
      with (@Ok (bool * parser) (at_kind CARET self1, self1)).
    cbv iota beta. unfold bind at 1. rewrite Hres. cbn [negb].
    unfold bind at 1. unfold ret at 1.
    destruct after as [|[r c] after].
    + rewrite (Hnil eq_refl) in *. simpl in Hacc2. rewrite app_nil_r in Hacc2.
      subst oobs2. unfold bind at 1. rewrite Hprompt.
      unfold bind at 1. rewrite Hnl. reflexivity.
    + assert (Hp : at_kind PROMPT self2 = false)
        by (apply Hcons; discriminate).
      inversion Hafter as [|p l Hrc _]; subst.
      pose proof (record_tokens_nonempty _ _ Hrc) as Hne.
      destruct c as [|t c]; [congruence|]. simpl in Hs2.
      unfold bind at 1, _expect, bind at 1.
      rewrite (accept_refused _ _ Hp). unfold bind.
      change (_lookahead_kind self2)
        with (@Ok (option kind * parser) (peek self2, self2)).
      cbv iota beta. rewrite (stream_peek _ _ _ Hs2). reflexivity.
Qed.

(** What pedantic mode accepts, lenient mode accepts. *)
Lemma MIParser_parse_lenient tokens doc :
  MIParser_parse tokens true = Ok doc -> MIParser_parse tokens false = Ok doc.
Proof.
  unfold MIParser_parse. destruct tokens as [|t rest]; [discriminate|].
  destruct (_output true (budget (t :: rest)) (Parser (Some t) rest))
    as [[d s]|e] eqn:H; [|discriminate].
  intro Hd. inversion Hd; subst d.
  now rewrite (output_lenient _ _ _ _ H).
Qed.

Lemma pedantic_outcome_document before after (doc : document)
    (self : parser) :
  match pedantic_outcome before after (doc, self) with
  | Ok (d, _) => Ok d
  | Raise e => Raise e
  end = pedantic_outcome before after doc.
Proof.
  unfold pedantic_outcome. destruct (existsb with_newline before);
    [reflexivity|]. now destruct after.
Qed.

(** The tokens that lenient mode accepts, laid out, and what pedantic mode
    makes of them. *)
Lemma MIParser_parse_modes tokens doc :
  MIParser_parse tokens false = Ok doc ->
  exists before cr after rest,
    tokens =
      concat (map snd before) ++ cr ++ concat (map snd after) ++
      TPROMPT :: TNL :: rest /\
    fst doc = map fst before ++ map fst after /\
    canon_all cr = render_result (snd doc) /\
    (snd doc = None -> after = []) /\
    Forall record_tokens before /\ Forall record_tokens after /\
    MIParser_parse tokens true = pedantic_outcome before after doc.
Proof.
  unfold MIParser_parse. destruct tokens as [|t ts]; [discriminate|].
  destruct (_output false (budget (t :: ts)) (Parser (Some t) ts))
    as [[d s]|e] eqn:H; [|discriminate].
  intro Hd. inversion Hd; subst d.
  destruct (output_modes _ _ _ _ H)
    as (before & cr & after & Hs & Hdoc & Hcr & Hnone & Hb & Ha & Hped).
  exists before, cr, after, (stream s). rewrite Hped.
  repeat split; auto. apply pedantic_outcome_document.
Qed.

(** ** Texts without a prompt line *)

Lemma has_prompt_line_app c rest :
  has_prompt_line (c ++ TPROMPT :: TNL :: rest) = true.
Proof.
  induction c as [|t c IH]; [reflexivity|].
  simpl. rewrite IH. apply orb_true_r.
Qed.

(** An accepted token sequence holds a prompt line. *)
Lemma accepted_tokens_have_a_prompt_line tokens pedantic doc :
  MIParser_parse tokens pedantic = Ok doc -> has_prompt_line tokens = true.
Proof.
  intro H.
  assert (Hl : MIParser_parse tokens false = Ok doc).
  { destruct pedantic; [now apply MIParser_parse_lenient|exact H]. }
  destruct (MIParser_parse_modes _ _ Hl)
    as (before & cr & after & rest & -> & _).
  rewrite !app_assoc. apply has_prompt_line_app.
Qed.

(** Tokens without a prompt line are a syntax error, which in lenient mode
    does not ask for the prompt. *)
Lemma MIParser_parse_without_prompt_line tokens pedantic :
  tokens <> [] ->
  has_prompt_line tokens = false ->
  exists what,
    MIParser_parse tokens pedantic = Raise (SyntaxError what) /\
    (pedantic = false -> not_expected_prompt what).
Proof.
  intros Hne Hline.
  pose proof (MIParser_parse_outcome tokens pedantic) as Ho.
  destruct (MIParser_parse tokens pedantic) as [doc|[]] eqn:H;
    try contradiction.
  - apply accepted_tokens_have_a_prompt_line in H. congruence.
  - exists what. now split.
Qed.

(** C5, amended. A text that tokenizes to at least one token and holds no
    prompt line, that is no prompt token followed at once by a newline token,
    is a grammar error in both modes, and in lenient mode the message never
    names the prompt as the expected token.  When the tokens hold no prompt
    at all and lack only their prompt line, the message is: in pedantic mode
    after a result record, expected PROMPT, got None; in lenient mode, or
    with no result record, expected out-of-band record marker, got None.  A
    text that holds a prompt line and goes on after it is not read further:
    when the tokens up to some point are accepted, so is the text, with the
    same document. *)
Theorem missing_prompt_is_a_grammar_error names text tokens pedantic :
  mi_scanner_scan names text = Ok (tokens, "") ->
  tokens <> [] ->
  (has_prompt_line tokens = false ->
   exists what,
     parse names text pedantic = Raise (SyntaxError what) /\
     (pedantic = false -> not_expected_prompt what)) /\
  (forall rest doc,
     count_kind PROMPT tokens = 0 ->
     MIParser_parse (tokens ++ TPROMPT :: rest) pedantic = Ok doc ->
     parse names text pedantic =
     Raise (SyntaxError (missing_prompt_error pedantic doc))) /\
  (forall front more doc,
     tokens = front ++ more ->
     MIParser_parse front pedantic = Ok doc ->
     parse names text pedantic = Ok doc /\ has_prompt_line front = true).
Proof.
  intros Hscan Hne. unfold parse. rewrite Hscan. split; [|split].
  - now apply MIParser_parse_without_prompt_line.
  - intros rest doc Hcount Hdoc. now apply (MIParser_parse_cut tokens rest).
  - intros front more doc -> H.
    split; [now apply (MIParser_parse_app front more)|].
    exact (accepted_tokens_have_a_prompt_line _ _ _ H).
Qed.

Lemma missing_prompt_is_a_grammar_error_witness :
  (exists what,
     parse no_names no_prompt_line true = Raise (SyntaxError what) /\
     (true = false -> not_expected_prompt what)) /\
  parse no_names no_prompt_line true =
  Raise (SyntaxError (missing_prompt_error true ([], Some done_record))) /\
  parse no_names no_prompt_line true =
  Raise (SyntaxError (ExpectedGot PROMPT None)) /\
  (parse no_names prompt_line_first true = Ok ([], None) /\
   has_prompt_line [TPROMPT; TNL] = true).
Proof.
  split; [|split; [|split]].
  - apply (missing_prompt_is_a_grammar_error no_names no_prompt_line
             [TCARET; TSTRING "done"; TNL] true);
      [reflexivity | discriminate | reflexivity].
  - apply (proj1 (proj2 (missing_prompt_is_a_grammar_error no_names
                           no_prompt_line [TCARET; TSTRING "done"; TNL] true
                           eq_refl ltac:(discriminate)))
             [TNL] ([], Some done_record));
      reflexivity.
  - reflexivity.
  - apply (proj2 (proj2 (missing_prompt_is_a_grammar_error no_names
                           prompt_line_first
                           [TPROMPT; TNL; TCARET; TSTRING "done"; TNL] true
                           eq_refl ltac:(discriminate)))
             [TPROMPT; TNL] [TCARET; TSTRING "done"; TNL] ([], None));
      reflexivity.
Defined.

(** C5 as stated fails three ways.  In lenient mode the text [^done],
    newline, which tokenizes and has no prompt line, is refused for want of
    an out-of-band record marker, not of the prompt.  The text [^done],
    newline, [(gdb)], whose prompt lacks its newline, is refused in both
    modes for want of the newline.  The text [(gdb)], newline, [^done],
    newline, which does not end with the prompt line, is accepted in both
    modes: what follows the first prompt line is not read. *)
Lemma missing_prompt_line_counterexample :
  (mi_scanner_scan no_names no_prompt_line =
   Ok ([TCARET; TSTRING "done"; TNL], "") /\
   parse no_names no_prompt_line false =
   Raise (SyntaxError (ExpectedMarker None)) /\
   ~ (exists got,
        parse no_names no_prompt_line false =
        Raise (SyntaxError (ExpectedGot PROMPT got)))) /\
  (mi_scanner_scan no_names prompt_without_newline =
   Ok ([TCARET; TSTRING "done"; TNL; TPROMPT], "") /\
   parse no_names prompt_without_newline false =
   Raise (SyntaxError (ExpectedGot NL None)) /\
   parse no_names prompt_without_newline true =
   Raise (SyntaxError (ExpectedGot NL None))) /\
  (mi_scanner_scan no_names prompt_line_first =
   Ok ([TPROMPT; TNL; TCARET; TSTRING "done"; TNL], "") /\
   parse no_names prompt_line_first false = Ok ([], None) /\
   parse no_names prompt_line_first true = Ok ([], None)).
Proof.
  repeat split. intros [got H]. discriminate H.
Qed.




(** ** A character that no rule matches, after a text that tokenizes *)

















(** ** Decoding the escapes of a quoted string *)




Lemma plain_app a b : plain (a ++ b) = plain a && plain b.
Proof.
  induction a as [|c a IH]; simpl; [reflexivity|].
  now rewrite IH, andb_assoc.
Qed.
















(** ** The quoted string that the scanner matches *)






